(** * Cave map generator (generate_test_wall_map.c)

    A shallow embedding of the map generation pipeline of
    [src/data/generate_test_wall_map.c]: random seeding of the cell grid,
    cellular-automaton smoothing, the thick-brush flood fill that seals
    inaccessible areas, and the selection of a tile index per cell.

    Modelling conventions.
    - [map_data] (a static [uint8_t[MAP_HEIGHT][MAP_WIDTH]]), the smoothing
      [buffer] and [accessible_spots] are contiguous byte arrays; they are
      modelled as [list Z] in row-major order, cell (x, y) living at index
      [y * MAP_WIDTH + x].  Every value the program stores is 0, 1, 2 or 3,
      so no byte wrap-around is involved.
    - C [int] coordinates are [Z]; their magnitude stays far below 2^31.
    - [MAP_WIDTH] and [MAP_HEIGHT] are macros of the source (both 160); the
      development is parametric in them and instantiated at 160, and at
      small sizes, where a concrete run is evaluated.
    - An access outside an array is undefined in C.  [arr_get] reads 0 and
      [arr_set] leaves the array unchanged there; the theorems below
      establish that the flood fill never performs such an access.
    - [rand()] is a sequence [rs : nat -> Z] together with the number of
      draws consumed so far.
    - [Push], [SmoothMapCells], [FillMapHoles] and the functions built on
      them give what the code computes when [realloc], [malloc] and [calloc]
      succeed; the definitions named [..._or_exit] add the allocation
      requests and the [exit(EXIT_FAILURE)] that follows a refused one.
      PNG decoding and encoding are inputs of [main] (see [Env]).

    The other tools of [src/data] are embedded the same way, each in a
    module of its own: the tile generation of generate_test_floor_map.c
    ([FloorMap]), the copy loop of triangle_merge.c ([TriangleMerge]), the
    dithering of tile_dither.c ([TileDither]) and the rectangle drawing of
    generate_wall_tiles.c ([WallTiles]).  Images are arrays of bytes, two
    per pixel: the gray level and the alpha. *)

From Stdlib Require Import ZArith Lia List Bool.
From stdpp Require Import base tactics option list list_numbers.

Local Open Scope Z_scope.

(** ** Byte arrays *)

Definition arr_get (a : list Z) (i : Z) : Z :=
  if i <? 0 then 0 else default 0 (a !! Z.to_nat i).

Definition arr_set (a : list Z) (i v : Z) : list Z :=
  if i <? 0 then a else <[Z.to_nat i := v]> a.

(** [memcpy(dst, src, n)] on arrays. *)
Definition memcpy (dst src : list Z) (n : Z) : list Z :=
  take (Z.to_nat n) src ++ drop (Z.to_nat n) dst.

(** ** Constants of the source *)

Definition TILE_SIZE : Z := 8.
Definition TILE_IMAGE_WIDTH : Z := TILE_SIZE * 16.
Definition TILE_IMAGE_HEIGHT : Z := TILE_SIZE * 9.
Definition VARIATION_MASK : Z := 0x70.
Definition WALL_TILE_INDEX : Z := 0x80.

(** ** Stack of XY coordinates *)

Definition XY : Type := Z * Z.

(** [s] lists the used part of the C array from the top of the stack
    downwards, so that [size] is its length. *)
Record VisitStack := mkStack { s : list XY; capacity : Z }.

Definition stack_size (st : VisitStack) : Z := Z.of_nat (length (s st)).

Definition empty_stack : VisitStack := mkStack [] 0.

Definition Push (st : VisitStack) (x y : Z) : VisitStack :=
  let cap :=
    if stack_size st >=? capacity st
    then (if capacity st =? 0 then 16 else capacity st * 2)
    else capacity st in
  mkStack ((x, y) :: s st) cap.

Definition Pop (st : VisitStack) : option (XY * VisitStack) :=
  match s st with
  | [] => None
  | xy :: rest => Some (xy, mkStack rest (capacity st))
  end.

(** ** Allocation failure *)

(** [Push], [SmoothMapCells] and [FillMapHoles] call [exit(EXIT_FAILURE)]
    when [realloc], [malloc] or [calloc] returns NULL.  The definitions
    above and their namesakes below give what the functions compute when
    every request is granted; the definitions named [..._or_exit] add the
    requests.  The requests of a run are numbered in the order in which they
    are made, [alloc k] tells whether request [k] is granted, and a run
    carries the number of requests made so far. *)
Inductive Run (A : Type) : Type :=
| Returned (a : A) (n : nat)   (* the function returned; [n] requests so far *)
| OutOfMemory                  (* exit(EXIT_FAILURE) after a NULL *)
| OutOfFuel.                   (* the iteration bound of the model was reached *)

Arguments Returned {A} a n.
Arguments OutOfMemory {A}.
Arguments OutOfFuel {A}.

Definition run_bind {A B : Type} (r : Run A) (f : A -> nat -> Run B) : Run B :=
  match r with
  | Returned a n => f a n
  | OutOfMemory => OutOfMemory
  | OutOfFuel => OutOfFuel
  end.

(** A request followed by the test for NULL. *)
Definition alloc_or_exit (alloc : nat -> bool) (n : nat) : Run unit :=
  if alloc n then Returned tt (S n) else OutOfMemory.

(** [Push]: [realloc] is called when the stack is full. *)
Definition Push_or_exit (alloc : nat -> bool) (st : VisitStack) (x y : Z) (n : nat)
  : Run VisitStack :=
  if stack_size st >=? capacity st
  then run_bind (alloc_or_exit alloc n) (fun _ n' => Returned (Push st x y) n')
  else Returned (Push st x y) n.

(** The run [r], started after [n] requests, of a function that computes
    [a]: it exits when a request it makes is refused, and returns [a] when
    the requests it makes are all granted. *)
Definition runs_to {A : Type} (alloc : nat -> bool) (n : nat) (r : Run A) (a : A) : Prop :=
  (r = OutOfMemory /\ exists k, (n <= k)%nat /\ alloc k = false) \/
  (exists n', r = Returned a n' /\ (n <= n')%nat /\
              forall k, (n <= k < n')%nat -> alloc k = true).

(** ** WriteTile *)

(** [WriteTile] is the same function in generate_test_wall_map.c and in
    generate_test_floor_map.c, up to the constants [TILE_SIZE],
    [TILE_IMAGE_WIDTH] and [IMAGE_WIDTH], which are parameters here.
    [tile_pixels] and [output_pixels] are arrays of bytes, two per pixel:
    the gray level and the alpha. *)
Section TileWriter.

Variables tile_size tile_image_width image_width : Z.
Variable tile_pixels : list Z.

(** The body of the loop over [v]: the state is the output, the offset of
    [p] in [tile_pixels] and the offset of [q] in the output. *)
Definition write_pixel (st : list Z * Z * Z) (v : Z) : list Z * Z * Z :=
  let '(out, p, q) := st in
  ((if negb (arr_get tile_pixels (p + 1) =? 0)
    then arr_set (arr_set out q (arr_get tile_pixels p))
                 (q + 1) (arr_get tile_pixels (p + 1))
    else out),
   p + 2, q + 2).

(** The body of the loop over [u]. *)
Definition write_row (tx ty x y : Z) (out : list Z) (u : Z) : list Z :=
  let p := ((ty + u) * tile_image_width + tx) * 2 in
  let q := ((y + u) * image_width + x) * 2 in
  fst (fst (fold_left write_pixel (seqZ 0 tile_size) (out, p, q))).

Definition WriteTile (output_pixels : list Z) (tile_index x y : Z) : list Z :=
  let ty := Z.shiftr tile_index 4 * tile_size in
  let tx := Z.land tile_index 15 * tile_size in
  fold_left (write_row tx ty x y) (seqZ 0 tile_size) output_pixels.

(** The offset in [tile_pixels] of the pixel (v, u) of a tile. *)
Definition tile_offset (tile_index u v : Z) : Z :=
  ((Z.shiftr tile_index 4 * tile_size + u) * tile_image_width
   + Z.land tile_index 15 * tile_size + v) * 2.

(** The offset in the output of the pixel (px, py). *)
Definition pixel_offset (px py : Z) : Z := (py * image_width + px) * 2.

(** The byte of channel [c] that the pixel (v, u) of a tile leaves on a
    pixel holding [old]: transparent pixels are skipped. *)
Definition blend (tile_index u v c old : Z) : Z :=
  if negb (arr_get tile_pixels (tile_offset tile_index u v + 1) =? 0)
  then arr_get tile_pixels (tile_offset tile_index u v + c)
  else old.

End TileWriter.

(** ** The environment of [main] *)

(** A call [WriteTile(tile_index, x, y)]. *)
Definition TileCall : Type := Z * Z * Z.

(** What [main] receives from its command line and from libpng. *)
Record Env := mkEnv {
  argc : Z;
  output_is_dash : bool;                 (* strcmp(argv[2], "-") == 0 *)
  stdout_isatty : bool;                  (* isatty(STDOUT_FILENO) *)
  tiles_begin_read : option (Z * Z);     (* width, height; None on failure *)
  tiles_finish_read : bool;
  image_write : bool                     (* png_image_write_to_* succeeded *)
}.

Inductive Exit :=
| ExitUsage | ExitTty | ExitReadError | ExitTileSize | ExitLoadError
| ExitWriteError | ExitSuccess.

(** The generation state of the program: the cell grid, the tiles written
    and the number of random draws consumed. *)
Record World := mkWorld {
  map_data : list Z;
  tile_calls : list TileCall;
  rand_count : nat
}.

(** What the [printf] calls whose result [main] returns depend on: the
    lengths of [argv[0]] and [argv[1]], and whether writing to the standard
    output works. *)
Record Console := mkConsole {
  argv0_length : Z;
  argv1_length : Z;
  printf_works : bool
}.

(** [printf] returns the number of characters written, or a negative value
    when the output fails; -1 stands for the negative value. *)
Definition printf_returns (con : Console) (characters : Z) : Z :=
  if printf_works con then characters else -1.

Definition EXIT_FAILURE : Z := 1.

(** The exit status of the process: the low eight bits of what [main]
    returns, or the argument of [exit]. *)
Definition exit_status (r : Run Z) : option Z :=
  match r with
  | Returned v _ => Some (v mod 256)
  | OutOfMemory => Some EXIT_FAILURE
  | OutOfFuel => None
  end.

(** ** Fixture grids for the concrete scenarios *)

(** 160 x 160 cells, all wall. *)
Definition all_wall_160 : list Z := replicate (Z.to_nat 25600) 1.

(** All wall except the two neighbouring cells (10, 10) and (11, 10). *)
Definition pocket_160 : list Z :=
  <[1610%nat := 0]> (<[1611%nat := 0]> all_wall_160).

(** 5 x 5 cells, all wall. *)
Definition all_wall_5 : list Z := replicate 25 1.

(** 5 x 5 cells, wall on the border and open in the 3 x 3 centre. *)
Definition centre_open_5 : list Z :=
  [1;1;1;1;1; 1;0;0;0;1; 1;0;0;0;1; 1;0;0;0;1; 1;1;1;1;1].

(** 7 x 5 cells: a corridor wide enough for the brush. *)
Definition corridor_7x5 : list Z :=
  [1;1;1;1;1;1;1; 1;0;0;0;0;0;1; 1;0;0;0;0;0;1; 1;0;0;0;0;0;1; 1;1;1;1;1;1;1].

(** 7 x 7 cells, all wall except a notch at (5, 3), next to the carved
    centre block. *)
Definition notch_7 : list Z := <[26%nat := 0]> (replicate 49 1).

(** 5 x 5 cells, all wall except (2, 2), its left neighbour (1, 2) and its
    upper neighbour (2, 1). *)
Definition corner_5 : list Z :=
  [1;1;1;1;1; 1;1;0;1;1; 1;0;0;1;1; 1;1;1;1;1; 1;1;1;1;1].

(** A command line and a tile image that [main] accepts. *)
Definition valid_env : Env := mkEnv 3 false false (Some (128, 72)) true true.

(** A console whose program name has 219 characters, and requests that are
    all granted, all refused, or granted except for request number 2. *)
Definition long_name_console : Console := mkConsole 219 9 true.
Definition plenty (k : nat) : bool := true.
Definition nothing (k : nat) : bool := false.
Definition two_blocks (k : nat) : bool := (k <? 2)%nat.

(** A command line without arguments. *)
Definition usage_env : Env := mkEnv 1 false false None false false.

(** A stand-in for the wall test and a sequence of draws. *)
Definition sample_wall_draw (r : Z) : bool := r <? 45.
Definition sample_draws (n : nat) : Z := (Z.of_nat n * 37) mod 100.

(** 3 x 3 cells: one empty cell inside a ring of walls. *)
Definition ring_3 : list Z := [1; 1; 1; 1; 0; 1; 1; 1; 1].

(** A tile table as [calloc] leaves it, and one with every pixel opaque
    white; a white output image of 3 x 3 cells. *)
Definition blank_table : list Z := replicate (Z.to_nat (128 * 72 * 2)) 0.
Definition white_table : list Z := replicate (Z.to_nat (128 * 72 * 2)) 255.
Definition white_image_3 : list Z := replicate (Z.to_nat (24 * 24 * 2)) 255.

(** A table of 16 tiles of 2 x 2 pixels, all opaque white, and a black
    image of 4 x 4 pixels. *)
Definition table_2 : list Z := replicate 128 255.
Definition black_4x4 : list Z := replicate 32 0.

(** An image of 2 x 2 pixels, and an image of 4 x 2 pixels whose right half
    holds the same pixels. *)
Definition gray_2x2 : list Z := [10; 255; 200; 255; 130; 0; 90; 255].
Definition gray_4x2 : list Z :=
  [0; 0; 77; 255; 10; 255; 200; 255; 1; 2; 3; 4; 130; 0; 90; 255].

(** Error rows for tiles of 2 x 2 pixels: cleared, and left over from an
    earlier tile. *)
Definition zero_rows_2 : list Z * list Z := (replicate 4 0, replicate 4 0).
Definition stale_rows_2 : list Z * list Z := ([5; -3; 7; 1], [9; 9; 9; 9]).

(** Two images of 2 x 2 pixels: white and opaque, black and transparent. *)
Definition white_2x2 : list Z := replicate 8 255.
Definition black_2x2 : list Z := replicate 8 0.

(** ** The floor map generator (generate_test_floor_map.c) *)

Module FloorMap.

(** Tile size in pixels. *)
Definition TILE_SIZE : Z := 64.
Definition TILE_IMAGE_WIDTH : Z := TILE_SIZE * 16.
Definition TILE_IMAGE_HEIGHT : Z := TILE_SIZE * 16.

(** [previous_row], the calls of [WriteTile] made so far, in order, and the
    number of draws consumed. *)
Record MapState := mkMap {
  previous_row : list Z;
  calls : list TileCall;
  draws : nat
}.

Section Map.

(** Output map size in tiles (16 and 9 in the source). *)
Variables MAP_WIDTH MAP_HEIGHT : Z.
Variable rs : nat -> Z.

(** The first loop: a random invisible row. *)
Definition random_row (st : MapState) : MapState :=
  fold_left
    (fun st x =>
       mkMap (arr_set (previous_row st) x (Z.land (rs (draws st)) 0xff))
             (calls st) (S (draws st)))
    (seqZ 0 MAP_WIDTH) st.

(** The index of a new tile, from the tile to its left, the tile above it
    and a draw. *)
Definition tile_cell (previous_cell above r : Z) : Z :=
  Z.lor (Z.lor (Z.shiftl (Z.land previous_cell 2) 6)
               (Z.shiftl (Z.land above 1) 6))
        (Z.land r 0x3f).

(** The body of the loop over [x]; the state carries [previous_cell]. *)
Definition cell_step (y : Z) (st : MapState * Z) (x : Z) : MapState * Z :=
  let cell :=
    tile_cell (snd st) (arr_get (previous_row (fst st)) x) (rs (draws (fst st))) in
  (mkMap (arr_set (previous_row (fst st)) x cell)
         (calls (fst st) ++ [(cell, x * TILE_SIZE, y * TILE_SIZE)])
         (S (draws (fst st))),
   cell).

(** The body of the loop over [y]. *)
Definition row_step (st : MapState) (y : Z) : MapState :=
  let previous_cell := Z.land (rs (draws st)) 0xff in
  fst (fold_left (cell_step y) (seqZ 0 MAP_WIDTH)
         (mkMap (previous_row st) (calls st) (S (draws st)), previous_cell)).

Definition GenerateMap (st : MapState) : MapState :=
  fold_left row_step (seqZ 0 MAP_HEIGHT) (random_row st).

(** The tile written for the cell (x, y), read off the calls. *)
Definition tile_at (cs : list TileCall) (x y : Z) : Z :=
  match cs !! Z.to_nat (y * MAP_WIDTH + x) with
  | Some c => fst (fst c)
  | None => 0
  end.

(** The draw taken at the start of row [y], and the draw taken for the
    cell (x, y), when [n0] draws were consumed before [GenerateMap]. *)
Definition row_draw (n0 : nat) (y : Z) : nat :=
  (n0 + Z.to_nat (MAP_WIDTH + y * (MAP_WIDTH + 1)))%nat.
Definition cell_draw (n0 : nat) (x y : Z) : nat :=
  (n0 + Z.to_nat (MAP_WIDTH + y * (MAP_WIDTH + 1) + 1 + x))%nat.

(** The tile to the left of the cell (x, y) and the tile above it; in the
    first column and in the first row these are the invisible tiles. *)
Definition left_of (n0 : nat) (cs : list TileCall) (x y : Z) : Z :=
  if x =? 0 then Z.land (rs (row_draw n0 y)) 0xff else tile_at cs (x - 1) y.
Definition above_of (n0 : nat) (cs : list TileCall) (x y : Z) : Z :=
  if y =? 0 then Z.land (rs (n0 + Z.to_nat x)) 0xff else tile_at cs x (y - 1).

End Map.

End FloorMap.

(** ** The triangle merge (triangle_merge.c) *)

Module TriangleMerge.

Section Merge.

(** [tile_size] and the width and height of the two images. *)
Variables tile_size width height : Z.

(** The body of the loop over [x]: [i] is [y % tile_size], the state is the
    pixels of the first image and the offsets of [r] and [w]. *)
Definition merge_pixel (i : Z) (src : list Z) (st : list Z * Z * Z) (x : Z)
  : list Z * Z * Z :=
  let '(dst, r, w) := st in
  ((if tile_size <=? i + Z.rem x tile_size
    then arr_set (arr_set dst w (arr_get src r)) (w + 1) (arr_get src (r + 1))
    else dst),
   r + 2, w + 2).

(** The body of the loop over [y]. *)
Definition merge_row (src : list Z) (st : list Z * Z * Z) (y : Z) : list Z * Z * Z :=
  fold_left (merge_pixel (Z.rem y tile_size) src) (seqZ 0 width) st.

(** The copy loop of [main]: [dst] is [pixels[0]] and [src] is [pixels[1]]. *)
Definition merge (src dst : list Z) : list Z :=
  fst (fst (fold_left (merge_row src) (seqZ 0 height) (dst, 0, 0))).

End Merge.

End TriangleMerge.

(** ** The tile dither (tile_dither.c) *)

(** The levels and the errors of [DitherTile] are C [int]s, modelled in
    [Z].  A level written to the image is 0 or 255, whatever the error
    was, so the store to a byte never truncates. *)
Module TileDither.

(** [memset(a, 0, n * sizeof(int))] on an array of [int]. *)
Definition memset_zero (a : list Z) (n : Z) : list Z :=
  replicate (Z.to_nat n `min` length a) 0 ++ drop (Z.to_nat n) a.

(** [row_error] is a pair of arrays; [row re k] is [row_error[k]]. *)
Definition row (re : list Z * list Z) (k : Z) : list Z :=
  if k =? 0 then fst re else snd re.

Definition set_row (re : list Z * list Z) (k : Z) (a : list Z) : list Z * list Z :=
  if k =? 0 then (a, snd re) else (fst re, a).

(** [row_error[k][i] += v] *)
Definition add_at (re : list Z * list Z) (k i v : Z) : list Z * list Z :=
  set_row re k (arr_set (row re k) i (arr_get (row re k) i + v)).

Section Dither.

Variables tile_size image_width : Z.

(** The intended gray level of a pixel and the level written for it. *)
Definition intended (level error : Z) : Z := level + error ÷ 16.
Definition output (i : Z) : Z := if 127 <? i then 255 else 0.

(** The body of the loop over [tx]: the state is the image, [row_error] and
    the offset of [p]. *)
Definition dither_pixel (y0 y1 : Z) (st : list Z * (list Z * list Z) * Z) (tx : Z)
  : list Z * (list Z * list Z) * Z :=
  let '(pixels, re, p) := st in
  let i := intended (arr_get pixels p) (arr_get (row re y0) (tx + 1)) in
  let o := output i in
  let e := i - o in
  let re := add_at re y0 (tx + 2) (e * 7) in
  let re := add_at re y1 tx (e * 3) in
  let re := add_at re y1 (tx + 1) (e * 5) in
  let re := add_at re y1 (tx + 2) e in
  (arr_set pixels p o, re, p + 2).

(** The body of the loop over [ty]: the state is the image, [row_error],
    [y0] and [y1]; [base] is the offset of the argument [pixels]. *)
Definition dither_row (base : Z) (st : list Z * (list Z * list Z) * Z * Z) (ty : Z)
  : list Z * (list Z * list Z) * Z * Z :=
  let '(pixels, re, y0, y1) := st in
  let re := set_row re y1 (memset_zero (row re y1) (tile_size + 2)) in
  let p := base + ty * image_width * 2 in
  let st' := fold_left (dither_pixel y0 y1) (seqZ 0 tile_size) (pixels, re, p) in
  (fst (fst st'), snd (fst st'), Z.lxor y0 1, Z.lxor y1 1).

Definition DitherTile (re : list Z * list Z) (pixels : list Z) (base : Z)
  : list Z * (list Z * list Z) :=
  let re := set_row re 0 (memset_zero (row re 0) (tile_size + 2)) in
  let st' := fold_left (dither_row base) (seqZ 0 tile_size) (pixels, re, 0, 1) in
  (fst (fst (fst st')), snd (fst (fst st'))).

End Dither.

Section Image.

(** [tile_size] and the width and height of the image. *)
Variables tile_size width height : Z.

(** The number of iterations of [for(y = 0; y < n; y += tile_size)]. *)
Definition tile_count (n : Z) : Z := (n + tile_size - 1) / tile_size.

(** The two calls of [DitherTile] for the tile at (x, y). *)
Definition dither_tile_at (y : Z) (st : list Z * (list Z * list Z)) (x : Z)
  : list Z * (list Z * list Z) :=
  let st1 := DitherTile tile_size width (snd st) (fst st) ((y * width + x) * 2) in
  DitherTile tile_size width (snd st1) (fst st1) ((y * width + x) * 2 + 1).

(** The loops over the tiles: the loop variables are [ky * tile_size] and
    [kx * tile_size]. *)
Definition dither_tiles (st : list Z * (list Z * list Z)) : list Z * (list Z * list Z) :=
  fold_left
    (fun st ky =>
       fold_left (fun st kx => dither_tile_at (ky * tile_size) st (kx * tile_size))
         (seqZ 0 (tile_count width)) st)
    (seqZ 0 (tile_count height)) st.

(** The last loops: the state is the image and the offset of [p]. *)
Definition clear_pixel (st : list Z * Z) (x : Z) : list Z * Z :=
  ((if arr_get (fst st) (snd st + 1) =? 0 then arr_set (fst st) (snd st) 0 else fst st),
   snd st + 2).

Definition clear_transparent (pixels : list Z) : list Z :=
  fst (fold_left (fun st y => fold_left clear_pixel (seqZ 0 width) st)
         (seqZ 0 height) (pixels, 0)).

(** What [main] does to the pixels between reading and writing them. *)
Definition process (re : list Z * list Z) (pixels : list Z) : list Z :=
  clear_transparent (fst (dither_tiles (pixels, re))).

End Image.

(** The byte offsets of the channel [c] of the pixels of the tile at (x, y). *)
Definition in_tile (tile_size width x y c j : Z) : Prop :=
  exists tx ty, 0 <= tx < tile_size /\ 0 <= ty < tile_size /\
    j = ((y + ty) * width + (x + tx)) * 2 + c.

Definition black_or_white (v : Z) : Prop := v = 0 \/ v = 255.

End TileDither.

(** ** The wall tile table (generate_wall_tiles.c) *)

Module WallTiles.

(** Tile size in pixels, and the size of the tile table. *)
Definition TILE_SIZE : Z := 8.
Definition IMAGE_WIDTH : Z := TILE_SIZE * 16.
Definition IMAGE_HEIGHT : Z := TILE_SIZE * 9.

(** The body of the loop over [iy] of [Rect]: the inner loop carries the
    image and the offset of [p]. *)
Definition rect_row (x y w : Z) (pixels : list Z) (iy : Z) : list Z :=
  let p := ((y + iy) * IMAGE_WIDTH + x) * 2 + 1 in
  fst (fold_left (fun st ix => (arr_set (fst st) (snd st) 0xff, snd st + 2))
         (seqZ 0 w) (pixels, p)).

Definition Rect (pixels : list Z) (x y w h : Z) : list Z :=
  fold_left (rect_row x y w) (seqZ 0 h) pixels.

Definition AddSolidWallTile (pixels : list Z) : list Z :=
  Rect pixels 0 (IMAGE_HEIGHT - TILE_SIZE) TILE_SIZE TILE_SIZE.

(** The body of [for(x = y & 1; x < TILE_SIZE; x += 2)], at [x = (y & 1) + 2 * k]. *)
Definition dotted_pixel (y : Z) (pixels : list Z) (k : Z) : list Z :=
  let x := Z.land y 1 + 2 * k in
  if (x =? 0) || (y =? 0) || (x =? TILE_SIZE - 1) || (y =? TILE_SIZE - 1)
  then Rect pixels (TILE_SIZE * 2 + x) (IMAGE_HEIGHT - TILE_SIZE + y) 1 1
  else pixels.

Definition AddDebugTiles (pixels : list Z) : list Z :=
  let pixels := Rect pixels TILE_SIZE (IMAGE_HEIGHT - TILE_SIZE) TILE_SIZE 1 in
  let pixels := Rect pixels TILE_SIZE (IMAGE_HEIGHT - 1) TILE_SIZE 1 in
  let pixels := Rect pixels TILE_SIZE (IMAGE_HEIGHT - TILE_SIZE) 1 TILE_SIZE in
  let pixels := Rect pixels (TILE_SIZE * 2 - 1) (IMAGE_HEIGHT - TILE_SIZE) 1 TILE_SIZE in
  fold_left
    (fun pixels y =>
       fold_left (dotted_pixel y)
         (seqZ 0 ((TILE_SIZE - Z.land y 1 + 1) / 2)) pixels)
    (seqZ 0 TILE_SIZE) pixels.

(** A call [Rect(pixels, x, y, w, h)]. *)
Definition RectCall : Type := Z * Z * Z * Z.

Definition draw (pixels : list Z) (r : RectCall) : list Z :=
  Rect pixels (fst (fst (fst r))) (snd (fst (fst r))) (snd (fst r)) (snd r).

(** The calls made under a condition. *)
Definition on (c : bool) (rects : list RectCall) : list RectCall :=
  if c then rects else [].

(** [(v & mask) != 0] *)
Definition has (v mask : Z) : bool := negb (Z.land v mask =? 0).

(** The calls of [Rect] that the body of the loops of [AddWallAdjacentTiles]
    makes for the tile (tx, ty), in order. *)
Definition tile_rects (tx ty : Z) : list RectCall :=
  let x := tx * TILE_SIZE in
  let y := ty * TILE_SIZE in
  on (has tx 1)
     (if Z.land ty 1 =? 0
      then [(x + TILE_SIZE - 1, y + 1, 1, 2);
            (x + TILE_SIZE - 1, y + TILE_SIZE - 3, 1, 2)]
           ++ on (has ty 2) [(x + TILE_SIZE - 1, y, 1, 1)]
           ++ on (has ty 4) [(x + TILE_SIZE - 1, y + TILE_SIZE - 1, 1, 1)]
      else [(x + TILE_SIZE - 1, y, 1, TILE_SIZE);
            (x + TILE_SIZE - 2, y + 3, 1, TILE_SIZE - 6)]
           ++ on (has ty 2) [(x + TILE_SIZE - 2, y + 2, 1, 1)]
           ++ on (has ty 4) [(x + TILE_SIZE - 2, y + TILE_SIZE - 3, 1, 1)])
  ++ on (has tx 2)
     (if Z.land ty 1 =? 0
      then [(x + 1, y + TILE_SIZE - 1, 2, 1);
            (x + TILE_SIZE - 3, y + TILE_SIZE - 1, 2, 1)]
           ++ on (has ty 2) [(x + TILE_SIZE - 1, y + TILE_SIZE - 1, 1, 1)]
           ++ on (has ty 4) [(x, y + TILE_SIZE - 1, 1, 1)]
      else [(x, y + TILE_SIZE - 1, TILE_SIZE, 1);
            (x + 3, y + TILE_SIZE - 2, TILE_SIZE - 6, 1)]
           ++ on (has ty 2) [(x + TILE_SIZE - 3, y + TILE_SIZE - 2, 1, 1)]
           ++ on (has ty 4) [(x + 2, y + TILE_SIZE - 2, 1, 1)])
  ++ on (has tx 4)
     (if Z.land ty 1 =? 0
      then [(x, y + 1, 1, 2);
            (x, y + TILE_SIZE - 3, 1, 2)]
           ++ on (has ty 2) [(x, y + TILE_SIZE - 1, 1, 1)]
           ++ on (has ty 4) [(x, y, 1, 1)]
      else [(x, y, 1, TILE_SIZE);
            (x + 1, y + 3, 1, TILE_SIZE - 6)]
           ++ on (has ty 2) [(x + 1, y + TILE_SIZE - 3, 1, 1)]
           ++ on (has ty 4) [(x + 1, y + 2, 1, 1)])
  ++ on (has tx 8)
     (if Z.land ty 1 =? 0
      then [(x + 1, y, 2, 1);
            (x + TILE_SIZE - 3, y, 2, 1)]
           ++ on (has ty 2) [(x, y, 1, 1)]
           ++ on (has ty 4) [(x + TILE_SIZE - 1, y, 1, 1)]
      else [(x, y, TILE_SIZE, 1);
            (x + 3, y + 1, TILE_SIZE - 6, 1)]
           ++ on (has ty 2) [(x + 2, y + 1, 1, 1)]
           ++ on (has ty 4) [(x + TILE_SIZE - 3, y + 1, 1, 1)])
  ++ on (Z.land tx 3 =? 3)
     [(x + TILE_SIZE - 1, y + TILE_SIZE - 5, 1, 1);
      (x + TILE_SIZE - 2, y + TILE_SIZE - 4, 2, 1);
      (x + TILE_SIZE - 3, y + TILE_SIZE - 3, 3, 1);
      (x + TILE_SIZE - 4, y + TILE_SIZE - 2, 4, 1);
      (x + TILE_SIZE - 5, y + TILE_SIZE - 1, 5, 1)]
  ++ on (Z.land tx 6 =? 6)
     [(x, y + TILE_SIZE - 5, 1, 1);
      (x, y + TILE_SIZE - 4, 2, 1);
      (x, y + TILE_SIZE - 3, 3, 1);
      (x, y + TILE_SIZE - 2, 4, 1);
      (x, y + TILE_SIZE - 1, 5, 1)]
  ++ on (Z.land tx 12 =? 12)
     [(x, y + 4, 1, 1);
      (x, y + 3, 2, 1);
      (x, y + 2, 3, 1);
      (x, y + 1, 4, 1);
      (x, y, 5, 1)]
  ++ on (Z.land tx 9 =? 9)
     [(x + TILE_SIZE - 1, y + 4, 1, 1);
      (x + TILE_SIZE - 2, y + 3, 2, 1);
      (x + TILE_SIZE - 3, y + 2, 3, 1);
      (x + TILE_SIZE - 4, y + 1, 4, 1);
      (x + TILE_SIZE - 5, y, 5, 1)].

Definition AddWallAdjacentTiles (pixels : list Z) : list Z :=
  fold_left
    (fun pixels ty =>
       fold_left (fun pixels tx => fold_left draw (tile_rects tx ty) pixels)
         (seqZ 0 16) pixels)
    (seqZ 0 8) pixels.

(** The drawing steps of [main]. *)
Definition draw_tiles (pixels : list Z) : list Z :=
  AddDebugTiles (AddSolidWallTile (AddWallAdjacentTiles pixels)).

(** The offset of the byte of channel [c] of the pixel (px, py). *)
Definition offset (px py c : Z) : Z := (py * IMAGE_WIDTH + px) * 2 + c.

(** The rectangle of a call holds the pixel (px, py). *)
Definition covers (px py : Z) (r : RectCall) : bool :=
  (fst (fst (fst r)) <=? px) && (px <? fst (fst (fst r)) + snd (fst r)) &&
  (snd (fst (fst r)) <=? py) && (py <? snd (fst (fst r)) + snd r).

(** The rectangle of a call has sides that are not negative and lies inside
    the image. *)
Definition fits (r : RectCall) : bool :=
  (0 <=? fst (fst (fst r))) && (0 <=? snd (fst r)) &&
  (fst (fst (fst r)) + snd (fst r) <=? IMAGE_WIDTH) &&
  (0 <=? snd (fst (fst r))) && (0 <=? snd r) &&
  (snd (fst (fst r)) + snd r <=? IMAGE_HEIGHT).

(** The rectangle of a call lies inside the block of the tile (tx, ty). *)
Definition inside (tx ty : Z) (r : RectCall) : bool :=
  (tx * TILE_SIZE <=? fst (fst (fst r))) &&
  (fst (fst (fst r)) + snd (fst r) <=? tx * TILE_SIZE + TILE_SIZE) &&
  (ty * TILE_SIZE <=? snd (fst (fst r))) &&
  (snd (fst (fst r)) + snd r <=? ty * TILE_SIZE + TILE_SIZE).

(** A rectangle of the tile (tx, ty) holds the pixel (u, v) of that tile. *)
Definition covered (tx ty u v : Z) : bool :=
  existsb (covers (tx * TILE_SIZE + u) (ty * TILE_SIZE + v)) (tile_rects tx ty).

(** All the calls of [AddWallAdjacentTiles], in order. *)
Definition all_rects : list RectCall :=
  concat (map (fun ty => concat (map (fun tx => tile_rects tx ty) (seqZ 0 16)))
            (seqZ 0 8)).

(** A drawing step that sets alphas to 0xff and writes nothing else. *)
Definition paints (pixels pixels' : list Z) : Prop :=
  length pixels' = length pixels /\
  forall j, arr_get pixels' j = arr_get pixels j \/
            (arr_get pixels' j = 0xff /\ j mod 2 = 1).

End WallTiles.

Section WallMap.

(* A lemma depends on the section variables of its statement only. *)
Set Default Proof Using "Type*".

(** Output map size in tiles. *)
Variables MAP_WIDTH MAP_HEIGHT : Z.

(** The test [((float)rand() / (float)RAND_MAX) < 0.45] on a draw. *)
Variable wall_draw : Z -> bool.

(** The sequence of values returned by successive calls of [rand()]. *)
Variable rs : nat -> Z.

(** [map_data[y][x]] *)
Definition map_get (m : list Z) (x y : Z) : Z := arr_get m (y * MAP_WIDTH + x).
Definition map_set (m : list Z) (x y v : Z) : list Z :=
  arr_set m (y * MAP_WIDTH + x) v.

Definition MAP_DATA (m : list Z) (x y : Z) : Z :=
  if (x <? 0) || (x >=? MAP_WIDTH) || (y <? 0) || (y >=? MAP_HEIGHT)
  then 1 else map_get m x y.

(** [for(y = 0; y < MAP_HEIGHT; y++) for(x = 0; x < MAP_WIDTH; x++) body] *)
Definition for_cells {A : Type} (body : Z -> Z -> A -> A) (a : A) : A :=
  fold_left
    (fun a y => fold_left (fun a x => body x y a) (seqZ 0 MAP_WIDTH) a)
    (seqZ 0 MAP_HEIGHT) a.

(** *** GenerateRandomMapCells *)

(** The state is the grid and the number of draws consumed. *)
Definition GenerateRandomMapCells (st : list Z * nat) : list Z * nat :=
  for_cells
    (fun x y '(m, n) =>
       (map_set m x y (if wall_draw (rs n) then 1 else 0), S n))
    st.

(** *** SmoothMapCells *)

Definition neighbour_sum (m : list Z) (x y : Z) : Z :=
  MAP_DATA m (x - 1) (y - 1) + MAP_DATA m x (y - 1) + MAP_DATA m (x + 1) (y - 1) +
  MAP_DATA m (x - 1) y + MAP_DATA m x y + MAP_DATA m (x + 1) y +
  MAP_DATA m (x - 1) (y + 1) + MAP_DATA m x (y + 1) + MAP_DATA m (x + 1) (y + 1).

(** The body of the loop over [i]: the state of the inner loops is the
    buffer and the offset of [p] in it. *)
Definition smooth_fill (m buffer : list Z) : list Z * Z :=
  for_cells
    (fun x y '(buf, p) =>
       let count := neighbour_sum m x y in
       (arr_set buf p (if count <=? 4 then 0 else 1), p + 1))
    (buffer, 0).

Definition smooth_pass (m buffer : list Z) : list Z * list Z :=
  let buffer' := fst (smooth_fill m buffer) in
  (memcpy m buffer' (MAP_WIDTH * MAP_HEIGHT), buffer').

(** [malloc] leaves the buffer uninitialised; every byte of it is written
    before it is read, the model starts it at 0. *)
Definition SmoothMapCells (m : list Z) : list Z :=
  let buffer := replicate (Z.to_nat (MAP_WIDTH * MAP_HEIGHT)) 0 in
  fst (fold_left (fun '(m, buf) (_ : Z) => smooth_pass m buf) (seqZ 0 4) (m, buffer)).

(** *** FillMapHoles *)

Definition offsets : list XY :=
  [(1, 0); (0, 1); (-1, 0); (0, -1); (1, 1); (-1, 1); (-1, -1); (1, -1)].

Definition seed_x : Z := MAP_WIDTH ÷ 2.
Definition seed_y : Z := MAP_HEIGHT ÷ 2.

(** Carve out a 3x3 space at the center of the map. *)
Definition carve (m : list Z) : list Z :=
  let x := seed_x in
  let y := seed_y in
  let m := map_set m (x - 1) (y - 1) 0 in
  let m := map_set m x (y - 1) 0 in
  let m := map_set m (x + 1) (y - 1) 0 in
  let m := map_set m (x - 1) y 0 in
  let m := map_set m x y 0 in
  let m := map_set m (x + 1) y 0 in
  let m := map_set m (x - 1) (y + 1) 0 in
  let m := map_set m x (y + 1) 0 in
  let m := map_set m (x + 1) (y + 1) 0 in
  m.

Definition MARK_ACCESSIBLE_NEIGHBOR (acc : list Z) (x y : Z) : list Z :=
  if (x >=? 0) && (x <? MAP_WIDTH) && (y >=? 0) && (y <? MAP_HEIGHT)
  then arr_set acc (y * MAP_WIDTH + x) (Z.lor (arr_get acc (y * MAP_WIDTH + x)) 2)
  else acc.

Definition mark_neighbors (acc : list Z) (x y : Z) : list Z :=
  let acc := MARK_ACCESSIBLE_NEIGHBOR acc (x + 1) y in
  let acc := MARK_ACCESSIBLE_NEIGHBOR acc (x + 1) (y + 1) in
  let acc := MARK_ACCESSIBLE_NEIGHBOR acc x (y + 1) in
  let acc := MARK_ACCESSIBLE_NEIGHBOR acc (x - 1) (y + 1) in
  let acc := MARK_ACCESSIBLE_NEIGHBOR acc (x - 1) y in
  let acc := MARK_ACCESSIBLE_NEIGHBOR acc (x - 1) (y - 1) in
  let acc := MARK_ACCESSIBLE_NEIGHBOR acc x (y - 1) in
  let acc := MARK_ACCESSIBLE_NEIGHBOR acc (x + 1) (y - 1) in
  acc.

(** The condition under which the loop over [offsets] pushes (x, y): the
    cell is the centre of an empty 3x3 space. *)
Definition brush_open (m : list Z) (x y : Z) : bool :=
  (MAP_DATA m x y =? 0) &&
  (MAP_DATA m (x + 1) y =? 0) &&
  (MAP_DATA m (x + 1) (y + 1) =? 0) &&
  (MAP_DATA m x (y + 1) =? 0) &&
  (MAP_DATA m (x - 1) (y + 1) =? 0) &&
  (MAP_DATA m (x - 1) y =? 0) &&
  (MAP_DATA m (x - 1) (y - 1) =? 0) &&
  (MAP_DATA m x (y - 1) =? 0) &&
  (MAP_DATA m (x + 1) (y - 1) =? 0).

Definition push_open (m : list Z) (x y : Z) (st : VisitStack) (o : XY) : VisitStack :=
  if brush_open m (x + fst o) (y + snd o)
  then Push st (x + fst o) (y + snd o)
  else st.

Definition push_neighbors (m : list Z) (x y : Z) (st : VisitStack) : VisitStack :=
  fold_left (push_open m x y) offsets st.

Record FillState := mkFill { fill_stack : VisitStack; accessible_spots : list Z }.

(** One iteration of [while( fill_stack.size > 0 )]; the loop condition
    rules out the case of an empty stack. *)
Definition fill_step (m : list Z) (st : FillState) : FillState :=
  match Pop (fill_stack st) with
  | None => st
  | Some ((x, y), stack) =>
      let acc := accessible_spots st in
      if negb (Z.land (arr_get acc (y * MAP_WIDTH + x)) 1 =? 0)
      then mkFill stack acc
      else
        let acc := arr_set acc (y * MAP_WIDTH + x) 1 in
        let acc := mark_neighbors acc x y in
        mkFill (push_neighbors m x y stack) acc
  end.

(** The loop, bounded by a number of iterations; [None] when the bound is
    reached before the stack is empty. *)
Fixpoint fill_loop (fuel : nat) (m : list Z) (st : FillState) : option FillState :=
  if stack_size (fill_stack st) >? 0 then
    match fuel with
    | O => None
    | S fuel => fill_loop fuel m (fill_step m st)
    end
  else Some st.

Definition fill_fuel : nat := Z.to_nat (8 * (MAP_WIDTH * MAP_HEIGHT) + 1).

Definition fill_init : FillState :=
  mkFill (Push empty_stack seed_x seed_y)
         (replicate (Z.to_nat (MAP_WIDTH * MAP_HEIGHT)) 0).

(** The flood fill from the carved grid: the accessibility map it leaves. *)
Definition flood_fill (m : list Z) : option (list Z) :=
  accessible_spots <$> fill_loop fill_fuel m fill_init.

Definition orthogonal_sum (m : list Z) (x y : Z) : Z :=
  MAP_DATA m (x + 1) y + MAP_DATA m x (y + 1) + MAP_DATA m (x - 1) y + MAP_DATA m x (y - 1).

(** Mark inaccessible spots that have exactly one orthogonal empty
    neighbor.  The state is the accessibility map and the offset of [p]. *)
Definition mark_holes (m acc : list Z) : list Z :=
  fst (for_cells
         (fun x y '(acc, p) =>
            ((if (map_get m x y =? 0) && (arr_get acc p =? 0) &&
                 (orthogonal_sum m x y =? 3)
              then arr_set acc p 1 else acc), p + 1))
         (acc, 0)).

(** Fill all empty spots that are not accessible.  The state is the grid
    and the offset of [p] in the accessibility map. *)
Definition fill_inaccessible (m acc : list Z) : list Z :=
  fst (for_cells
         (fun x y '(m, p) =>
            ((if (map_get m x y =? 0) && (arr_get acc p =? 0)
              then map_set m x y 1 else m), p + 1))
         (m, 0)).

(** The accessibility map as the last loop of [FillMapHoles] reads it. *)
Definition accessible_at_seal (m : list Z) : option (list Z) :=
  mark_holes (carve m) <$> flood_fill (carve m).

Definition FillMapHoles (m : list Z) : option (list Z) :=
  fill_inaccessible (carve m) <$> accessible_at_seal m.

(** *** GenerateMapCells *)

Definition GenerateMapCells (st : list Z * nat) : option (list Z * nat) :=
  let '(m, n) := GenerateRandomMapCells st in
  (fun m' => (m', n)) <$> FillMapHoles (SmoothMapCells m).

(** *** GenerateMapPixels *)

Definition adjacency (m : list Z) (x y : Z) : Z :=
  Z.lor (Z.lor (Z.lor (Z.shiftl (MAP_DATA m (x + 1) y) 0)
                      (Z.shiftl (MAP_DATA m x (y + 1)) 1))
               (Z.shiftl (MAP_DATA m (x - 1) y) 2))
        (Z.shiftl (MAP_DATA m x (y - 1)) 3).

(** The index computed for an empty cell from the draw [r]. *)
Definition open_tile_index (m : list Z) (x y r : Z) : Z :=
  Z.lor (adjacency m x y) (Z.land r VARIATION_MASK).

(** The state is the list of [WriteTile] calls made so far, in order, and
    the number of draws consumed.  The pixel copy that [WriteTile] performs
    is in [GenerateMapPixels_image] below. *)
Definition GenerateMapPixels (m : list Z) (st : list TileCall * nat)
  : list TileCall * nat :=
  for_cells
    (fun x y '(calls, n) =>
       if negb (map_get m x y =? 0)
       then (calls ++ [(WALL_TILE_INDEX, x * TILE_SIZE, y * TILE_SIZE)], n)
       else (calls ++ [(open_tile_index m x y (rs n), x * TILE_SIZE, y * TILE_SIZE)],
             S n))
    st.

(** *** main *)

(** Static storage is zero-initialised. *)
Definition initial_world : World :=
  mkWorld (replicate (Z.to_nat (MAP_WIDTH * MAP_HEIGHT)) 0) [] 0.

(** [None] only when the flood fill exhausts its iteration bound. *)
Definition main (env : Env) : option (Exit * World) :=
  if negb (argc env =? 3) then Some (ExitUsage, initial_world)
  else if output_is_dash env && stdout_isatty env then Some (ExitTty, initial_world)
  else
    match tiles_begin_read env with
    | None => Some (ExitReadError, initial_world)
    | Some (w, h) =>
        if negb (w =? TILE_IMAGE_WIDTH) || negb (h =? TILE_IMAGE_HEIGHT)
        then Some (ExitTileSize, initial_world)
        else if negb (tiles_finish_read env) then Some (ExitLoadError, initial_world)
        else
          match GenerateMapCells (map_data initial_world, rand_count initial_world) with
          | None => None
          | Some (m, n) =>
              let '(calls, n') := GenerateMapPixels m ([], n) in
              let w := mkWorld m calls n' in
              if image_write env then Some (ExitSuccess, w)
              else Some (ExitWriteError, w)
          end
    end.

(** *** The functions with their allocation requests *)

Definition push_open_or_exit (alloc : nat -> bool) (m : list Z) (x y : Z)
    (r : Run VisitStack) (o : XY) : Run VisitStack :=
  run_bind r
    (fun st n =>
       if brush_open m (x + fst o) (y + snd o)
       then Push_or_exit alloc st (x + fst o) (y + snd o) n
       else Returned st n).

Definition push_neighbors_or_exit (alloc : nat -> bool) (m : list Z) (x y : Z)
    (st : VisitStack) (n : nat) : Run VisitStack :=
  fold_left (push_open_or_exit alloc m x y) offsets (Returned st n).

Definition fill_step_or_exit (alloc : nat -> bool) (m : list Z) (st : FillState)
    (n : nat) : Run FillState :=
  match Pop (fill_stack st) with
  | None => Returned st n
  | Some ((x, y), stack) =>
      let acc := accessible_spots st in
      if negb (Z.land (arr_get acc (y * MAP_WIDTH + x)) 1 =? 0)
      then Returned (mkFill stack acc) n
      else
        let acc := arr_set acc (y * MAP_WIDTH + x) 1 in
        let acc := mark_neighbors acc x y in
        run_bind (push_neighbors_or_exit alloc m x y stack n)
          (fun stack' n' => Returned (mkFill stack' acc) n')
  end.

Fixpoint fill_loop_or_exit (alloc : nat -> bool) (fuel : nat) (m : list Z)
    (st : FillState) (n : nat) : Run FillState :=
  if stack_size (fill_stack st) >? 0 then
    match fuel with
    | O => OutOfFuel
    | S fuel =>
        run_bind (fill_step_or_exit alloc m st n) (fill_loop_or_exit alloc fuel m)
    end
  else Returned st n.

(** [SmoothMapCells]: the [malloc] of the buffer comes first. *)
Definition SmoothMapCells_or_exit (alloc : nat -> bool) (m : list Z) (n : nat)
  : Run (list Z) :=
  run_bind (alloc_or_exit alloc n) (fun _ n' => Returned (SmoothMapCells m) n').

(** [FillMapHoles]: the carving, the first [Push], the [calloc] of
    [accessible_spots], the flood fill and the two passes. *)
Definition FillMapHoles_or_exit (alloc : nat -> bool) (m : list Z) (n : nat)
  : Run (list Z) :=
  let m := carve m in
  run_bind (Push_or_exit alloc empty_stack seed_x seed_y n)
    (fun stack n1 =>
       run_bind (alloc_or_exit alloc n1)
         (fun _ n2 =>
            run_bind
              (fill_loop_or_exit alloc fill_fuel m
                 (mkFill stack (replicate (Z.to_nat (MAP_WIDTH * MAP_HEIGHT)) 0)) n2)
              (fun st n3 =>
                 Returned (fill_inaccessible m (mark_holes m (accessible_spots st))) n3))).

Definition GenerateMapCells_or_exit (alloc : nat -> bool) (st : list Z * nat) (n : nat)
  : Run (list Z * nat) :=
  let '(m, d) := GenerateRandomMapCells st in
  run_bind (SmoothMapCells_or_exit alloc m n)
    (fun m1 n1 =>
       run_bind (FillMapHoles_or_exit alloc m1 n1) (fun m2 n2 => Returned (m2, d) n2)).

(** What [main] returns, as the [int] it is: the result of [printf] on the
    usage, read error and load error paths, 1 on the others that fail and 0
    at the end.  The three messages have 37, 15 and 15 characters besides
    the string they print. *)
Definition main_returns (alloc : nat -> bool) (con : Console) (env : Env) : Run Z :=
  if negb (argc env =? 3)
  then Returned (printf_returns con (argv0_length con + 37)) 0
  else if output_is_dash env && stdout_isatty env then Returned 1 0
  else
    match tiles_begin_read env with
    | None => Returned (printf_returns con (15 + argv1_length con)) 0
    | Some (w, h) =>
        if negb (w =? TILE_IMAGE_WIDTH) || negb (h =? TILE_IMAGE_HEIGHT)
        then Returned 1 0
        else if negb (tiles_finish_read env)
        then Returned (printf_returns con (15 + argv1_length con)) 0
        else
          run_bind
            (GenerateMapCells_or_exit alloc
               (map_data initial_world, rand_count initial_world) 0)
            (fun _ n => if image_write env then Returned 0 n else Returned 1 n)
    end.

(** *** GenerateMapPixels with the pixels *)

Definition IMAGE_WIDTH : Z := MAP_WIDTH * TILE_SIZE.
Definition IMAGE_HEIGHT : Z := MAP_HEIGHT * TILE_SIZE.

(** [GenerateMapPixels] with [WriteTile] writing to [output_pixels]: the
    state is the output and the number of draws consumed. *)
Definition GenerateMapPixels_image (m tile_pixels : list Z) (st : list Z * nat)
  : list Z * nat :=
  for_cells
    (fun x y '(out, n) =>
       if negb (map_get m x y =? 0)
       then (WriteTile TILE_SIZE TILE_IMAGE_WIDTH IMAGE_WIDTH tile_pixels out
               WALL_TILE_INDEX (x * TILE_SIZE) (y * TILE_SIZE), n)
       else (WriteTile TILE_SIZE TILE_IMAGE_WIDTH IMAGE_WIDTH tile_pixels out
               (open_tile_index m x y (rs n)) (x * TILE_SIZE) (y * TILE_SIZE),
             S n))
    st.

(** The calls of [WriteTile] of a list, in order. *)
Definition draw_calls (tile_pixels : list Z) (calls : list TileCall) (out : list Z)
  : list Z :=
  fold_left
    (fun out c =>
       WriteTile TILE_SIZE TILE_IMAGE_WIDTH IMAGE_WIDTH tile_pixels out
         (fst (fst c)) (snd (fst c)) (snd c))
    calls out.

(** ** Vocabulary of the specification *)

Definition in_bounds (x y : Z) : Prop :=
  0 <= x < MAP_WIDTH /\ 0 <= y < MAP_HEIGHT.

(** Cells at least one cell away from every edge of the map. *)
Definition interior (x y : Z) : Prop :=
  1 <= x <= MAP_WIDTH - 2 /\ 1 <= y <= MAP_HEIGHT - 2.

(** (x, y) lies in the 3x3 block centred at (cx, cy). *)
Definition near (cx cy x y : Z) : Prop :=
  cx - 1 <= x <= cx + 1 /\ cy - 1 <= y <= cy + 1.

(** Every cell of the grid holds 0 or 1. *)
Definition binary (m : list Z) : bool :=
  forallb (fun v => (v =? 0) || (v =? 1)) m.

Definition is_wall (m : list Z) (x y : Z) : bool := negb (MAP_DATA m x y =? 0).

(** The 3x3 Moore neighbourhood of (x, y), the cell itself included. *)
Definition moore (x y : Z) : list XY :=
  [(x - 1, y - 1); (x, y - 1); (x + 1, y - 1);
   (x - 1, y); (x, y); (x + 1, y);
   (x - 1, y + 1); (x, y + 1); (x + 1, y + 1)].

Definition orthogonal (x y : Z) : list XY :=
  [(x + 1, y); (x, y + 1); (x - 1, y); (x, y - 1)].

Fixpoint count_cells (p : XY -> bool) (cells : list XY) : Z :=
  match cells with
  | [] => 0
  | c :: rest => (if p c then 1 else 0) + count_cells p rest
  end.

(** Number of wall cells in the Moore neighbourhood, positions outside the
    map counting as wall. *)
Definition wall_count (m : list Z) (x y : Z) : Z :=
  count_cells (fun c => is_wall m (fst c) (snd c)) (moore x y).

(** Number of open cells among the four orthogonal neighbours. *)
Definition open_orthogonal_count (m : list Z) (x y : Z) : Z :=
  count_cells (fun c => negb (is_wall m (fst c) (snd c))) (orthogonal x y).

(** The entry of the accessibility map for cell (x, y). *)
Definition acc_at (acc : list Z) (x y : Z) : Z := arr_get acc (y * MAP_WIDTH + x).

(** The bit of value 1 of the entry (the source's "current cell is
    accessible"): the cell was marked by the flood fill.  The bit of value
    2 is "neighboring cell is accessible". *)
Definition visited (acc : list Z) (x y : Z) : bool :=
  negb (Z.land (acc_at acc x y) 1 =? 0).

(** Cells the thick brush can reach: the seed, and every centre of an
    empty 3x3 space that is one of the eight neighbours of a reached cell. *)
Inductive reach (m : list Z) : Z -> Z -> Prop :=
| reach_seed : reach m seed_x seed_y
| reach_step x y o :
    reach m x y -> In o offsets ->
    brush_open m (x + fst o) (y + snd o) = true ->
    reach m (x + fst o) (y + snd o).

(** (x, y) and (x', y') are joined by a chain of cells, each the centre of
    an empty 3x3 space and each one of the eight neighbours of the one
    before. *)
Inductive linked (m : list Z) : Z -> Z -> Z -> Z -> Prop :=
| linked_refl x y : brush_open m x y = true -> linked m x y x y
| linked_step x y x' y' o :
    linked m x y x' y' -> In o offsets ->
    brush_open m (x' + fst o) (y' + snd o) = true ->
    linked m x y (x' + fst o) (y' + snd o).

(** The neighbours in the order of the MARK_ACCESSIBLE_NEIGHBOR calls. *)
Definition mark_offsets : list XY :=
  [(1, 0); (1, 1); (0, 1); (-1, 1); (-1, 0); (-1, -1); (0, -1); (1, -1)].

Fixpoint unvisited_count (acc : list Z) : nat :=
  match acc with
  | [] => O
  | v :: rest => ((if (Z.land v 1 =? 0)%Z then 1 else 0) + unvisited_count rest)%nat
  end.

(** Decreases with every iteration of the flood fill loop. *)
Definition fill_measure (st : FillState) : nat :=
  (8 * unvisited_count (accessible_spots st) + length (s (fill_stack st)))%nat.

(** The state of the flood fill after [k] iterations of the loop. *)
Definition fill_after (m : list Z) (k : nat) : FillState :=
  Nat.iter k (fill_step m) fill_init.

(** The adjacency bits of the specification: right neighbour as bit 0,
    down as bit 1, left as bit 2, up as bit 3. *)
Definition adjacency_bits (m : list Z) (x y : Z) : Z :=
  Z.b2z (is_wall m (x + 1) y) + 2 * Z.b2z (is_wall m x (y + 1)) +
  4 * Z.b2z (is_wall m (x - 1) y) + 8 * Z.b2z (is_wall m x (y - 1)).

(** (x, y) is covered by the brush: it lies in the 3x3 block of a cell the
    flood fill reaches on the carved grid. *)
Definition in_main (m : list Z) (x y : Z) : Prop :=
  exists cx cy, reach (carve m) cx cy /\ near cx cy x y.

(** The connectivity property as the specification words it, for the grid
    [m'] left by [FillMapHoles m]: an open cell is covered by the brush, or
    it is an isolated single cell, none of whose open orthogonal neighbours
    lies outside the brushed area.  The further requirement that such a cell
    have exactly one open orthogonal neighbour is left out, so that this
    property follows from the specification's: a grid that fails it fails
    the specification's too. *)
Definition connectivity_claim (m m' : list Z) : Prop :=
  forall x y, in_bounds x y -> map_get m' x y = 0 ->
    in_main m x y \/
    (forall c, In c (orthogonal x y) -> MAP_DATA m' (fst c) (snd c) = 0 ->
               in_main m (fst c) (snd c)).

(** The invariant of the flood fill loop.  In order: the map keeps its
    size; the stack holds the seed or interior cells, all reachable; marked
    cells are reachable; a non-zero entry lies in the 3x3 block of a
    reachable cell; the seed is pending or marked; an open-brush neighbour
    of a marked cell is pending or marked; the 3x3 block of a marked cell
    has non-zero entries. *)
Definition fill_inv (m : list Z) (st : FillState) : Prop :=
  let acc := accessible_spots st in
  let stk := s (fill_stack st) in
  Z.of_nat (length acc) = MAP_WIDTH * MAP_HEIGHT /\
  (forall c, In c stk ->
     (c = (seed_x, seed_y) \/ interior (fst c) (snd c)) /\ reach m (fst c) (snd c)) /\
  (forall x y, in_bounds x y -> visited acc x y = true -> reach m x y) /\
  (forall x y, in_bounds x y -> acc_at acc x y <> 0 ->
     exists cx cy, reach m cx cy /\ near cx cy x y) /\
  (In (seed_x, seed_y) stk \/ visited acc seed_x seed_y = true) /\
  (forall x y o, in_bounds x y -> visited acc x y = true -> In o offsets ->
     brush_open m (x + fst o) (y + snd o) = true ->
     In (x + fst o, y + snd o) stk \/ visited acc (x + fst o) (y + snd o) = true) /\
  (forall x y x' y', in_bounds x y -> visited acc x y = true ->
     near x y x' y' -> in_bounds x' y' -> acc_at acc x' y' <> 0).

(** ** Vocabulary for the remaining functions *)

(** The fields of the stack agree: the used part fits the allocation. *)
Definition stack_ok (st : VisitStack) : Prop :=
  stack_size st <= capacity st /\ (capacity st = 0 \/ 16 <= capacity st).

(** The stack within a bound [N] on its size: the allocation stays below
    twice the bound. *)
Definition stack_within (N : Z) (st : VisitStack) : Prop :=
  stack_ok st /\ stack_size st <= N /\ capacity st <= Z.max 16 (2 * N).

(** Every cell of the array holds a byte. *)
Definition bytes (m : list Z) : bool :=
  forallb (fun v => (0 <=? v) && (v <=? 255)) m.

(** The new value of the cell of index [i] in one smoothing pass. *)
Definition majority_cell (m : list Z) (i : Z) : Z :=
  if neighbour_sum m (i mod MAP_WIDTH) (i / MAP_WIDTH) <=? 4 then 0 else 1.

(** One smoothing pass as a function of the grid. *)
Definition majority (m : list Z) : list Z :=
  majority_cell m <$> seqZ 0 (MAP_WIDTH * MAP_HEIGHT).

(** Number of empty cells in a grid. *)
Fixpoint open_count (m : list Z) : nat :=
  match m with
  | [] => O
  | v :: rest => ((if (v =? 0)%Z then 1 else 0) + open_count rest)%nat
  end.

(** ** Arrays: reads after writes *)

Lemma arr_set_length (a : list Z) (i v : Z) : length (arr_set a i v) = length a.
Proof. unfold arr_set. destruct (i <? 0); [done | apply length_insert]. Qed.

Lemma arr_get_set_eq (a : list Z) (i v : Z) :
  0 <= i < Z.of_nat (length a) -> arr_get (arr_set a i v) i = v.
Proof.
  intros Hi. unfold arr_get, arr_set.
  destruct (Z.ltb_spec i 0); [lia |].
  rewrite list_lookup_insert_eq by lia. done.
Qed.

Lemma arr_get_set_ne (a : list Z) (i j v : Z) :
  i <> j -> arr_get (arr_set a i v) j = arr_get a j.
Proof.
  intros Hne. unfold arr_get, arr_set.
  destruct (Z.ltb_spec j 0); [done |].
  destruct (Z.ltb_spec i 0); [done |].
  rewrite list_lookup_insert_ne by lia. done.
Qed.

Lemma arr_get_set (a : list Z) (i j v : Z) :
  0 <= i < Z.of_nat (length a) ->
  arr_get (arr_set a i v) j = if decide (i = j) then v else arr_get a j.
Proof.
  intros Hi. destruct (decide (i = j)) as [<- | Hne].
  - by apply arr_get_set_eq.
  - by apply arr_get_set_ne.
Qed.

Lemma arr_set_same (a : list Z) (i : Z) :
  0 <= i < Z.of_nat (length a) -> arr_set a i (arr_get a i) = a.
Proof.
  intros Hi. unfold arr_get, arr_set.
  destruct (Z.ltb_spec i 0); [lia |].
  apply list_insert_id.
  destruct (lookup_lt_is_Some_2 a (Z.to_nat i)) as [v Hv]; [lia |].
  by rewrite Hv.
Qed.

Lemma arr_ext (a b : list Z) :
  length a = length b ->
  (forall j, 0 <= j < Z.of_nat (length a) -> arr_get a j = arr_get b j) ->
  a = b.
Proof.
  intros Hlen Hget. apply list_eq. intros i.
  destruct (decide (i < length a)%nat) as [Hi | Hi].
  - specialize (Hget (Z.of_nat i)). unfold arr_get in Hget.
    destruct (Z.ltb_spec (Z.of_nat i) 0); [lia |].
    rewrite Nat2Z.id in Hget.
    destruct (lookup_lt_is_Some_2 a i Hi) as [va Hva].
    destruct (lookup_lt_is_Some_2 b i) as [vb Hvb]; [lia |].
    rewrite Hva, Hvb in *. simpl in Hget. f_equal. apply Hget. lia.
  - rewrite !lookup_ge_None_2 by lia. done.
Qed.

Lemma arr_get_replicate (n : nat) (v j : Z) :
  0 <= j < Z.of_nat n -> arr_get (replicate n v) j = v.
Proof.
  intros Hj. unfold arr_get. destruct (Z.ltb_spec j 0); [lia |].
  rewrite lookup_replicate_2 by lia. done.
Qed.

(** ** Cell indices *)

Lemma cell_index_range (x y : Z) :
  0 <= x < MAP_WIDTH -> 0 <= y < MAP_HEIGHT ->
  0 <= y * MAP_WIDTH + x < MAP_WIDTH * MAP_HEIGHT.
Proof. intros Hx Hy. nia. Qed.

Lemma cell_index_inj (x y x' y' : Z) :
  0 <= x < MAP_WIDTH -> 0 <= x' < MAP_WIDTH ->
  y * MAP_WIDTH + x = y' * MAP_WIDTH + x' -> x = x' /\ y = y'.
Proof.
  intros Hx Hx' Heq.
  assert (Hy : y = y').
  { destruct (Z.lt_trichotomy y y') as [Hlt | [Heq' | Hgt]]; [| done |].
    - assert (MAP_WIDTH <= (y' - y) * MAP_WIDTH) by nia. lia.
    - assert (MAP_WIDTH <= (y - y') * MAP_WIDTH) by nia. lia. }
  subst y'. lia.
Qed.

(** ** The loop over all cells *)

(** Invariant rule: [P k a] holds of the state [a] reached before the cell
    of index [k] is processed. *)
Lemma for_cells_ind {A : Type} (P : Z -> A -> Prop) (body : Z -> Z -> A -> A) (a0 : A) :
  0 <= MAP_WIDTH -> 0 <= MAP_HEIGHT ->
  P 0 a0 ->
  (forall x y a, 0 <= x < MAP_WIDTH -> 0 <= y < MAP_HEIGHT ->
     P (y * MAP_WIDTH + x) a -> P (y * MAP_WIDTH + x + 1) (body x y a)) ->
  P (MAP_WIDTH * MAP_HEIGHT) (for_cells body a0).
Proof.
  intros HW HH H0 Hstep.
  assert (Hrow : forall y a (k : nat), 0 <= y < MAP_HEIGHT ->
            Z.of_nat k <= MAP_WIDTH -> P (y * MAP_WIDTH) a ->
            P (y * MAP_WIDTH + Z.of_nat k)
              (fold_left (fun a x => body x y a) (seqZ 0 (Z.of_nat k)) a)).
  { intros y a k Hy. induction k as [| k IH]; intros Hk Ha.
    - simpl. by rewrite Z.add_0_r.
    - rewrite seqZ_S, fold_left_app. simpl.
      replace (y * MAP_WIDTH + Z.of_nat (S k)) with (y * MAP_WIDTH + Z.of_nat k + 1) by lia.
      apply Hstep; [lia | lia |]. apply IH; [lia | done]. }
  assert (Hrow' : forall y a, 0 <= y < MAP_HEIGHT -> P (y * MAP_WIDTH) a ->
            P ((y + 1) * MAP_WIDTH)
              (fold_left (fun a x => body x y a) (seqZ 0 MAP_WIDTH) a)).
  { intros y a Hy Ha. pose proof (Hrow y a (Z.to_nat MAP_WIDTH) Hy) as Hr.
    rewrite Z2Nat.id in Hr by done.
    replace ((y + 1) * MAP_WIDTH) with (y * MAP_WIDTH + MAP_WIDTH) by lia.
    apply Hr; [lia | done]. }
  assert (Hrows : forall (n : nat), Z.of_nat n <= MAP_HEIGHT ->
            P (Z.of_nat n * MAP_WIDTH)
              (fold_left
                 (fun a y => fold_left (fun a x => body x y a) (seqZ 0 MAP_WIDTH) a)
                 (seqZ 0 (Z.of_nat n)) a0)).
  { induction n as [| n IH]; intros Hn.
    - simpl. done.
    - rewrite seqZ_S, fold_left_app. simpl.
      replace (Z.of_nat (S n) * MAP_WIDTH) with ((Z.of_nat n + 1) * MAP_WIDTH) by lia.
      apply Hrow'; [lia |]. apply IH. lia. }
  unfold for_cells. pose proof (Hrows (Z.to_nat MAP_HEIGHT)) as Hr.
  rewrite Z2Nat.id in Hr by done.
  replace (MAP_WIDTH * MAP_HEIGHT) with (MAP_HEIGHT * MAP_WIDTH) by lia.
  apply Hr. lia.
Qed.

(** A loop whose body rewrites the entry of the current cell, through the
    running offset [p], from that entry alone. *)
Lemma for_cells_array (f : Z -> Z -> Z -> Z)
    (body : Z -> Z -> list Z * Z -> list Z * Z) (a0 : list Z) :
  0 <= MAP_WIDTH -> 0 <= MAP_HEIGHT ->
  Z.of_nat (length a0) = MAP_WIDTH * MAP_HEIGHT ->
  (forall x y a, 0 <= x < MAP_WIDTH -> 0 <= y < MAP_HEIGHT ->
     length a = length a0 ->
     let p := y * MAP_WIDTH + x in
     snd (body x y (a, p)) = p + 1 /\
     length (fst (body x y (a, p))) = length a /\
     arr_get (fst (body x y (a, p))) p = f x y (arr_get a p) /\
     (forall j, j <> p -> arr_get (fst (body x y (a, p))) j = arr_get a j)) ->
  snd (for_cells body (a0, 0)) = MAP_WIDTH * MAP_HEIGHT /\
  length (fst (for_cells body (a0, 0))) = length a0 /\
  (forall x y, 0 <= x < MAP_WIDTH -> 0 <= y < MAP_HEIGHT ->
     arr_get (fst (for_cells body (a0, 0))) (y * MAP_WIDTH + x)
     = f x y (arr_get a0 (y * MAP_WIDTH + x))).
Proof.
  intros HW HH Hlen Hbody.
  pose (P := fun (k : Z) (st : list Z * Z) =>
    snd st = k /\ length (fst st) = length a0 /\
    (forall x y, 0 <= x < MAP_WIDTH -> 0 <= y < MAP_HEIGHT ->
       y * MAP_WIDTH + x < k ->
       arr_get (fst st) (y * MAP_WIDTH + x) = f x y (arr_get a0 (y * MAP_WIDTH + x))) /\
    (forall j, k <= j -> arr_get (fst st) j = arr_get a0 j)).
  assert (HP : P (MAP_WIDTH * MAP_HEIGHT) (for_cells body (a0, 0))).
  { apply for_cells_ind; [done | done | |].
    - unfold P. simpl. split; [done |]. split; [done |]. split; [| done].
      intros x y Hx Hy Hlt. nia.
    - intros x y [a p] Hx Hy (Hp & Hl & Hdone & Htodo). simpl in *. subst p.
      destruct (Hbody x y a Hx Hy Hl) as (Hs & Hl' & Hat & Hother).
      unfold P. split; [done |]. split; [congruence |]. split.
      + intros x' y' Hx' Hy' Hlt.
        destruct (decide (y' * MAP_WIDTH + x' = y * MAP_WIDTH + x)) as [Heq | Hne].
        * destruct (cell_index_inj x' y' x y Hx' Hx Heq) as [-> ->].
          rewrite Hat. f_equal. apply Htodo. lia.
        * rewrite Hother by done. apply Hdone; [done | done | lia].
      + intros j Hj. rewrite Hother by lia. apply Htodo. lia. }
  destruct HP as (Hp & Hl & Hdone & _).
  split; [done |]. split; [done |].
  intros x y Hx Hy. apply Hdone; [done | done |].
  pose proof (cell_index_range x y Hx Hy). lia.
Qed.

Lemma memcpy_whole (dst src : list Z) (n : Z) :
  Z.of_nat (length src) = n -> Z.of_nat (length dst) = n -> memcpy dst src n = src.
Proof.
  intros Hs Hd. unfold memcpy.
  rewrite take_ge by lia. rewrite drop_ge by lia. apply app_nil_r.
Qed.

(** ** SmoothMapCells: one pass *)

Lemma smooth_fill_spec (m buffer : list Z) :
  0 <= MAP_WIDTH -> 0 <= MAP_HEIGHT ->
  Z.of_nat (length buffer) = MAP_WIDTH * MAP_HEIGHT ->
  length (fst (smooth_fill m buffer)) = length buffer /\
  (forall x y, 0 <= x < MAP_WIDTH -> 0 <= y < MAP_HEIGHT ->
     arr_get (fst (smooth_fill m buffer)) (y * MAP_WIDTH + x)
     = if neighbour_sum m x y <=? 4 then 0 else 1).
Proof.
  intros HW HH Hlen. unfold smooth_fill.
  match goal with |- context [for_cells ?b _] =>
    destruct (for_cells_array
                (fun x y _ => if neighbour_sum m x y <=? 4 then 0 else 1)
                b buffer HW HH Hlen) as (_ & Hl & Hget)
  end; [| by split].
  intros x y a Hx Hy Hla p. simpl.
  pose proof (cell_index_range x y Hx Hy) as Hr. fold p in Hr.
  split; [done |]. split; [apply arr_set_length |]. split.
  - apply arr_get_set_eq. lia.
  - intros j Hj. by apply arr_get_set_ne.
Qed.

Lemma smooth_pass_spec (m buffer : list Z) :
  0 <= MAP_WIDTH -> 0 <= MAP_HEIGHT ->
  Z.of_nat (length m) = MAP_WIDTH * MAP_HEIGHT ->
  Z.of_nat (length buffer) = MAP_WIDTH * MAP_HEIGHT ->
  fst (smooth_pass m buffer) = snd (smooth_pass m buffer) /\
  Z.of_nat (length (fst (smooth_pass m buffer))) = MAP_WIDTH * MAP_HEIGHT /\
  (forall x y, 0 <= x < MAP_WIDTH -> 0 <= y < MAP_HEIGHT ->
     map_get (fst (smooth_pass m buffer)) x y
     = if neighbour_sum m x y <=? 4 then 0 else 1).
Proof.
  intros HW HH Hm Hb.
  destruct (smooth_fill_spec m buffer HW HH Hb) as [Hl Hget].
  unfold smooth_pass. simpl.
  rewrite memcpy_whole by lia.
  split; [done |]. split; [lia |]. exact Hget.
Qed.

(** ** FillMapHoles: the two loops after the flood fill *)

Lemma mark_holes_spec (m acc : list Z) :
  0 <= MAP_WIDTH -> 0 <= MAP_HEIGHT ->
  Z.of_nat (length acc) = MAP_WIDTH * MAP_HEIGHT ->
  length (mark_holes m acc) = length acc /\
  (forall x y, 0 <= x < MAP_WIDTH -> 0 <= y < MAP_HEIGHT ->
     arr_get (mark_holes m acc) (y * MAP_WIDTH + x)
     = if (map_get m x y =? 0) && (arr_get acc (y * MAP_WIDTH + x) =? 0) &&
          (orthogonal_sum m x y =? 3)
       then 1 else arr_get acc (y * MAP_WIDTH + x)).
Proof.
  intros HW HH Hlen. unfold mark_holes.
  match goal with |- context [for_cells ?b _] =>
    destruct (for_cells_array
                (fun x y old =>
                   if (map_get m x y =? 0) && (old =? 0) && (orthogonal_sum m x y =? 3)
                   then 1 else old)
                b acc HW HH Hlen) as (_ & Hl & Hget)
  end; [| by split].
  intros x y a Hx Hy Hla p. simpl.
  pose proof (cell_index_range x y Hx Hy) as Hr. fold p in Hr.
  destruct ((map_get m x y =? 0) && (arr_get a p =? 0) && (orthogonal_sum m x y =? 3)).
  - split; [done |]. split; [apply arr_set_length |]. split.
    + apply arr_get_set_eq. lia.
    + intros j Hj. by apply arr_get_set_ne.
  - done.
Qed.

Lemma fill_inaccessible_spec (m acc : list Z) :
  0 <= MAP_WIDTH -> 0 <= MAP_HEIGHT ->
  Z.of_nat (length m) = MAP_WIDTH * MAP_HEIGHT ->
  length (fill_inaccessible m acc) = length m /\
  (forall x y, 0 <= x < MAP_WIDTH -> 0 <= y < MAP_HEIGHT ->
     map_get (fill_inaccessible m acc) x y
     = if (map_get m x y =? 0) && (arr_get acc (y * MAP_WIDTH + x) =? 0)
       then 1 else map_get m x y).
Proof.
  intros HW HH Hlen. unfold fill_inaccessible.
  match goal with |- context [for_cells ?b _] =>
    destruct (for_cells_array
                (fun x y old =>
                   if (old =? 0) && (arr_get acc (y * MAP_WIDTH + x) =? 0)
                   then 1 else old)
                b m HW HH Hlen) as (_ & Hl & Hget)
  end; [| by split].
  intros x y a Hx Hy Hla p. simpl. unfold map_get, map_set. fold p.
  pose proof (cell_index_range x y Hx Hy) as Hr. fold p in Hr.
  destruct ((arr_get a p =? 0) && (arr_get acc p =? 0)).
  - split; [done |]. split; [apply arr_set_length |]. split.
    + apply arr_get_set_eq. lia.
    + intros j Hj. by apply arr_get_set_ne.
  - done.
Qed.

(** ** Reading the grid *)

Lemma MAP_DATA_in (m : list Z) (x y : Z) :
  in_bounds x y -> MAP_DATA m x y = map_get m x y.
Proof.
  intros [Hx Hy]. unfold MAP_DATA.
  destruct (Z.ltb_spec x 0); [lia |]. destruct (Z.geb_spec x MAP_WIDTH); [lia |].
  destruct (Z.ltb_spec y 0); [lia |]. destruct (Z.geb_spec y MAP_HEIGHT); [lia |].
  done.
Qed.

Lemma MAP_DATA_out (m : list Z) (x y : Z) :
  ~ in_bounds x y -> MAP_DATA m x y = 1.
Proof.
  intros Hout. unfold MAP_DATA, in_bounds in *.
  destruct (Z.ltb_spec x 0); [done |]. destruct (Z.geb_spec x MAP_WIDTH); [done |].
  destruct (Z.ltb_spec y 0); [done |]. destruct (Z.geb_spec y MAP_HEIGHT); [done |].
  lia.
Qed.

Lemma MAP_DATA_zero (m : list Z) (x y : Z) :
  MAP_DATA m x y = 0 -> in_bounds x y /\ map_get m x y = 0.
Proof.
  intros H0. destruct (decide (in_bounds x y)) as [Hin | Hout].
  - split; [done |]. by rewrite <- MAP_DATA_in.
  - rewrite MAP_DATA_out in H0 by done. lia.
Qed.

Lemma brush_open_spec (m : list Z) (x y : Z) :
  brush_open m x y = true <->
  (forall x' y', near x y x' y' -> MAP_DATA m x' y' = 0).
Proof.
  unfold brush_open, near. rewrite !andb_true_iff, !Z.eqb_eq. split.
  - intros ((((((((H1 & H2) & H3) & H4) & H5) & H6) & H7) & H8) & H9) x' y' [Hx Hy].
    assert (Hxc : x' = x - 1 \/ x' = x \/ x' = x + 1) by lia.
    assert (Hyc : y' = y - 1 \/ y' = y \/ y' = y + 1) by lia.
    destruct Hxc as [-> | [-> | ->]]; destruct Hyc as [-> | [-> | ->]]; done.
  - intros Hall. repeat split; apply Hall; lia.
Qed.

Lemma brush_open_interior (m : list Z) (x y : Z) :
  brush_open m x y = true -> interior x y.
Proof.
  rewrite brush_open_spec. intros Hall.
  destruct (MAP_DATA_zero m (x - 1) (y - 1)) as [[? ?] _]; [apply Hall; unfold near; lia |].
  destruct (MAP_DATA_zero m (x + 1) (y + 1)) as [[? ?] _]; [apply Hall; unfold near; lia |].
  unfold interior. lia.
Qed.

Lemma interior_in_bounds (x y : Z) : interior x y -> in_bounds x y.
Proof. unfold interior, in_bounds. lia. Qed.

(** ** The stack *)

Lemma Push_s (st : VisitStack) (x y : Z) : s (Push st x y) = (x, y) :: s st.
Proof. done. Qed.

Lemma push_fold_elem (m : list Z) (x y : Z) (os : list XY) (st : VisitStack) (c : XY) :
  In c (s (fold_left (push_open m x y) os st)) <->
  In c (s st) \/
  exists o, In o os /\ brush_open m (x + fst o) (y + snd o) = true /\
            c = (x + fst o, y + snd o).
Proof.
  revert st. induction os as [| o os IH]; intros st; simpl.
  - split; [by left | intros [? | (o & [] & _)]; done].
  - rewrite IH. unfold push_open.
    destruct (brush_open m (x + fst o) (y + snd o)) eqn:Hb.
    + rewrite Push_s. simpl. split.
      * intros [[<- | Hc] | (o' & Ho' & Hb' & ->)].
        -- right. exists o. auto.
        -- by left.
        -- right. exists o'. auto.
      * intros [Hc | (o' & [<- | Ho'] & Hb' & ->)].
        -- left. by right.
        -- left. by left.
        -- right. exists o'. auto.
    + split.
      * intros [Hc | (o' & Ho' & Hb' & ->)]; [by left |]. right. exists o'. auto.
      * intros [Hc | (o' & [<- | Ho'] & Hb' & ->)]; [by left | congruence |].
        right. exists o'. auto.
Qed.

Lemma push_fold_length (m : list Z) (x y : Z) (os : list XY) (st : VisitStack) :
  (length (s (fold_left (push_open m x y) os st)) <= length (s st) + length os)%nat.
Proof.
  revert st. induction os as [| o os IH]; intros st; simpl; [lia |].
  etrans; [apply IH |]. unfold push_open.
  destruct (brush_open m (x + fst o) (y + snd o)); simpl; lia.
Qed.

Lemma push_neighbors_elem (m : list Z) (x y : Z) (rest : list XY) (cap : Z) (c : XY) :
  In c (s (push_neighbors m x y (mkStack rest cap))) <->
  In c rest \/
  exists o, In o offsets /\ brush_open m (x + fst o) (y + snd o) = true /\
            c = (x + fst o, y + snd o).
Proof. unfold push_neighbors. by rewrite push_fold_elem. Qed.

Lemma push_neighbors_length (m : list Z) (x y : Z) (rest : list XY) (cap : Z) :
  (length (s (push_neighbors m x y (mkStack rest cap))) <= length rest + 8)%nat.
Proof. unfold push_neighbors. apply (push_fold_length m x y offsets). Qed.

(** ** Marking the accessibility map *)

Lemma lor2_bit1 (v : Z) : Z.land (Z.lor v 2) 1 = Z.land v 1.
Proof. rewrite Z.land_lor_distr_l. simpl. apply Z.lor_0_r. Qed.

Lemma lor2_nonzero (v : Z) : Z.lor v 2 <> 0.
Proof. rewrite Z.lor_eq_0_iff. lia. Qed.

Lemma mark_one_length (acc : list Z) (x y : Z) :
  length (MARK_ACCESSIBLE_NEIGHBOR acc x y) = length acc.
Proof.
  unfold MARK_ACCESSIBLE_NEIGHBOR.
  destruct ((x >=? 0) && (x <? MAP_WIDTH) && (y >=? 0) && (y <? MAP_HEIGHT));
    [apply arr_set_length | done].
Qed.

Lemma mark_one_get (acc : list Z) (x y j : Z) :
  Z.of_nat (length acc) = MAP_WIDTH * MAP_HEIGHT ->
  arr_get (MARK_ACCESSIBLE_NEIGHBOR acc x y) j
  = if decide (in_bounds x y /\ j = y * MAP_WIDTH + x)
    then Z.lor (arr_get acc j) 2 else arr_get acc j.
Proof.
  intros Hlen. unfold MARK_ACCESSIBLE_NEIGHBOR, in_bounds.
  destruct (Z.geb_spec x 0); simpl;
    [| case_decide; [lia | done]].
  destruct (Z.ltb_spec x MAP_WIDTH); simpl;
    [| case_decide; [lia | done]].
  destruct (Z.geb_spec y 0); simpl;
    [| case_decide; [lia | done]].
  destruct (Z.ltb_spec y MAP_HEIGHT); simpl;
    [| case_decide; [lia | done]].
  pose proof (cell_index_range x y) as Hr.
  case_decide as Hd.
  - destruct Hd as [_ ->]. apply arr_get_set_eq. lia.
  - apply arr_get_set_ne. intros Heq. apply Hd. lia.
Qed.

(** The eight MARK_ACCESSIBLE_NEIGHBOR calls as one loop. *)
Lemma mark_neighbors_fold (acc : list Z) (x y : Z) :
  mark_neighbors acc x y
  = fold_left (fun a o => MARK_ACCESSIBLE_NEIGHBOR a (x + fst o) (y + snd o))
      mark_offsets acc.
Proof.
  unfold mark_neighbors, mark_offsets. simpl. rewrite !Z.add_0_r. reflexivity.
Qed.

Section Marks.
Variables x y : Z.

Local Abbreviation marks os acc :=
  (fold_left (fun a o => MARK_ACCESSIBLE_NEIGHBOR a (x + fst o) (y + snd o)) os acc).

Lemma marks_length (os : list XY) (acc : list Z) :
  length (marks os acc) = length acc.
Proof.
  revert acc. induction os as [| o os IH]; intros acc; simpl; [done |].
  rewrite IH. apply mark_one_length.
Qed.

Lemma marks_either (os : list XY) (acc : list Z) (j : Z) :
  Z.of_nat (length acc) = MAP_WIDTH * MAP_HEIGHT ->
  arr_get (marks os acc) j = arr_get acc j \/
  arr_get (marks os acc) j = Z.lor (arr_get acc j) 2.
Proof.
  revert acc. induction os as [| o os IH]; intros acc Hlen; simpl; [by left |].
  destruct (IH (MARK_ACCESSIBLE_NEIGHBOR acc (x + fst o) (y + snd o))) as [-> | ->].
  - by rewrite mark_one_length.
  - rewrite mark_one_get by done. case_decide; [by right | by left].
  - rewrite mark_one_get by done. case_decide; [| by right].
    right. rewrite <- Z.lor_assoc. done.
Qed.

Lemma marks_hit (os : list XY) (acc : list Z) (o : XY) :
  Z.of_nat (length acc) = MAP_WIDTH * MAP_HEIGHT ->
  In o os -> in_bounds (x + fst o) (y + snd o) ->
  arr_get (marks os acc) ((y + snd o) * MAP_WIDTH + (x + fst o)) <> 0.
Proof.
  clear wall_draw rs.
  revert acc. induction os as [| o' os IH]; intros acc Hlen Hin Hb; simpl; [done |].
  destruct (in_dec (prod_eq_dec) o os) as [Hmem | Hnot].
  - apply IH; [by rewrite mark_one_length | done | done].
  - destruct Hin as [-> | Hin]; [| done].
    destruct (marks_either os
                (MARK_ACCESSIBLE_NEIGHBOR acc (x + fst o) (y + snd o))
                ((y + snd o) * MAP_WIDTH + (x + fst o))) as [Heq | Heq].
    + by rewrite mark_one_length.
    + rewrite Heq. rewrite mark_one_get by done.
      case_decide as Hd; [apply lor2_nonzero | tauto].
    + rewrite Heq. apply lor2_nonzero.
Qed.

Lemma marks_changed (os : list XY) (acc : list Z) (j : Z) :
  Z.of_nat (length acc) = MAP_WIDTH * MAP_HEIGHT ->
  arr_get (marks os acc) j <> arr_get acc j ->
  exists o, In o os /\ in_bounds (x + fst o) (y + snd o) /\
            j = (y + snd o) * MAP_WIDTH + (x + fst o).
Proof.
  revert acc. induction os as [| o os IH]; intros acc Hlen Hne; simpl in *; [done |].
  destruct (decide (arr_get (MARK_ACCESSIBLE_NEIGHBOR acc (x + fst o) (y + snd o)) j
                    = arr_get acc j)) as [Heq | Hch].
  - destruct (IH (MARK_ACCESSIBLE_NEIGHBOR acc (x + fst o) (y + snd o)))
      as (o' & Ho' & Hb & Hj).
    + by rewrite mark_one_length.
    + by rewrite Heq.
    + exists o'. auto.
  - rewrite mark_one_get in Hch by done. case_decide as Hd; [| done].
    exists o. split; [by left | done].
Qed.
End Marks.

Lemma mark_neighbors_length (acc : list Z) (x y : Z) :
  length (mark_neighbors acc x y) = length acc.
Proof. rewrite mark_neighbors_fold. apply marks_length. Qed.

Lemma mark_neighbors_bit1 (acc : list Z) (x y j : Z) :
  Z.of_nat (length acc) = MAP_WIDTH * MAP_HEIGHT ->
  Z.land (arr_get (mark_neighbors acc x y) j) 1 = Z.land (arr_get acc j) 1.
Proof.
  intros Hlen. rewrite mark_neighbors_fold.
  destruct (marks_either x y mark_offsets acc j Hlen) as [-> | ->];
    [done | apply lor2_bit1].
Qed.

Lemma mark_neighbors_nonzero (acc : list Z) (x y j : Z) :
  Z.of_nat (length acc) = MAP_WIDTH * MAP_HEIGHT ->
  arr_get acc j <> 0 -> arr_get (mark_neighbors acc x y) j <> 0.
Proof.
  intros Hlen Hnz. rewrite mark_neighbors_fold.
  destruct (marks_either x y mark_offsets acc j Hlen) as [-> | ->];
    [done | apply lor2_nonzero].
Qed.

Lemma near_offset (x y x' y' : Z) :
  near x y x' y' -> (x', y') <> (x, y) ->
  exists o, In o mark_offsets /\ In o offsets /\ x' = x + fst o /\ y' = y + snd o.
Proof.
  clear wall_draw rs.
  unfold near. intros [Hx Hy] Hne.
  assert (Hxc : x' = x + -1 \/ x' = x + 0 \/ x' = x + 1) by lia.
  assert (Hyc : y' = y + -1 \/ y' = y + 0 \/ y' = y + 1) by lia.
  destruct Hxc as [-> | [-> | ->]]; destruct Hyc as [-> | [-> | ->]];
    try (eexists (_, _); simpl; split; [| split; [| split; reflexivity]];
         simpl; tauto).
  exfalso. apply Hne. f_equal; lia.
Qed.

Lemma offset_near (x y : Z) (o : XY) :
  In o mark_offsets \/ In o offsets ->
  near x y (x + fst o) (y + snd o) /\ (x + fst o, y + snd o) <> (x, y).
Proof.
  unfold near. simpl. intros [H | H];
    repeat (destruct H as [<- | H]; [simpl; split; [lia | intros [=]; lia] |]);
    done.
Qed.

(** After the eight calls every neighbour inside the map is marked. *)
Lemma mark_neighbors_near (acc : list Z) (x y x' y' : Z) :
  Z.of_nat (length acc) = MAP_WIDTH * MAP_HEIGHT ->
  near x y x' y' -> (x', y') <> (x, y) -> in_bounds x' y' ->
  acc_at (mark_neighbors acc x y) x' y' <> 0.
Proof.
  intros Hlen Hnear Hne Hb.
  destruct (near_offset x y x' y' Hnear Hne) as (o & Ho & _ & -> & ->).
  rewrite mark_neighbors_fold. unfold acc_at. by apply marks_hit.
Qed.

(** The calls change no entry but those of the neighbours. *)
Lemma mark_neighbors_changed (acc : list Z) (x y x' y' : Z) :
  Z.of_nat (length acc) = MAP_WIDTH * MAP_HEIGHT ->
  in_bounds x' y' ->
  acc_at (mark_neighbors acc x y) x' y' <> acc_at acc x' y' ->
  near x y x' y' /\ (x', y') <> (x, y).
Proof.
  intros Hlen [Hx' Hy'] Hch. unfold acc_at in Hch. rewrite mark_neighbors_fold in Hch.
  destruct (marks_changed x y mark_offsets acc _ Hlen Hch) as (o & Ho & [Hbx Hby] & Hj).
  destruct (cell_index_inj _ _ _ _ Hx' Hbx Hj) as [-> ->].
  apply offset_near. by left.
Qed.

(** ** Counting unmarked entries *)

Lemma unvisited_count_insert (l : list Z) (n : nat) (v old : Z) :
  l !! n = Some old ->
  (unvisited_count (<[n := v]> l) + (if (Z.land old 1 =? 0)%Z then 1 else 0)
   = unvisited_count l + (if (Z.land v 1 =? 0)%Z then 1 else 0))%nat.
Proof.
  revert n. induction l as [| w l IH]; intros n Hn; [done |].
  destruct n as [| n]; simpl in *.
  - injection Hn as ->. lia.
  - specialize (IH n Hn). lia.
Qed.

Lemma unvisited_count_mark (acc : list Z) (i : Z) :
  0 <= i < Z.of_nat (length acc) ->
  Z.land (arr_get acc i) 1 = 0 ->
  (unvisited_count (arr_set acc i 1) + 1 = unvisited_count acc)%nat.
Proof.
  intros Hi Hbit. unfold arr_get, arr_set in *.
  destruct (Z.ltb_spec i 0); [lia |].
  destruct (lookup_lt_is_Some_2 acc (Z.to_nat i)) as [old Hold]; [lia |].
  rewrite Hold in Hbit. simpl in Hbit.
  pose proof (unvisited_count_insert acc (Z.to_nat i) 1 old Hold) as Hc.
  rewrite Hbit in Hc. simpl in Hc. lia.
Qed.

Lemma unvisited_count_ext (a b : list Z) :
  length a = length b ->
  (forall j, Z.land (arr_get a j) 1 = Z.land (arr_get b j) 1) ->
  unvisited_count a = unvisited_count b.
Proof.
  revert b. induction a as [| v a IH]; intros [| w b] Hlen Hget; simpl in *; try done.
  f_equal.
  - specialize (Hget 0). unfold arr_get in Hget. simpl in Hget. by rewrite Hget.
  - apply IH; [lia |]. intros j.
    destruct (Z.ltb_spec j 0) as [Hneg | Hpos].
    + unfold arr_get. destruct (Z.ltb_spec j 0); [done | lia].
    + specialize (Hget (j + 1)). unfold arr_get in *.
      destruct (Z.ltb_spec (j + 1) 0); [lia |].
      destruct (Z.ltb_spec j 0); [lia |].
      replace (Z.to_nat (j + 1)) with (S (Z.to_nat j)) in Hget by lia.
      exact Hget.
Qed.

Lemma unvisited_count_replicate (n : nat) : unvisited_count (replicate n 0) = n.
Proof. induction n as [| n IH]; simpl; [done | by rewrite IH]. Qed.

(** ** One iteration of the flood fill *)

Lemma stack_size_pos (st : VisitStack) :
  (stack_size st >? 0) = true <-> s st <> [].
Proof.
  unfold stack_size. destruct (s st) as [| c r]; simpl.
  - split; [discriminate | congruence].
  - split; [discriminate | reflexivity].
Qed.

Lemma fill_step_empty (m : list Z) (st : FillState) :
  s (fill_stack st) = [] -> fill_step m st = st.
Proof. intros Hs. unfold fill_step, Pop. by rewrite Hs. Qed.

Lemma fill_step_discard (m : list Z) (st : FillState) (x y : Z) (rest : list XY) :
  s (fill_stack st) = (x, y) :: rest ->
  visited (accessible_spots st) x y = true ->
  fill_step m st
  = mkFill (mkStack rest (capacity (fill_stack st))) (accessible_spots st).
Proof.
  intros Hs Hv. unfold fill_step, Pop. rewrite Hs.
  unfold visited, acc_at in Hv. by rewrite Hv.
Qed.

Lemma fill_step_mark (m : list Z) (st : FillState) (x y : Z) (rest : list XY) :
  s (fill_stack st) = (x, y) :: rest ->
  visited (accessible_spots st) x y = false ->
  fill_step m st
  = mkFill (push_neighbors m x y (mkStack rest (capacity (fill_stack st))))
           (mark_neighbors (arr_set (accessible_spots st) (y * MAP_WIDTH + x) 1) x y).
Proof.
  intros Hs Hv. unfold fill_step, Pop. rewrite Hs.
  unfold visited, acc_at in Hv. by rewrite Hv.
Qed.

Lemma visited_nonzero (acc : list Z) (x y : Z) :
  visited acc x y = true -> acc_at acc x y <> 0.
Proof.
  unfold visited. intros Hv Hz. rewrite Hz in Hv. done.
Qed.

Lemma visited_false (acc : list Z) (x y : Z) :
  visited acc x y = false -> Z.land (acc_at acc x y) 1 = 0.
Proof.
  unfold visited. intros Hv. apply negb_false_iff in Hv. by apply Z.eqb_eq.
Qed.

(** The accessibility map after a marking iteration at (x0, y0). *)
Section MarkingStep.
Variables (acc : list Z) (x0 y0 : Z).
Hypothesis Hlen : Z.of_nat (length acc) = MAP_WIDTH * MAP_HEIGHT.
Hypothesis Hin0 : in_bounds x0 y0.

Local Abbreviation acc' :=
  (mark_neighbors (arr_set acc (y0 * MAP_WIDTH + x0) 1) x0 y0).

Lemma marked_length : Z.of_nat (length acc') = MAP_WIDTH * MAP_HEIGHT.
Proof. by rewrite mark_neighbors_length, arr_set_length. Qed.

Lemma marked_visited (x y : Z) :
  in_bounds x y ->
  visited acc' x y = true <-> (x, y) = (x0, y0) \/ visited acc x y = true.
Proof.
  intros [Hx Hy]. destruct Hin0 as [Hx0 Hy0].
  pose proof (cell_index_range x0 y0 Hx0 Hy0) as Hr.
  unfold visited, acc_at.
  rewrite mark_neighbors_bit1 by (by rewrite arr_set_length).
  rewrite arr_get_set by lia. case_decide as Hd.
  - destruct (cell_index_inj _ _ _ _ Hx0 Hx Hd) as [-> ->].
    split; [by left | done].
  - split; [by right |]. intros [[= -> ->] | Hv]; done.
Qed.

Lemma marked_nonzero_old (x y : Z) :
  acc_at acc x y <> 0 -> acc_at acc' x y <> 0.
Proof.
  intros Hnz. destruct Hin0 as [Hx0 Hy0].
  pose proof (cell_index_range x0 y0 Hx0 Hy0) as Hr.
  unfold acc_at. apply mark_neighbors_nonzero; [by rewrite arr_set_length |].
  rewrite arr_get_set by lia. case_decide; done.
Qed.

Lemma marked_nonzero_near (x y : Z) :
  near x0 y0 x y -> in_bounds x y -> acc_at acc' x y <> 0.
Proof.
  intros Hnear Hb. destruct Hin0 as [Hx0 Hy0].
  pose proof (cell_index_range x0 y0 Hx0 Hy0) as Hr.
  destruct (decide ((x, y) = (x0, y0))) as [[= -> ->] | Hne].
  - unfold acc_at. apply mark_neighbors_nonzero; [by rewrite arr_set_length |].
    rewrite arr_get_set_eq by lia. done.
  - apply mark_neighbors_near; [by rewrite arr_set_length | done | done | done].
Qed.

Lemma marked_nonzero_inv (x y : Z) :
  in_bounds x y -> acc_at acc' x y <> 0 ->
  acc_at acc x y <> 0 \/ near x0 y0 x y.
Proof.
  intros Hb Hnz. destruct Hin0 as [Hx0 Hy0].
  pose proof (cell_index_range x0 y0 Hx0 Hy0) as Hr.
  destruct (decide (acc_at acc x y = 0)) as [Hz | ?]; [| by left]. right.
  destruct (decide ((x, y) = (x0, y0))) as [[= -> ->] | Hne]; [unfold near; lia |].
  apply (mark_neighbors_changed (arr_set acc (y0 * MAP_WIDTH + x0) 1));
    [by rewrite arr_set_length | done |].
  intros Heq. apply Hnz. rewrite Heq. unfold acc_at.
  rewrite arr_get_set_ne; [done |].
  intros Hidx. destruct Hb as [Hx Hy].
  destruct (cell_index_inj _ _ _ _ Hx0 Hx Hidx) as [-> ->]. done.
Qed.

Lemma marked_unvisited_count :
  visited acc x0 y0 = false ->
  (unvisited_count acc' + 1 = unvisited_count acc)%nat.
Proof.
  intros Hv. destruct Hin0 as [Hx0 Hy0].
  pose proof (cell_index_range x0 y0 Hx0 Hy0) as Hr.
  rewrite <- (unvisited_count_mark acc (y0 * MAP_WIDTH + x0));
    [| lia | by apply visited_false].
  f_equal. apply unvisited_count_ext.
  - by rewrite mark_neighbors_length.
  - intros j. apply mark_neighbors_bit1. by rewrite arr_set_length.
Qed.
End MarkingStep.

Lemma arr_get_zeros (n : nat) (j : Z) : arr_get (replicate n 0) j = 0.
Proof.
  unfold arr_get. destruct (j <? 0); [done |].
  destruct (replicate n 0 !! Z.to_nat j) as [v |] eqn:Hv; [| done].
  apply lookup_replicate in Hv as [-> _]. done.
Qed.

(** ** The invariant of the flood fill *)

Section Flood.
Variable m : list Z.
Hypothesis Hseed : in_bounds seed_x seed_y.

Lemma fill_inv_init : fill_inv m fill_init.
Proof.
  unfold fill_inv, fill_init. simpl.
  assert (Hz : forall x y,
             acc_at (replicate (Z.to_nat (MAP_WIDTH * MAP_HEIGHT)) 0) x y = 0).
  { intros x y. apply arr_get_zeros. }
  assert (Hv : forall x y,
             visited (replicate (Z.to_nat (MAP_WIDTH * MAP_HEIGHT)) 0) x y = false).
  { intros x y. unfold visited. by rewrite Hz. }
  split.
  { rewrite length_replicate. destruct Hseed. nia. }
  split.
  { intros c [<- | []]. split; [by left | apply reach_seed]. }
  split.
  { intros x y _ Hvis. by rewrite Hv in Hvis. }
  split.
  { intros x y _ Hnz. by rewrite Hz in Hnz. }
  split.
  { left. by left. }
  split.
  { intros x y o _ Hvis. by rewrite Hv in Hvis. }
  intros x y x' y' _ Hvis. by rewrite Hv in Hvis.
Qed.

Lemma fill_inv_head (st : FillState) (x0 y0 : Z) (rest : list XY) :
  fill_inv m st -> s (fill_stack st) = (x0, y0) :: rest ->
  in_bounds x0 y0 /\ reach m x0 y0.
Proof.
  intros (_ & Hstk & _) Hst. rewrite Hst in Hstk.
  destruct (Hstk (x0, y0)) as [[[= -> ->] | Hint] Hr]; [by left | |]; simpl in *.
  - done.
  - split; [by apply interior_in_bounds | done].
Qed.

Lemma fill_inv_step (st : FillState) : fill_inv m st -> fill_inv m (fill_step m st).
Proof.
  intros Hinv.
  destruct (s (fill_stack st)) as [| [x0 y0] rest] eqn:Hst.
  { by rewrite fill_step_empty. }
  destruct (fill_inv_head st x0 y0 rest Hinv Hst) as [Hin0 Hr0].
  destruct Hinv as (Hlen & Hstk & Hvis & Hnz & Hs & Hclosed & Hblock).
  rewrite Hst in Hstk, Hs, Hclosed.
  destruct (visited (accessible_spots st) x0 y0) eqn:Hv0.
  - rewrite (fill_step_discard m st x0 y0 rest Hst Hv0).
    unfold fill_inv. simpl.
    split; [done |]. split.
    { intros c Hc. apply Hstk. by right. }
    split; [done |]. split; [done |]. split.
    { destruct Hs as [[[= <- <-] | Hin] | Hv]; [by right | by left | by right]. }
    split; [| done].
    intros x y o Hb Hv Ho Hopen.
    destruct (Hclosed x y o Hb Hv Ho Hopen) as [[[= <- <-] | Hin] | Hv'];
      [by right | by left | by right].
  - rewrite (fill_step_mark m st x0 y0 rest Hst Hv0).
    unfold fill_inv. cbn [accessible_spots fill_stack].
    split; [by apply marked_length |]. split.
    { intros c Hc. apply push_neighbors_elem in Hc as [Hc | (o & Ho & Hopen & ->)].
      - apply Hstk. by right.
      - simpl. split; [right; by apply (brush_open_interior m) |].
        by apply reach_step. }
    split.
    { intros x y Hb Hv. apply marked_visited in Hv as [[= -> ->] | Hv]; auto. }
    split.
    { intros x y Hb Hne.
      apply marked_nonzero_inv in Hne as [Hne | Hnear];
        [auto | exists x0, y0; auto | done | done | done]. }
    split.
    { destruct Hs as [[[= <- <-] | Hin] | Hv].
      - right. apply marked_visited; [done | done | done |]. by left.
      - left. apply push_neighbors_elem. by left.
      - right. apply marked_visited; [done | done | done |]. by right. }
    split.
    { intros x y o Hb Hv Ho Hopen.
      pose proof (interior_in_bounds _ _ (brush_open_interior m _ _ Hopen)) as Hbo.
      apply marked_visited in Hv as [[= -> ->] | Hv]; [| | done | done | done].
      - left. apply push_neighbors_elem. right. exists o. auto.
      - destruct (Hclosed x y o Hb Hv Ho Hopen) as [[[= <- <-] | Hin] | Hv'].
        + right. apply marked_visited; [done | done | done |]. by left.
        + left. apply push_neighbors_elem. by left.
        + right. apply marked_visited; [done | done | done |]. by right. }
    intros x y x' y' Hb Hv Hnear Hb'.
    apply marked_visited in Hv as [[= -> ->] | Hv]; [| | done | done | done].
    + by apply marked_nonzero_near.
    + apply marked_nonzero_old; [done | done |]. by apply (Hblock x y).
Qed.

Lemma fill_inv_after (k : nat) : fill_inv m (fill_after m k).
Proof.
  unfold fill_after. induction k as [| k IH]; simpl.
  - apply fill_inv_init.
  - by apply fill_inv_step.
Qed.

(** *** Termination *)

Lemma fill_measure_step (st : FillState) :
  fill_inv m st -> s (fill_stack st) <> [] ->
  (fill_measure (fill_step m st) < fill_measure st)%nat.
Proof.
  intros Hinv Hne.
  destruct (s (fill_stack st)) as [| [x0 y0] rest] eqn:Hst; [done |].
  destruct (fill_inv_head st x0 y0 rest Hinv Hst) as [Hin0 Hr0].
  destruct Hinv as (Hlen & _).
  unfold fill_measure at 2. rewrite Hst.
  destruct (visited (accessible_spots st) x0 y0) eqn:Hv0.
  - rewrite (fill_step_discard m st x0 y0 rest Hst Hv0).
    unfold fill_measure. simpl. lia.
  - rewrite (fill_step_mark m st x0 y0 rest Hst Hv0).
    unfold fill_measure. cbn [accessible_spots fill_stack].
    pose proof (marked_unvisited_count _ x0 y0 Hlen Hin0 Hv0) as Hc.
    pose proof (push_neighbors_length m x0 y0 rest (capacity (fill_stack st))) as Hp.
    cbn [length]. lia.
Qed.

Lemma fill_loop_iter (fuel : nat) (st : FillState) :
  fill_inv m st -> (fill_measure st <= fuel)%nat ->
  exists k, (k <= fuel)%nat /\
    fill_loop fuel m st = Some (Nat.iter k (fill_step m) st) /\
    s (fill_stack (Nat.iter k (fill_step m) st)) = [].
Proof.
  revert st. induction fuel as [| fuel IH]; intros st Hinv Hfuel.
  - exists O. simpl. unfold fill_measure in Hfuel.
    assert (Hs : s (fill_stack st) = []).
    { destruct (s (fill_stack st)); [done | simpl in Hfuel; lia]. }
    split; [lia |]. split; [| done].
    unfold stack_size. by rewrite Hs.
  - simpl. destruct (stack_size (fill_stack st) >? 0) eqn:Hsz.
    + apply stack_size_pos in Hsz.
      destruct (IH (fill_step m st)) as (k & Hk & Hloop & Hend).
      * by apply fill_inv_step.
      * pose proof (fill_measure_step st Hinv Hsz). lia.
      * exists (S k). rewrite Nat.iter_succ_r. split; [lia | done].
    + exists O. simpl. split; [lia |]. split; [done |].
      destruct (s (fill_stack st)) eqn:Hs; [done |].
      assert (Hpos : (stack_size (fill_stack st) >? 0) = true).
      { apply stack_size_pos. by rewrite Hs. }
      congruence.
Qed.

Lemma fill_measure_init : fill_measure fill_init = fill_fuel.
Proof.
  unfold fill_measure, fill_init, fill_fuel. simpl.
  rewrite unvisited_count_replicate. destruct Hseed. nia.
Qed.

(** The loop of [FillMapHoles] comes to an end, in a state that satisfies
    the invariant and has an empty stack. *)
Lemma fill_loop_result :
  exists st, fill_loop fill_fuel m fill_init = Some st /\
             fill_inv m st /\ s (fill_stack st) = [].
Proof.
  destruct (fill_loop_iter fill_fuel fill_init) as (k & _ & Hloop & Hend).
  - apply fill_inv_init.
  - rewrite fill_measure_init. lia.
  - eexists. split; [exact Hloop |]. split; [| done]. apply fill_inv_after.
Qed.
End Flood.

(** ** What the flood fill computes *)

Lemma reach_in_bounds (m : list Z) (x y : Z) :
  in_bounds seed_x seed_y -> reach m x y -> in_bounds x y.
Proof.
  intros Hseed Hr. destruct Hr as [| x y o _ _ Hopen]; [done |].
  by apply interior_in_bounds, (brush_open_interior m).
Qed.

Lemma fill_inv_complete (m : list Z) (st : FillState) (x y : Z) :
  in_bounds seed_x seed_y ->
  fill_inv m st -> s (fill_stack st) = [] ->
  reach m x y -> visited (accessible_spots st) x y = true.
Proof.
  intros Hseed (_ & _ & _ & _ & Hs & Hclosed & _) Hempty Hr.
  rewrite Hempty in Hs, Hclosed.
  induction Hr as [| x y o Hr IH Ho Hopen].
  - destruct Hs as [[] | Hv]. done.
  - destruct (Hclosed x y o) as [[] | Hv]; try done.
    by apply (reach_in_bounds m).
Qed.

(** The flood fill ends; it marks exactly the reachable cells, and leaves a
    non-zero entry exactly on the cells the brush covers. *)
Lemma flood_fill_result (m : list Z) :
  in_bounds seed_x seed_y ->
  exists acc, flood_fill m = Some acc /\
    Z.of_nat (length acc) = MAP_WIDTH * MAP_HEIGHT /\
    (forall x y, in_bounds x y -> (visited acc x y = true <-> reach m x y)) /\
    (forall x y, in_bounds x y ->
       (acc_at acc x y <> 0 <-> exists cx cy, reach m cx cy /\ near cx cy x y)).
Proof.
  intros Hseed.
  destruct (fill_loop_result m Hseed) as (st & Hloop & Hinv & Hempty).
  exists (accessible_spots st). unfold flood_fill. rewrite Hloop. simpl.
  split; [done |].
  pose proof (fun x y => fill_inv_complete m st x y Hseed Hinv Hempty) as Hcomplete.
  destruct Hinv as (Hlen & _ & Hvis & Hnz & _ & _ & Hblock).
  split; [done |]. split.
  - intros x y Hb. split; [by apply Hvis | by apply Hcomplete].
  - intros x y Hb. split; [by apply Hnz |].
    intros (cx & cy & Hr & Hnear).
    apply (Hblock cx cy); [by apply (reach_in_bounds m) | by apply Hcomplete | done | done].
Qed.

(** ** The carved grid *)

Lemma map_set_length (m : list Z) (x y v : Z) : length (map_set m x y v) = length m.
Proof. apply arr_set_length. Qed.

Lemma map_get_set (m : list Z) (x' y' x y v : Z) :
  Z.of_nat (length m) = MAP_WIDTH * MAP_HEIGHT ->
  in_bounds x' y' -> in_bounds x y ->
  map_get (map_set m x' y' v) x y
  = if decide (x' = x /\ y' = y) then v else map_get m x y.
Proof.
  clear wall_draw rs.
  intros Hlen [Hx' Hy'] [Hx Hy]. unfold map_get, map_set.
  pose proof (cell_index_range x' y' Hx' Hy').
  rewrite arr_get_set by lia.
  destruct (decide (y' * MAP_WIDTH + x' = y * MAP_WIDTH + x)) as [Heq | Hne].
  - destruct (cell_index_inj _ _ _ _ Hx' Hx Heq). case_decide; [done | tauto].
  - case_decide as Hd; [| done]. destruct Hd as [-> ->]. done.
Qed.

Lemma seed_interior :
  3 <= MAP_WIDTH -> 3 <= MAP_HEIGHT -> interior seed_x seed_y.
Proof.
  clear wall_draw rs.
  intros HW HH. unfold interior, seed_x, seed_y.
  Z.to_euclidean_division_equations. lia.
Qed.

Lemma seed_in_bounds :
  1 <= MAP_WIDTH -> 1 <= MAP_HEIGHT -> in_bounds seed_x seed_y.
Proof.
  clear wall_draw rs.
  intros HW HH. unfold in_bounds, seed_x, seed_y.
  Z.to_euclidean_division_equations. lia.
Qed.

Lemma carve_length (m : list Z) : length (carve m) = length m.
Proof. unfold carve. by rewrite !map_set_length. Qed.

Lemma carve_get (m : list Z) (x y : Z) :
  3 <= MAP_WIDTH -> 3 <= MAP_HEIGHT ->
  Z.of_nat (length m) = MAP_WIDTH * MAP_HEIGHT ->
  in_bounds x y ->
  map_get (carve m) x y
  = if decide (near seed_x seed_y x y) then 0 else map_get m x y.
Proof.
  intros HW HH Hlen Hb. destruct (seed_interior HW HH) as [Hsx Hsy].
  unfold carve.
  repeat (rewrite map_get_set;
          [| by rewrite ?map_set_length | unfold in_bounds; lia | done]).
  unfold near. repeat case_decide; try done; lia.
Qed.

Lemma carve_seed_open (m : list Z) :
  3 <= MAP_WIDTH -> 3 <= MAP_HEIGHT ->
  Z.of_nat (length m) = MAP_WIDTH * MAP_HEIGHT ->
  brush_open (carve m) seed_x seed_y = true.
Proof.
  intros HW HH Hlen. destruct (seed_interior HW HH) as [Hsx Hsy].
  apply brush_open_spec. intros x y Hnear.
  assert (Hb : in_bounds x y) by (unfold near, in_bounds in *; lia).
  rewrite MAP_DATA_in by done. rewrite carve_get by done.
  case_decide; done.
Qed.

(** Every reachable cell of the carved grid is the centre of an empty 3x3
    space. *)
Lemma reach_brush_open (m : list Z) (x y : Z) :
  3 <= MAP_WIDTH -> 3 <= MAP_HEIGHT ->
  Z.of_nat (length m) = MAP_WIDTH * MAP_HEIGHT ->
  reach (carve m) x y -> brush_open (carve m) x y = true.
Proof.
  intros HW HH Hlen Hr. destruct Hr; [by apply carve_seed_open | done].
Qed.

Lemma in_main_open (m : list Z) (x y : Z) :
  3 <= MAP_WIDTH -> 3 <= MAP_HEIGHT ->
  Z.of_nat (length m) = MAP_WIDTH * MAP_HEIGHT ->
  in_main m x y -> in_bounds x y /\ map_get (carve m) x y = 0.
Proof.
  intros HW HH Hlen (cx & cy & Hr & Hnear).
  apply MAP_DATA_zero.
  pose proof (reach_brush_open m cx cy HW HH Hlen Hr) as Hopen.
  rewrite brush_open_spec in Hopen. by apply Hopen.
Qed.

(** ** Chains of brush centres *)

Lemma linked_open_r (m : list Z) (x y x' y' : Z) :
  linked m x y x' y' -> brush_open m x' y' = true.
Proof. intros Hl. destruct Hl; done. Qed.

Lemma linked_open_l (m : list Z) (x y x' y' : Z) :
  linked m x y x' y' -> brush_open m x y = true.
Proof. intros Hl. induction Hl; done. Qed.

Lemma linked_trans (m : list Z) (x1 y1 x2 y2 x3 y3 : Z) :
  linked m x1 y1 x2 y2 -> linked m x2 y2 x3 y3 -> linked m x1 y1 x3 y3.
Proof.
  intros H12 H23. induction H23 as [| x2 y2 x3 y3 o H23 IH Ho Hopen]; [done |].
  apply linked_step; [by apply IH | done | done].
Qed.

Lemma linked_neighbour (m : list Z) (x y x' y' : Z) :
  brush_open m x y = true -> brush_open m x' y' = true ->
  near x y x' y' -> linked m x y x' y'.
Proof.
  intros Hopen Hopen' Hnear.
  destruct (decide ((x', y') = (x, y))) as [[= -> ->] | Hne].
  - by apply linked_refl.
  - destruct (near_offset x y x' y' Hnear Hne) as (o & _ & Ho & -> & ->).
    apply linked_step; [by apply linked_refl | done | done].
Qed.

Lemma linked_sym (m : list Z) (x y x' y' : Z) :
  linked m x y x' y' -> linked m x' y' x y.
Proof.
  intros Hl. induction Hl as [| x y x' y' o Hl IH Ho Hopen]; [by apply linked_refl |].
  apply linked_trans with x' y'; [| done].
  apply linked_neighbour; [done | by apply linked_open_r in Hl |].
  destruct (offset_near x' y' o) as [Hnear _]; [by right |].
  unfold near in *. lia.
Qed.

Lemma reach_linked (m : list Z) (x y : Z) :
  brush_open m seed_x seed_y = true ->
  reach m x y -> linked m seed_x seed_y x y.
Proof.
  intros Hseed Hr. induction Hr as [| x y o Hr IH Ho Hopen].
  - by apply linked_refl.
  - by apply linked_step.
Qed.

(** ** FillMapHoles, cell by cell *)

Lemma FillMapHoles_cells (m : list Z) :
  3 <= MAP_WIDTH -> 3 <= MAP_HEIGHT ->
  Z.of_nat (length m) = MAP_WIDTH * MAP_HEIGHT ->
  exists acc m',
    flood_fill (carve m) = Some acc /\
    accessible_at_seal m = Some (mark_holes (carve m) acc) /\
    FillMapHoles m = Some m' /\
    length m' = length m /\
    Z.of_nat (length acc) = MAP_WIDTH * MAP_HEIGHT /\
    (forall x y, in_bounds x y ->
       (visited acc x y = true <-> reach (carve m) x y)) /\
    (forall x y, in_bounds x y -> (acc_at acc x y <> 0 <-> in_main m x y)) /\
    (forall x y, in_bounds x y ->
       acc_at (mark_holes (carve m) acc) x y
       = if (map_get (carve m) x y =? 0) && (acc_at acc x y =? 0) &&
            (orthogonal_sum (carve m) x y =? 3)
         then 1 else acc_at acc x y) /\
    (forall x y, in_bounds x y ->
       map_get m' x y
       = if (map_get (carve m) x y =? 0) && (acc_at acc x y =? 0) &&
            negb (orthogonal_sum (carve m) x y =? 3)
         then 1 else map_get (carve m) x y).
Proof.
  intros HW HH Hlen.
  assert (Hseed : in_bounds seed_x seed_y).
  { apply interior_in_bounds. by apply seed_interior. }
  destruct (flood_fill_result (carve m) Hseed) as (acc & Hflood & Hlacc & Hvis & Hnz).
  assert (H0W : 0 <= MAP_WIDTH) by lia. assert (H0H : 0 <= MAP_HEIGHT) by lia.
  destruct (mark_holes_spec (carve m) acc H0W H0H Hlacc) as [Hlh Hholes].
  assert (Hlc : Z.of_nat (length (carve m)) = MAP_WIDTH * MAP_HEIGHT)
    by (by rewrite carve_length).
  destruct (fill_inaccessible_spec (carve m) (mark_holes (carve m) acc) H0W H0H Hlc)
    as [Hlf Hfill].
  exists acc, (fill_inaccessible (carve m) (mark_holes (carve m) acc)).
  unfold FillMapHoles, accessible_at_seal. rewrite Hflood. simpl.
  split; [done |]. split; [done |]. split; [done |].
  split; [by rewrite Hlf, carve_length |].
  split; [done |]. split; [done |]. split; [done |]. split.
  - intros x y [Hx Hy]. by apply Hholes.
  - intros x y [Hx Hy]. rewrite Hfill by done. rewrite Hholes by done.
    unfold acc_at.
    destruct (map_get (carve m) x y =? 0); simpl; [| done].
    destruct (Z.eqb_spec (arr_get acc (y * MAP_WIDTH + x)) 0) as [Hz | Hnz']; simpl.
    + destruct (orthogonal_sum (carve m) x y =? 3); simpl; [done |].
      by rewrite Hz.
    + destruct (Z.eqb_spec (arr_get acc (y * MAP_WIDTH + x)) 0); [done | done].
Qed.

(** ** Binary grids *)

Lemma binary_get (m : list Z) (j : Z) :
  binary m = true -> arr_get m j = 0 \/ arr_get m j = 1.
Proof.
  intros Hbin. unfold arr_get. destruct (j <? 0); [by left |].
  destruct (m !! Z.to_nat j) as [v |] eqn:Hv; [| by left]. simpl.
  unfold binary in Hbin. rewrite forallb_forall in Hbin.
  specialize (Hbin v). rewrite orb_true_iff, !Z.eqb_eq in Hbin.
  apply Hbin. apply list_elem_of_In. by apply list_elem_of_lookup_2 with (Z.to_nat j).
Qed.

Lemma binary_MAP_DATA (m : list Z) (x y : Z) :
  binary m = true -> MAP_DATA m x y = 0 \/ MAP_DATA m x y = 1.
Proof.
  intros Hbin. unfold MAP_DATA.
  destruct ((x <? 0) || (x >=? MAP_WIDTH) || (y <? 0) || (y >=? MAP_HEIGHT));
    [by right | by apply binary_get].
Qed.

Lemma wall_indicator (m : list Z) (x y : Z) :
  binary m = true -> (if is_wall m x y then 1 else 0) = MAP_DATA m x y.
Proof.
  intros Hbin. unfold is_wall.
  destruct (binary_MAP_DATA m x y Hbin) as [-> | ->]; done.
Qed.

Lemma open_indicator (m : list Z) (x y : Z) :
  binary m = true -> (if negb (is_wall m x y) then 1 else 0) = 1 - MAP_DATA m x y.
Proof.
  intros Hbin. unfold is_wall.
  destruct (binary_MAP_DATA m x y Hbin) as [-> | ->]; done.
Qed.

Lemma wall_count_sum (m : list Z) (x y : Z) :
  binary m = true -> wall_count m x y = neighbour_sum m x y.
Proof.
  intros Hbin. unfold wall_count, neighbour_sum, moore. simpl.
  rewrite !wall_indicator by done. lia.
Qed.

Lemma open_orthogonal_count_sum (m : list Z) (x y : Z) :
  binary m = true -> open_orthogonal_count m x y = 4 - orthogonal_sum m x y.
Proof.
  intros Hbin. unfold open_orthogonal_count, orthogonal_sum, orthogonal. simpl.
  rewrite !open_indicator by done. lia.
Qed.

Lemma index_cell (j : Z) :
  0 <= MAP_WIDTH -> 0 <= j < MAP_WIDTH * MAP_HEIGHT ->
  exists x y, in_bounds x y /\ j = y * MAP_WIDTH + x.
Proof.
  intros HW Hj.
  assert (HW' : 0 < MAP_WIDTH).
  { destruct (Z.eq_dec MAP_WIDTH 0) as [Hz | Hnz]; [| lia].
    rewrite Hz, Z.mul_0_l in Hj. lia. }
  exists (j mod MAP_WIDTH), (j / MAP_WIDTH).
  pose proof (Z.mod_pos_bound j MAP_WIDTH HW').
  pose proof (Z.div_mod j MAP_WIDTH).
  assert (0 <= j / MAP_WIDTH) by (apply Z.div_pos; lia).
  assert (j / MAP_WIDTH < MAP_HEIGHT) by (apply Z.div_lt_upper_bound; lia).
  unfold in_bounds. lia.
Qed.

Lemma binary_insert (l : list Z) (n : nat) (v : Z) :
  binary l = true -> (v =? 0) || (v =? 1) = true -> binary (<[n := v]> l) = true.
Proof.
  unfold binary. revert n.
  induction l as [| w l IH]; intros [| n] Hb Hv; simpl in *; try done.
  - apply andb_true_iff in Hb as [_ Hb]. by rewrite Hv.
  - apply andb_true_iff in Hb as [Hw Hb]. rewrite Hw. simpl. by apply IH.
Qed.

Lemma binary_map_set (m : list Z) (x y : Z) :
  binary m = true -> binary (map_set m x y 0) = true.
Proof.
  intros Hb. unfold map_set, arr_set.
  destruct (y * MAP_WIDTH + x <? 0); [done | by apply binary_insert].
Qed.

Lemma carve_binary (m : list Z) : binary m = true -> binary (carve m) = true.
Proof. intros Hb. unfold carve. by repeat apply binary_map_set. Qed.

(** ** The claims about SmoothMapCells and FillMapHoles *)

(** C3.  One smoothing pass sets cell (x, y) to wall exactly when more than
    4 of the 9 cells of its Moore neighbourhood in the grid before the pass
    are wall (the cell itself included, positions outside the map counted
    as wall), and to open otherwise.  The new values are written to the
    buffer, which replaces the grid after the pass: the grid and the buffer
    agree after the pass and every new cell is computed from the old grid. *)
Theorem C3_smooth_pass_majority (m buffer : list Z) (x y : Z) :
  0 <= MAP_WIDTH -> 0 <= MAP_HEIGHT ->
  Z.of_nat (length m) = MAP_WIDTH * MAP_HEIGHT ->
  Z.of_nat (length buffer) = MAP_WIDTH * MAP_HEIGHT ->
  binary m = true ->
  in_bounds x y ->
  fst (smooth_pass m buffer) = snd (smooth_pass m buffer) /\
  map_get (fst (smooth_pass m buffer)) x y
  = if wall_count m x y >? 4 then 1 else 0.
Proof.
  intros HW HH Hm Hb Hbin [Hx Hy].
  destruct (smooth_pass_spec m buffer HW HH Hm Hb) as (Heq & _ & Hget).
  split; [done |]. rewrite Hget by done. rewrite wall_count_sum by done.
  destruct (Z.leb_spec (neighbour_sum m x y) 4);
    destruct (Z.gtb_spec (neighbour_sum m x y) 4); done || lia.
Qed.

(** C4.  For a cell that is open and whose accessibility entry is 0 after
    the flood fill: when the wall values of its four orthogonal neighbours
    (positions outside the map counted as wall) sum to 3, the cell is marked
    and the last loop leaves it open; otherwise it stays unmarked and is
    filled.  The sum is 3 exactly when one orthogonal neighbour is open. *)
Theorem C4_hole_preservation (m : list Z) (x y : Z) :
  3 <= MAP_WIDTH -> 3 <= MAP_HEIGHT ->
  Z.of_nat (length m) = MAP_WIDTH * MAP_HEIGHT ->
  binary m = true ->
  in_bounds x y ->
  exists acc acc_seal m',
    flood_fill (carve m) = Some acc /\
    accessible_at_seal m = Some acc_seal /\
    FillMapHoles m = Some m' /\
    (map_get (carve m) x y = 0 -> acc_at acc x y = 0 ->
     (orthogonal_sum (carve m) x y = 3 <-> open_orthogonal_count (carve m) x y = 1) /\
     (orthogonal_sum (carve m) x y = 3 ->
      acc_at acc_seal x y = 1 /\ map_get m' x y = 0) /\
     (orthogonal_sum (carve m) x y <> 3 ->
      acc_at acc_seal x y = 0 /\ map_get m' x y = 1)).
Proof.
  intros HW HH Hlen Hbin Hb. apply carve_binary in Hbin.
  destruct (FillMapHoles_cells m HW HH Hlen)
    as (acc & m' & Hflood & Hseal & Hfill & _ & _ & _ & _ & Hholes & Hcells).
  exists acc, (mark_holes (carve m) acc), m'.
  split; [done |]. split; [done |]. split; [done |].
  intros Hopen Hacc. rewrite Hholes, Hcells by done. rewrite Hopen, Hacc. simpl.
  split; [rewrite open_orthogonal_count_sum by done; lia |].
  split; intros Hsum.
  - by rewrite Hsum.
  - destruct (Z.eqb_spec (orthogonal_sum (carve m) x y) 3); done.
Qed.

(** C8.  Running the last loop of FillMapHoles (every empty cell whose
    accessibility entry is 0 becomes wall) a second time with the same
    accessibility map changes nothing. *)
Theorem C8_seal_idempotent (m acc : list Z) :
  0 <= MAP_WIDTH -> 0 <= MAP_HEIGHT ->
  Z.of_nat (length m) = MAP_WIDTH * MAP_HEIGHT ->
  fill_inaccessible (fill_inaccessible m acc) acc = fill_inaccessible m acc.
Proof.
  intros HW HH Hlen.
  destruct (fill_inaccessible_spec m acc HW HH Hlen) as [Hl1 Hget1].
  destruct (fill_inaccessible_spec (fill_inaccessible m acc) acc HW HH) as [Hl2 Hget2];
    [lia |].
  apply arr_ext; [done |].
  intros j Hj. destruct (index_cell j HW) as (x & y & [Hx Hy] & ->); [lia |].
  fold (map_get (fill_inaccessible (fill_inaccessible m acc) acc) x y).
  fold (map_get (fill_inaccessible m acc) x y).
  rewrite Hget2, Hget1 by done.
  destruct (map_get m x y =? 0) eqn:Hm; simpl.
  - destruct (arr_get acc (y * MAP_WIDTH + x) =? 0) eqn:Ha; simpl; [done |].
    by rewrite Hm.
  - by rewrite Hm.
Qed.

(** C1 (amended).  After FillMapHoles a cell is open exactly when it is
    covered by the brush (it lies in the 3x3 block of a cell reachable from
    the centre through neighbouring centres of empty 3x3 spaces), or when it
    was open before the last loop with orthogonal wall values summing to 3.
    Any two reachable cells are joined by a chain of centres of empty 3x3
    spaces.  Nothing is claimed about cells of the second kind being
    isolated. *)
Theorem C1_open_cells_characterised (m : list Z) :
  3 <= MAP_WIDTH -> 3 <= MAP_HEIGHT ->
  Z.of_nat (length m) = MAP_WIDTH * MAP_HEIGHT ->
  exists m', FillMapHoles m = Some m' /\
    (forall x y, in_bounds x y ->
       (map_get m' x y = 0 <->
        in_main m x y \/
        (map_get (carve m) x y = 0 /\ orthogonal_sum (carve m) x y = 3))) /\
    (forall x1 y1 x2 y2,
       reach (carve m) x1 y1 -> reach (carve m) x2 y2 ->
       linked (carve m) x1 y1 x2 y2).
Proof.
  intros HW HH Hlen.
  destruct (FillMapHoles_cells m HW HH Hlen)
    as (acc & m' & _ & _ & Hfill & _ & _ & _ & Hnz & _ & Hcells).
  exists m'. split; [done |]. split.
  - intros x y Hb. rewrite Hcells by done. split.
    + intros Hopen.
      destruct (Z.eqb_spec (map_get (carve m) x y) 0) as [Hc | Hc]; simpl in Hopen;
        [| done].
      destruct (Z.eqb_spec (acc_at acc x y) 0) as [Ha | Ha]; simpl in Hopen.
      * destruct (Z.eqb_spec (orthogonal_sum (carve m) x y) 3) as [Hs | Hs];
          simpl in Hopen; [by right | done].
      * left. by apply Hnz.
    + intros [Hmain | [Hc Hs]].
      * destruct (in_main_open m x y HW HH Hlen Hmain) as [_ Hc].
        apply Hnz in Hmain; [| done].
        rewrite Hc. simpl.
        destruct (Z.eqb_spec (acc_at acc x y) 0); done.
      * rewrite Hc, Hs. simpl. by rewrite andb_false_r.
  - intros x1 y1 x2 y2 H1 H2.
    pose proof (carve_seed_open m HW HH Hlen) as Hseed.
    apply linked_trans with seed_x seed_y.
    + by apply linked_sym, reach_linked.
    + by apply reach_linked.
Qed.

(** C2 (amended).  After FillMapHoles the nine cells of the 3x3 block
    centred at (MAP_WIDTH / 2, MAP_HEIGHT / 2) are open; when the last loop
    runs, the centre has the bit of value 1 of its accessibility entry set
    and every cell of the block has a non-zero entry. *)
Theorem C2_seed_block (m : list Z) :
  3 <= MAP_WIDTH -> 3 <= MAP_HEIGHT ->
  Z.of_nat (length m) = MAP_WIDTH * MAP_HEIGHT ->
  exists acc_seal m',
    accessible_at_seal m = Some acc_seal /\
    FillMapHoles m = Some m' /\
    visited acc_seal seed_x seed_y = true /\
    forall x y, near seed_x seed_y x y ->
      map_get m' x y = 0 /\ acc_at acc_seal x y <> 0.
Proof.
  intros HW HH Hlen.
  destruct (FillMapHoles_cells m HW HH Hlen)
    as (acc & m' & _ & Hseal & Hfill & _ & _ & Hvis & Hnz & Hholes & Hcells).
  exists (mark_holes (carve m) acc), m'.
  split; [done |]. split; [done |].
  assert (Hblock : forall x y, near seed_x seed_y x y ->
            in_bounds x y /\ map_get (carve m) x y = 0 /\ acc_at acc x y <> 0).
  { intros x y Hnear.
    assert (Hmain : in_main m x y).
    { exists seed_x, seed_y. split; [apply reach_seed | done]. }
    destruct (in_main_open m x y HW HH Hlen Hmain) as [Hb Hc].
    split; [done |]. split; [done |]. by apply Hnz. }
  assert (Hkeep : forall x y, near seed_x seed_y x y ->
            acc_at (mark_holes (carve m) acc) x y = acc_at acc x y).
  { intros x y Hnear. destruct (Hblock x y Hnear) as (Hb & Hc & Ha).
    rewrite Hholes by done.
    destruct (Z.eqb_spec (acc_at acc x y) 0); [done |].
    by rewrite andb_false_r. }
  split.
  - assert (Hnear : near seed_x seed_y seed_x seed_y) by (unfold near; lia).
    destruct (Hblock _ _ Hnear) as (Hb & _).
    unfold visited. rewrite Hkeep by done.
    apply (Hvis seed_x seed_y Hb). apply reach_seed.
  - intros x y Hnear. destruct (Hblock x y Hnear) as (Hb & Hc & Ha).
    split.
    + rewrite Hcells by done. rewrite Hc.
      destruct (Z.eqb_spec (acc_at acc x y) 0); [done |].
      by rewrite andb_false_r.
    + by rewrite Hkeep.
Qed.

(** C6.  The flood fill loop terminates.  An iteration either discards a
    coordinate that is already marked, leaving the map untouched and the
    stack one shorter, or marks a cell that was not marked, which lowers the
    number of unmarked entries (MAP_WIDTH * MAP_HEIGHT at the start) by one
    and pushes at most 8 coordinates.  The loop reaches an empty stack
    within 8 * MAP_WIDTH * MAP_HEIGHT + 1 iterations. *)
Theorem C6_fill_loop_terminates (m : list Z) :
  1 <= MAP_WIDTH -> 1 <= MAP_HEIGHT ->
  (exists st, fill_loop fill_fuel m fill_init = Some st /\ s (fill_stack st) = []) /\
  Z.of_nat fill_fuel = 8 * (MAP_WIDTH * MAP_HEIGHT) + 1 /\
  Z.of_nat (unvisited_count (accessible_spots fill_init)) = MAP_WIDTH * MAP_HEIGHT /\
  (forall k x y rest,
     let st := fill_after m k in
     let st' := fill_step m st in
     s (fill_stack st) = (x, y) :: rest ->
     (visited (accessible_spots st) x y = true /\
      accessible_spots st' = accessible_spots st /\
      s (fill_stack st') = rest) \/
     (visited (accessible_spots st) x y = false /\
      visited (accessible_spots st') x y = true /\
      (unvisited_count (accessible_spots st') + 1
       = unvisited_count (accessible_spots st))%nat /\
      (length (s (fill_stack st')) <= length rest + 8)%nat)).
Proof.
  intros HW HH.
  pose proof (seed_in_bounds HW HH) as Hseed.
  split.
  { destruct (fill_loop_result m Hseed) as (st & Hloop & _ & Hempty). eauto. }
  split; [unfold fill_fuel; nia |].
  split.
  { unfold fill_init. simpl. rewrite unvisited_count_replicate. nia. }
  intros k x y rest st st' Hst.
  pose proof (fill_inv_after m Hseed k) as Hinv. fold st in Hinv.
  destruct (fill_inv_head m Hseed st x y rest Hinv Hst) as [Hb _].
  destruct Hinv as (Hlen & _).
  destruct (visited (accessible_spots st) x y) eqn:Hv; [left | right].
  - unfold st'. rewrite (fill_step_discard m st x y rest Hst Hv). done.
  - unfold st'. rewrite (fill_step_mark m st x y rest Hst Hv).
    cbn [accessible_spots fill_stack].
    split; [done |]. split.
    { apply marked_visited; [done | done | done |]. by left. }
    split; [by apply marked_unvisited_count |].
    apply push_neighbors_length.
Qed.

(** C10.  A coordinate is pushed only when it is the centre of an empty 3x3
    space, which places it at least one cell away from every edge; on a map
    of at least 3 x 3 cells the seed is such a cell as well, so every
    coordinate on the stack satisfies 1 <= x <= MAP_WIDTH - 2 and
    1 <= y <= MAP_HEIGHT - 2.  The accessibility map keeps its
    MAP_WIDTH * MAP_HEIGHT entries, the entry written for the popped
    coordinate and the entries written by MARK_ACCESSIBLE_NEIGHBOR, whose
    guard holds, have indices inside it. *)
Theorem C10_fill_loop_in_bounds (m : list Z) (k : nat) :
  3 <= MAP_WIDTH -> 3 <= MAP_HEIGHT ->
  let st := fill_after m k in
  (forall x y, brush_open m x y = true -> interior x y) /\
  (forall c, In c (s (fill_stack st)) -> interior (fst c) (snd c)) /\
  Z.of_nat (length (accessible_spots st)) = MAP_WIDTH * MAP_HEIGHT /\
  (forall x y rest, s (fill_stack st) = (x, y) :: rest ->
     0 <= y * MAP_WIDTH + x < Z.of_nat (length (accessible_spots st))) /\
  (forall x y,
     (x >=? 0) && (x <? MAP_WIDTH) && (y >=? 0) && (y <? MAP_HEIGHT) = true ->
     0 <= y * MAP_WIDTH + x < Z.of_nat (length (accessible_spots st))).
Proof.
  intros HW HH st.
  pose proof (seed_interior HW HH) as Hsi.
  assert (Hseed : in_bounds seed_x seed_y) by (by apply interior_in_bounds).
  pose proof (fill_inv_after m Hseed k) as Hinv. fold st in Hinv.
  destruct Hinv as (Hlen & Hstk & _).
  split; [apply brush_open_interior |].
  assert (Hint : forall c, In c (s (fill_stack st)) -> interior (fst c) (snd c)).
  { intros c Hc. destruct (Hstk c Hc) as [[-> | Hi] _]; done. }
  split; [done |]. split; [done |]. split.
  - intros x y rest Hst. rewrite Hlen.
    destruct (interior_in_bounds x y) as [Hx Hy].
    { apply (Hint (x, y)). rewrite Hst. by left. }
    by apply cell_index_range.
  - intros x y Hguard. rewrite !andb_true_iff in Hguard.
    destruct Hguard as [[[Hx0 Hx1] Hy0] Hy1].
    apply Z.geb_le in Hx0, Hy0. apply Z.ltb_lt in Hx1, Hy1.
    rewrite Hlen. apply cell_index_range; lia.
Qed.

(** ** GenerateMapPixels *)

Lemma adjacency_spec (m : list Z) (x y : Z) :
  binary m = true -> adjacency m x y = adjacency_bits m x y.
Proof.
  intros Hbin. unfold adjacency, adjacency_bits, is_wall.
  destruct (binary_MAP_DATA m (x + 1) y Hbin) as [-> | ->];
    destruct (binary_MAP_DATA m x (y + 1) Hbin) as [-> | ->];
    destruct (binary_MAP_DATA m (x - 1) y Hbin) as [-> | ->];
    destruct (binary_MAP_DATA m x (y - 1) Hbin) as [-> | ->];
    reflexivity.
Qed.

Lemma adjacency_bits_range (m : list Z) (x y : Z) : 0 <= adjacency_bits m x y < 16.
Proof.
  unfold adjacency_bits.
  destruct (is_wall m (x + 1) y), (is_wall m x (y + 1)),
    (is_wall m (x - 1) y), (is_wall m x (y - 1)); simpl; lia.
Qed.

(** The variation bits do not reach the four low bits. *)
Lemma variation_disjoint (a r : Z) :
  0 <= a < 16 -> Z.land (Z.lor a (Z.land r VARIATION_MASK)) 15 = a.
Proof.
  intros Ha. rewrite Z.land_lor_distr_l, <- Z.land_assoc.
  change (Z.land VARIATION_MASK 15) with 0. rewrite Z.land_0_r, Z.lor_0_r.
  change 15 with (Z.ones 4). rewrite Z.land_ones by lia.
  apply Z.mod_small. simpl. lia.
Qed.

Lemma GenerateMapPixels_calls (m : list Z) (n0 : nat) :
  0 <= MAP_WIDTH -> 0 <= MAP_HEIGHT ->
  forall x y, in_bounds x y ->
    exists tile,
      fst (GenerateMapPixels m ([], n0)) !! Z.to_nat (y * MAP_WIDTH + x)
      = Some (tile, x * TILE_SIZE, y * TILE_SIZE) /\
      (is_wall m x y = true -> tile = WALL_TILE_INDEX) /\
      (is_wall m x y = false -> exists k, tile = open_tile_index m x y (rs k)).
Proof.
  intros HW HH.
  pose (P := fun (k : Z) (st : list TileCall * nat) =>
    Z.of_nat (length (fst st)) = k /\
    forall x y, in_bounds x y -> y * MAP_WIDTH + x < k ->
      exists tile,
        fst st !! Z.to_nat (y * MAP_WIDTH + x)
        = Some (tile, x * TILE_SIZE, y * TILE_SIZE) /\
        (is_wall m x y = true -> tile = WALL_TILE_INDEX) /\
        (is_wall m x y = false -> exists k, tile = open_tile_index m x y (rs k))).
  assert (HP : P (MAP_WIDTH * MAP_HEIGHT) (GenerateMapPixels m ([], n0))).
  { unfold GenerateMapPixels. apply for_cells_ind; [done | done | |].
    - split; [done |]. intros x y [Hx Hy] Hlt. nia.
    - intros x y [calls n] Hx Hy [Hlen Hdone]. simpl in Hlen.
      assert (Hb : in_bounds x y) by done.
      pose proof (cell_index_range x y Hx Hy) as Hr.
      assert (Hnew : forall call n',
                 (is_wall m x y = true -> fst (fst call) = WALL_TILE_INDEX) ->
                 (is_wall m x y = false ->
                  exists k, fst (fst call) = open_tile_index m x y (rs k)) ->
                 snd (fst call) = x * TILE_SIZE -> snd call = y * TILE_SIZE ->
                 P (y * MAP_WIDTH + x + 1) (calls ++ [call], n')).
      { intros [[tile px] py] n' Hw Ho Hpx Hpy. simpl in *. subst px py.
        unfold TileCall in *.
        split; [simpl; rewrite length_app; simpl; lia |].
        intros x' y' [Hx' Hy'] Hlt. simpl.
        destruct (decide (y' * MAP_WIDTH + x' = y * MAP_WIDTH + x)) as [Heq | Hne].
        - destruct (cell_index_inj _ _ _ _ Hx' Hx Heq) as [-> ->].
          exists tile. split; [| done].
          apply list_lookup_middle. lia.
        - destruct (Hdone x' y') as (tile' & Hl & Hrest); [done | lia |].
          exists tile'. split; [| done].
          rewrite lookup_app_l; [done |].
          pose proof (cell_index_range x' y' Hx' Hy'). lia. }
      unfold is_wall in Hnew. rewrite MAP_DATA_in in Hnew by done.
      destruct (negb (map_get m x y =? 0)) eqn:Hwall.
      + apply Hnew; simpl; try done.
      + apply Hnew; simpl; try done. intros _. by exists n. }
  destruct HP as [_ Hall]. intros x y Hb. apply Hall; [done |].
  destruct Hb as [Hx Hy]. pose proof (cell_index_range x y Hx Hy). lia.
Qed.

(** C5.  For a wall cell GenerateMapPixels passes the index 0x80 to
    WriteTile.  For an open cell it passes the adjacency mask (right
    neighbour as bit 0, down as bit 1, left as bit 2, up as bit 3, positions
    outside the map counted as wall) or-ed with a draw masked by 0x70; the
    four low bits of that index are the adjacency mask whatever the draw.
    With walls to the right and below and open cells to the left and above
    the low bits are 0b0011. *)
Theorem C5_tile_index (m : list Z) (n0 : nat) (x y : Z) :
  0 <= MAP_WIDTH -> 0 <= MAP_HEIGHT ->
  binary m = true ->
  in_bounds x y ->
  (forall r,
     open_tile_index m x y r = Z.lor (adjacency_bits m x y) (Z.land r 0x70) /\
     Z.land (open_tile_index m x y r) 15 = adjacency_bits m x y /\
     (is_wall m (x + 1) y = true -> is_wall m x (y + 1) = true ->
      is_wall m (x - 1) y = false -> is_wall m x (y - 1) = false ->
      Z.land (open_tile_index m x y r) 15 = 3)) /\
  exists tile,
    fst (GenerateMapPixels m ([], n0)) !! Z.to_nat (y * MAP_WIDTH + x)
    = Some (tile, x * TILE_SIZE, y * TILE_SIZE) /\
    (is_wall m x y = true -> tile = 0x80) /\
    (is_wall m x y = false -> exists k, tile = open_tile_index m x y (rs k)).
Proof.
  intros HW HH Hbin Hb. split; [| by apply GenerateMapPixels_calls].
  intros r. unfold open_tile_index. rewrite adjacency_spec by done.
  split; [done |].
  pose proof (variation_disjoint (adjacency_bits m x y) r (adjacency_bits_range m x y))
    as Hlow.
  split; [done |].
  intros Hr Hd Hl Hu. rewrite Hlow. unfold adjacency_bits.
  by rewrite Hr, Hd, Hl, Hu.
Qed.

(** ** GenerateRandomMapCells *)

Lemma for_cells_ext {A : Type} (body1 body2 : Z -> Z -> A -> A) (a : A) :
  (forall x y a, body1 x y a = body2 x y a) ->
  for_cells body1 a = for_cells body2 a.
Proof.
  intros Hext. unfold for_cells. revert a.
  induction (seqZ 0 MAP_HEIGHT) as [| y ys IHy]; intros a; simpl; [done |].
  rewrite <- IHy. f_equal. clear IHy. revert a.
  induction (seqZ 0 MAP_WIDTH) as [| x xs IHx]; intros a; simpl; [done |].
  by rewrite Hext, IHx.
Qed.

(** Every cell is overwritten, from one draw each, in row-major order. *)
Lemma GenerateRandomMapCells_spec (m : list Z) (n0 : nat) :
  0 <= MAP_WIDTH -> 0 <= MAP_HEIGHT ->
  Z.of_nat (length m) = MAP_WIDTH * MAP_HEIGHT ->
  snd (GenerateRandomMapCells (m, n0)) = (n0 + Z.to_nat (MAP_WIDTH * MAP_HEIGHT))%nat /\
  length (fst (GenerateRandomMapCells (m, n0))) = length m /\
  (forall x y, in_bounds x y ->
     map_get (fst (GenerateRandomMapCells (m, n0))) x y
     = if wall_draw (rs (n0 + Z.to_nat (y * MAP_WIDTH + x))) then 1 else 0).
Proof.
  intros HW HH Hlen.
  pose (P := fun (k : Z) (st : list Z * nat) =>
    snd st = (n0 + Z.to_nat k)%nat /\ length (fst st) = length m /\
    forall x y, in_bounds x y -> y * MAP_WIDTH + x < k ->
      map_get (fst st) x y
      = if wall_draw (rs (n0 + Z.to_nat (y * MAP_WIDTH + x))) then 1 else 0).
  assert (HP : P (MAP_WIDTH * MAP_HEIGHT) (GenerateRandomMapCells (m, n0))).
  { unfold GenerateRandomMapCells. apply for_cells_ind; [done | done | |].
    - split; [simpl; lia |]. split; [done |]. intros x y [Hx Hy] Hlt. nia.
    - intros x y [m' n] Hx Hy (Hn & Hl & Hdone). simpl in Hn, Hl.
      pose proof (cell_index_range x y Hx Hy) as Hr.
      split; [simpl; lia |]. split; [simpl; by rewrite map_set_length |].
      intros x' y' Hb' Hlt. simpl.
      rewrite map_get_set; [| lia | done | done].
      case_decide as Hd.
      + destruct Hd as [-> ->]. by rewrite Hn.
      + apply Hdone; [done |].
        destruct (decide (y' * MAP_WIDTH + x' = y * MAP_WIDTH + x)) as [Heq | Hne];
          [| lia].
        destruct Hb' as [Hx' Hy'].
        destruct (cell_index_inj _ _ _ _ Hx' Hx Heq) as [-> ->]. tauto. }
  destruct HP as (Hn & Hl & Hall).
  split; [done |]. split; [done |]. intros x y Hb. apply Hall; [done |].
  destruct Hb as [Hx Hy]. pose proof (cell_index_range x y Hx Hy). lia.
Qed.

(** ** The generated grid *)

Lemma binary_of_cells (m : list Z) :
  0 <= MAP_WIDTH ->
  Z.of_nat (length m) = MAP_WIDTH * MAP_HEIGHT ->
  (forall x y, in_bounds x y -> map_get m x y = 0 \/ map_get m x y = 1) ->
  binary m = true.
Proof.
  intros HW Hlen Hcells. unfold binary. apply forallb_forall. intros v Hv.
  apply list_elem_of_In, list_elem_of_lookup in Hv as [i Hi].
  pose proof (lookup_lt_Some _ _ _ Hi) as Hlt.
  destruct (index_cell (Z.of_nat i) HW) as (x & y & Hb & Hidx); [lia |].
  specialize (Hcells x y Hb). unfold map_get, arr_get in Hcells.
  rewrite <- Hidx in Hcells.
  destruct (Z.ltb_spec (Z.of_nat i) 0); [lia |].
  rewrite Nat2Z.id, Hi in Hcells. simpl in Hcells.
  rewrite orb_true_iff, !Z.eqb_eq. done.
Qed.

Lemma smooth_pass_binary (m buffer : list Z) :
  0 <= MAP_WIDTH -> 0 <= MAP_HEIGHT ->
  Z.of_nat (length m) = MAP_WIDTH * MAP_HEIGHT ->
  Z.of_nat (length buffer) = MAP_WIDTH * MAP_HEIGHT ->
  Z.of_nat (length (fst (smooth_pass m buffer))) = MAP_WIDTH * MAP_HEIGHT /\
  Z.of_nat (length (snd (smooth_pass m buffer))) = MAP_WIDTH * MAP_HEIGHT /\
  binary (fst (smooth_pass m buffer)) = true.
Proof.
  intros HW HH Hm Hb.
  destruct (smooth_pass_spec m buffer HW HH Hm Hb) as (Heq & Hl & Hget).
  split; [done |]. split; [by rewrite <- Heq |].
  apply binary_of_cells; [done | done |].
  intros x y [Hx Hy]. rewrite Hget by done.
  destruct (neighbour_sum m x y <=? 4); [by left | by right].
Qed.

Lemma SmoothMapCells_binary (m : list Z) :
  0 <= MAP_WIDTH -> 0 <= MAP_HEIGHT ->
  Z.of_nat (length m) = MAP_WIDTH * MAP_HEIGHT ->
  Z.of_nat (length (SmoothMapCells m)) = MAP_WIDTH * MAP_HEIGHT /\
  binary (SmoothMapCells m) = true.
Proof.
  intros HW HH Hm. unfold SmoothMapCells.
  change (seqZ 0 4) with [0; 1; 2; 3]. cbn [fold_left].
  set (b0 := replicate (Z.to_nat (MAP_WIDTH * MAP_HEIGHT)) 0).
  assert (Hb0 : Z.of_nat (length b0) = MAP_WIDTH * MAP_HEIGHT).
  { unfold b0. rewrite length_replicate. nia. }
  destruct (smooth_pass_binary m b0 HW HH Hm Hb0) as (Hm1 & Hb1 & _).
  destruct (smooth_pass m b0) as [m1 b1]. simpl in Hm1, Hb1.
  destruct (smooth_pass_binary m1 b1 HW HH Hm1 Hb1) as (Hm2 & Hb2 & _).
  destruct (smooth_pass m1 b1) as [m2 b2]. simpl in Hm2, Hb2.
  destruct (smooth_pass_binary m2 b2 HW HH Hm2 Hb2) as (Hm3 & Hb3 & _).
  destruct (smooth_pass m2 b2) as [m3 b3]. simpl in Hm3, Hb3.
  destruct (smooth_pass_binary m3 b3 HW HH Hm3 Hb3) as (Hm4 & _ & Hbin).
  done.
Qed.

Lemma FillMapHoles_binary (m : list Z) :
  3 <= MAP_WIDTH -> 3 <= MAP_HEIGHT ->
  Z.of_nat (length m) = MAP_WIDTH * MAP_HEIGHT ->
  binary m = true ->
  exists m', FillMapHoles m = Some m' /\
             Z.of_nat (length m') = MAP_WIDTH * MAP_HEIGHT /\ binary m' = true.
Proof.
  intros HW HH Hlen Hbin.
  destruct (FillMapHoles_cells m HW HH Hlen)
    as (acc & m' & _ & _ & Hfill & Hl & _ & _ & _ & _ & Hcells).
  exists m'. split; [done |]. split; [by rewrite Hl |].
  apply binary_of_cells; [lia | by rewrite Hl |].
  intros x y Hb. rewrite Hcells by done.
  destruct ((map_get (carve m) x y =? 0) && (acc_at acc x y =? 0) &&
            negb (orthogonal_sum (carve m) x y =? 3)); [by right |].
  apply binary_get. by apply carve_binary.
Qed.

(** On a map of at least 3 x 3 cells GenerateMapCells yields a grid of
    MAP_WIDTH * MAP_HEIGHT cells, each 0 or 1, after one draw per cell. *)
Lemma GenerateMapCells_result (m : list Z) (n0 : nat) :
  3 <= MAP_WIDTH -> 3 <= MAP_HEIGHT ->
  Z.of_nat (length m) = MAP_WIDTH * MAP_HEIGHT ->
  exists m',
    GenerateMapCells (m, n0)
    = Some (m', (n0 + Z.to_nat (MAP_WIDTH * MAP_HEIGHT))%nat) /\
    Z.of_nat (length m') = MAP_WIDTH * MAP_HEIGHT /\ binary m' = true.
Proof.
  intros HW HH Hlen.
  assert (H0W : 0 <= MAP_WIDTH) by lia. assert (H0H : 0 <= MAP_HEIGHT) by lia.
  destruct (GenerateRandomMapCells_spec m n0 H0W H0H Hlen) as (Hn & Hl & _).
  unfold GenerateMapCells.
  destruct (GenerateRandomMapCells (m, n0)) as [m1 n1]. simpl in Hn, Hl. subst n1.
  destruct (SmoothMapCells_binary m1 H0W H0H) as [Hl2 Hbin2]; [lia |].
  destruct (FillMapHoles_binary (SmoothMapCells m1) HW HH Hl2 Hbin2)
    as (m' & Hfill & Hl' & Hbin').
  exists m'. rewrite Hfill. done.
Qed.

(** ** The stack of the flood fill *)

Lemma Push_stack_ok (st : VisitStack) (x y : Z) :
  stack_ok st ->
  stack_ok (Push st x y) /\ stack_size st < capacity (Push st x y) /\
  capacity st <= capacity (Push st x y).
Proof.
  unfold stack_ok, Push, stack_size. simpl.
  intros [Hsz Hcap].
  destruct (Z.geb_spec (Z.of_nat (length (s st))) (capacity st)) as [Hfull | Hroom].
  - destruct (Z.eqb_spec (capacity st) 0) as [Hz | Hnz]; lia.
  - lia.
Qed.

Lemma Pop_stack_ok (st st' : VisitStack) (c : XY) :
  stack_ok st -> Pop st = Some (c, st') ->
  stack_ok st' /\ stack_size st' = stack_size st - 1 /\ capacity st' = capacity st.
Proof.
  unfold stack_ok, Pop, stack_size. intros [Hsz Hcap] Hpop.
  destruct (s st) as [| c' rest] eqn:Hs; [done |].
  injection Hpop as <- <-. simpl in *. lia.
Qed.

Lemma Push_stack_within (N : Z) (st : VisitStack) (x y : Z) :
  stack_within N st -> stack_size (Push st x y) <= N ->
  stack_within N (Push st x y).
Proof.
  intros (Hok & Hsz & Hcap) Hn.
  destruct (Push_stack_ok st x y Hok) as (Hok' & _ & _).
  split; [done |]. split; [done |].
  revert Hn. destruct Hok as [Hle Hc0].
  unfold Push, stack_size in *. simpl.
  destruct (Z.geb_spec (Z.of_nat (length (s st))) (capacity st)) as [Hfull | Hroom];
    [| lia].
  destruct (Z.eqb_spec (capacity st) 0); lia.
Qed.

Lemma push_fold_mono (m : list Z) (x y : Z) (os : list XY) (st : VisitStack) :
  (length (s st) <= length (s (fold_left (push_open m x y) os st)))%nat.
Proof.
  revert st. induction os as [| o os IH]; intros st; simpl; [lia |].
  etrans; [| apply IH]. unfold push_open.
  destruct (brush_open m (x + fst o) (y + snd o)); simpl; lia.
Qed.

Lemma push_fold_within (N : Z) (m : list Z) (x y : Z) (os : list XY) (st : VisitStack) :
  stack_within N st ->
  stack_size (fold_left (push_open m x y) os st) <= N ->
  stack_within N (fold_left (push_open m x y) os st).
Proof.
  revert st. induction os as [| o os IH]; intros st Hw Hn; simpl in *; [done |].
  apply IH; [| done].
  pose proof (push_fold_mono m x y os (push_open m x y st o)) as Hmono.
  unfold push_open in *.
  destruct (brush_open m (x + fst o) (y + snd o)); [| done].
  apply Push_stack_within; [done |]. unfold stack_size in *. lia.
Qed.

Lemma fill_measure_after (m : list Z) (k : nat) :
  in_bounds seed_x seed_y ->
  (fill_measure (fill_after m k) <= fill_fuel)%nat.
Proof.
  intros Hseed. induction k as [| k IH].
  - unfold fill_after. simpl. by rewrite fill_measure_init.
  - unfold fill_after in *. simpl.
    destruct (s (fill_stack (Nat.iter k (fill_step m) fill_init))) eqn:Hs.
    + by rewrite fill_step_empty.
    + pose proof (fill_measure_step m Hseed _ (fill_inv_after m Hseed k)) as Hlt.
      unfold fill_after in Hlt. rewrite Hs in Hlt.
      specialize (Hlt ltac:(done)). lia.
Qed.

Lemma fill_after_within (m : list Z) (k : nat) :
  in_bounds seed_x seed_y ->
  stack_within (8 * (MAP_WIDTH * MAP_HEIGHT) + 1) (fill_stack (fill_after m k)).
Proof.
  intros Hseed.
  assert (Hpos : 0 <= MAP_WIDTH * MAP_HEIGHT) by (destruct Hseed; nia).
  assert (Hsize : forall j,
            stack_size (fill_stack (fill_after m j))
            <= 8 * (MAP_WIDTH * MAP_HEIGHT) + 1).
  { intros j. pose proof (fill_measure_after m j Hseed) as Hm.
    unfold fill_measure, fill_fuel, stack_size in *. lia. }
  induction k as [| k IH].
  - unfold fill_after, fill_init, stack_within, stack_ok, stack_size. simpl. lia.
  - specialize (Hsize (S k)). unfold fill_after in *. simpl in *.
    set (st := Nat.iter k (fill_step m) fill_init) in *.
    destruct (s (fill_stack st)) as [| [x0 y0] rest] eqn:Hs.
    { by rewrite fill_step_empty. }
    assert (Hpop : stack_within (8 * (MAP_WIDTH * MAP_HEIGHT) + 1)
                     (mkStack rest (capacity (fill_stack st)))).
    { destruct IH as ((Hle & Hc) & Hn & Hcap).
      unfold stack_within, stack_ok, stack_size in *. rewrite Hs in *. simpl in *.
      lia. }
    destruct (visited (accessible_spots st) x0 y0) eqn:Hv.
    + by rewrite (fill_step_discard m st x0 y0 rest Hs Hv).
    + rewrite (fill_step_mark m st x0 y0 rest Hs Hv) in *.
      cbn [fill_stack] in *. unfold push_neighbors in *.
      by apply push_fold_within.
Qed.

(** X1.  Push keeps the stack consistent: after it the size is at most the
    capacity, the slot it wrote, of index the old size, lies inside the
    allocation, and the capacity did not shrink. *)
Theorem X1_push_within_capacity (st : VisitStack) (x y : Z) :
  stack_ok st ->
  stack_ok (Push st x y) /\
  stack_size st < capacity (Push st x y) /\
  capacity st <= capacity (Push st x y) /\
  exists st', Pop (Push st x y) = Some ((x, y), st') /\ s st' = s st.
Proof.
  intros Hok. destruct (Push_stack_ok st x y Hok) as (H1 & H2 & H3).
  split; [done |]. split; [done |]. split; [done |].
  eexists. split; [reflexivity | done].
Qed.

(** X2.  Throughout the flood fill the stack is consistent, holds at most
    8 * MAP_WIDTH * MAP_HEIGHT + 1 coordinates and its capacity is at most
    the larger of 16 and twice that number. *)
Theorem X2_fill_stack_bounded (m : list Z) (k : nat) :
  1 <= MAP_WIDTH -> 1 <= MAP_HEIGHT ->
  let st := fill_stack (fill_after m k) in
  stack_ok st /\
  stack_size st <= 8 * (MAP_WIDTH * MAP_HEIGHT) + 1 /\
  capacity st <= Z.max 16 (2 * (8 * (MAP_WIDTH * MAP_HEIGHT) + 1)).
Proof.
  intros HW HH. apply fill_after_within. by apply seed_in_bounds.
Qed.

(** X3.  The flood fill ends and marks exactly the cells the brush can
    reach: the seed and every centre of an empty 3x3 space linked to it
    through neighbouring centres.  It leaves a non-zero entry exactly on the
    cells of the map that lie in the 3x3 block of a marked cell. *)
Theorem X3_flood_fill_exact (m : list Z) :
  1 <= MAP_WIDTH -> 1 <= MAP_HEIGHT ->
  exists acc, flood_fill m = Some acc /\
    Z.of_nat (length acc) = MAP_WIDTH * MAP_HEIGHT /\
    (forall x y, in_bounds x y -> (visited acc x y = true <-> reach m x y)) /\
    (forall x y, in_bounds x y ->
       (acc_at acc x y <> 0 <->
        exists cx cy, in_bounds cx cy /\ visited acc cx cy = true /\ near cx cy x y)).
Proof.
  intros HW HH. pose proof (seed_in_bounds HW HH) as Hseed.
  destruct (flood_fill_result m Hseed) as (acc & Hflood & Hlen & Hvis & Hnz).
  exists acc. split; [done |]. split; [done |]. split; [done |].
  intros x y Hb. rewrite Hnz by done. split.
  - intros (cx & cy & Hr & Hnear). exists cx, cy.
    pose proof (reach_in_bounds m cx cy Hseed Hr) as Hbc.
    split; [done |]. split; [by apply Hvis | done].
  - intros (cx & cy & Hbc & Hv & Hnear). exists cx, cy.
    split; [by apply Hvis | done].
Qed.

(** ** GenerateRandomMapCells and SmoothMapCells as functions of the grid *)

(** X4.  GenerateRandomMapCells overwrites every cell: cell (x, y) becomes
    wall exactly when the draw number [y * MAP_WIDTH + x] after the ones
    already consumed passes the wall test, and open otherwise.  It consumes
    MAP_WIDTH * MAP_HEIGHT draws and keeps the size of the grid. *)
Theorem X4_random_cells (m : list Z) (n0 : nat) (x y : Z) :
  0 <= MAP_WIDTH -> 0 <= MAP_HEIGHT ->
  Z.of_nat (length m) = MAP_WIDTH * MAP_HEIGHT ->
  in_bounds x y ->
  snd (GenerateRandomMapCells (m, n0)) = (n0 + Z.to_nat (MAP_WIDTH * MAP_HEIGHT))%nat /\
  length (fst (GenerateRandomMapCells (m, n0))) = length m /\
  map_get (fst (GenerateRandomMapCells (m, n0))) x y
  = if wall_draw (rs (n0 + Z.to_nat (y * MAP_WIDTH + x))) then 1 else 0.
Proof.
  intros HW HH Hlen Hb.
  destruct (GenerateRandomMapCells_spec m n0 HW HH Hlen) as (Hn & Hl & Hget).
  split; [done |]. split; [done |]. by apply Hget.
Qed.

Lemma index_div_mod (x y : Z) :
  0 <= x < MAP_WIDTH ->
  (y * MAP_WIDTH + x) mod MAP_WIDTH = x /\ (y * MAP_WIDTH + x) / MAP_WIDTH = y.
Proof.
  clear wall_draw rs.
  intros Hx. split.
  - rewrite Z.add_comm, Z.mod_add by lia. apply Z.mod_small. lia.
  - rewrite Z.add_comm, Z.div_add by lia. rewrite Z.div_small by lia. lia.
Qed.

Lemma majority_length (m : list Z) :
  0 <= MAP_WIDTH -> 0 <= MAP_HEIGHT ->
  Z.of_nat (length (majority m)) = MAP_WIDTH * MAP_HEIGHT.
Proof.
  intros HW HH. unfold majority. rewrite length_fmap, length_seqZ. nia.
Qed.

Lemma majority_get (m : list Z) (x y : Z) :
  in_bounds x y ->
  map_get (majority m) x y = if neighbour_sum m x y <=? 4 then 0 else 1.
Proof.
  intros [Hx Hy]. pose proof (cell_index_range x y Hx Hy) as Hr.
  unfold map_get, arr_get, majority.
  destruct (Z.ltb_spec (y * MAP_WIDTH + x) 0); [lia |].
  rewrite list_lookup_fmap, lookup_seqZ_lt by lia. simpl.
  unfold majority_cell. rewrite Z2Nat.id by lia. rewrite Z.add_0_l.
  destruct (index_div_mod x y Hx) as [-> ->]. done.
Qed.

(** The grid a pass leaves does not depend on what the buffer held. *)
Lemma smooth_pass_majority (m buffer : list Z) :
  0 <= MAP_WIDTH -> 0 <= MAP_HEIGHT ->
  Z.of_nat (length m) = MAP_WIDTH * MAP_HEIGHT ->
  Z.of_nat (length buffer) = MAP_WIDTH * MAP_HEIGHT ->
  smooth_pass m buffer = (majority m, majority m).
Proof.
  intros HW HH Hm Hb.
  destruct (smooth_pass_spec m buffer HW HH Hm Hb) as (Heq & Hl & Hget).
  assert (Hfst : fst (smooth_pass m buffer) = majority m).
  { apply arr_ext.
    - pose proof (majority_length m HW HH). lia.
    - intros j Hj. destruct (index_cell j HW) as (x & y & Hb' & ->); [lia |].
      fold (map_get (fst (smooth_pass m buffer)) x y).
      fold (map_get (majority m) x y).
      destruct Hb' as [Hx Hy]. rewrite Hget by done. by rewrite majority_get. }
  destruct (smooth_pass m buffer) as [m1 b1]. simpl in *. by subst.
Qed.

(** X5.  SmoothMapCells is four applications of the majority rule to the
    whole grid, each computed from the grid before it: the result does not
    depend on the contents of the scratch buffer, which [malloc] leaves
    uninitialised.  Whatever the cells held, the result has
    MAP_WIDTH * MAP_HEIGHT cells, each 0 or 1. *)
Theorem X5_smooth_is_majority (m buffer1 buffer2 : list Z) :
  0 <= MAP_WIDTH -> 0 <= MAP_HEIGHT ->
  Z.of_nat (length m) = MAP_WIDTH * MAP_HEIGHT ->
  Z.of_nat (length buffer1) = MAP_WIDTH * MAP_HEIGHT ->
  Z.of_nat (length buffer2) = MAP_WIDTH * MAP_HEIGHT ->
  smooth_pass m buffer1 = smooth_pass m buffer2 /\
  fst (smooth_pass m buffer1) = majority m /\
  SmoothMapCells m = majority (majority (majority (majority m))) /\
  Z.of_nat (length (SmoothMapCells m)) = MAP_WIDTH * MAP_HEIGHT /\
  binary (SmoothMapCells m) = true.
Proof.
  intros HW HH Hm Hb1 Hb2.
  split; [by rewrite !smooth_pass_majority |].
  split; [by rewrite smooth_pass_majority |].
  split; [| by apply SmoothMapCells_binary].
  unfold SmoothMapCells. change (seqZ 0 4) with [0; 1; 2; 3]. cbn [fold_left].
  assert (Hb0 : Z.of_nat (length (replicate (Z.to_nat (MAP_WIDTH * MAP_HEIGHT)) 0))
                = MAP_WIDTH * MAP_HEIGHT) by (rewrite length_replicate; nia).
  pose proof (majority_length m HW HH) as Hl1.
  pose proof (majority_length (majority m) HW HH) as Hl2.
  pose proof (majority_length (majority (majority m)) HW HH) as Hl3.
  rewrite (smooth_pass_majority m) by done.
  rewrite (smooth_pass_majority (majority m)) by done.
  rewrite (smooth_pass_majority (majority (majority m))) by done.
  rewrite (smooth_pass_majority (majority (majority (majority m)))) by done.
  done.
Qed.

Lemma bytes_get (m : list Z) (j : Z) : bytes m = true -> 0 <= arr_get m j <= 255.
Proof.
  intros Hb. unfold arr_get. destruct (j <? 0); [lia |].
  destruct (m !! Z.to_nat j) as [v |] eqn:Hv; simpl; [| lia].
  unfold bytes in Hb. rewrite forallb_forall in Hb.
  specialize (Hb v). rewrite andb_true_iff, !Z.leb_le in Hb.
  apply Hb. apply list_elem_of_In. by apply list_elem_of_lookup_2 with (Z.to_nat j).
Qed.

Lemma bytes_MAP_DATA (m : list Z) (x y : Z) : bytes m = true -> 0 <= MAP_DATA m x y.
Proof.
  intros Hb. unfold MAP_DATA.
  destruct ((x <? 0) || (x >=? MAP_WIDTH) || (y <? 0) || (y >=? MAP_HEIGHT));
    [lia |]. unfold map_get. pose proof (bytes_get m (y * MAP_WIDTH + x) Hb). lia.
Qed.

(** X6.  A pass turns every corner cell of the map into wall, whatever the
    grid held: five of the nine positions around a corner lie outside the
    map and count as wall. *)
Theorem X6_smooth_corners (m buffer : list Z) (x y : Z) :
  0 <= MAP_WIDTH -> 0 <= MAP_HEIGHT ->
  Z.of_nat (length m) = MAP_WIDTH * MAP_HEIGHT ->
  Z.of_nat (length buffer) = MAP_WIDTH * MAP_HEIGHT ->
  bytes m = true ->
  in_bounds x y ->
  x = 0 \/ x = MAP_WIDTH - 1 ->
  y = 0 \/ y = MAP_HEIGHT - 1 ->
  map_get (fst (smooth_pass m buffer)) x y = 1.
Proof.
  intros HW HH Hm Hb Hbytes [Hx Hy] Hcx Hcy.
  destruct (smooth_pass_spec m buffer HW HH Hm Hb) as (_ & _ & Hget).
  rewrite Hget by done.
  assert (Hout : forall x' y', ~ in_bounds x' y' -> MAP_DATA m x' y' = 1)
    by (intros; by apply MAP_DATA_out).
  pose proof (fun x' y' => bytes_MAP_DATA m x' y' Hbytes) as Hnn.
  unfold neighbour_sum.
  pose proof (Hnn (x - 1) (y - 1)). pose proof (Hnn x (y - 1)).
  pose proof (Hnn (x + 1) (y - 1)). pose proof (Hnn (x - 1) y).
  pose proof (Hnn x y). pose proof (Hnn (x + 1) y).
  pose proof (Hnn (x - 1) (y + 1)). pose proof (Hnn x (y + 1)).
  pose proof (Hnn (x + 1) (y + 1)).
  destruct Hcx as [Hx0 | Hx1]; destruct Hcy as [Hy0 | Hy1].
  - rewrite (Hout (x - 1) (y - 1)), (Hout x (y - 1)), (Hout (x + 1) (y - 1)),
      (Hout (x - 1) y), (Hout (x - 1) (y + 1)) in * by (unfold in_bounds; lia).
    destruct (Z.leb_spec (1 + 1 + 1 + 1 + MAP_DATA m x y + MAP_DATA m (x + 1) y + 1 +
                          MAP_DATA m x (y + 1) + MAP_DATA m (x + 1) (y + 1)) 4);
      [lia | done].
  - rewrite (Hout (x - 1) (y - 1)), (Hout (x - 1) y), (Hout (x - 1) (y + 1)),
      (Hout x (y + 1)), (Hout (x + 1) (y + 1)) in * by (unfold in_bounds; lia).
    destruct (Z.leb_spec (1 + MAP_DATA m x (y - 1) + MAP_DATA m (x + 1) (y - 1) + 1 +
                          MAP_DATA m x y + MAP_DATA m (x + 1) y + 1 + 1 + 1) 4);
      [lia | done].
  - rewrite (Hout (x - 1) (y - 1)), (Hout x (y - 1)), (Hout (x + 1) (y - 1)),
      (Hout (x + 1) y), (Hout (x + 1) (y + 1)) in * by (unfold in_bounds; lia).
    destruct (Z.leb_spec (1 + 1 + 1 + MAP_DATA m (x - 1) y + MAP_DATA m x y + 1 +
                          MAP_DATA m (x - 1) (y + 1) + MAP_DATA m x (y + 1) + 1) 4);
      [lia | done].
  - rewrite (Hout (x + 1) (y - 1)), (Hout (x + 1) y), (Hout (x - 1) (y + 1)),
      (Hout x (y + 1)), (Hout (x + 1) (y + 1)) in * by (unfold in_bounds; lia).
    destruct (Z.leb_spec (MAP_DATA m (x - 1) (y - 1) + MAP_DATA m x (y - 1) + 1 +
                          MAP_DATA m (x - 1) y + MAP_DATA m x y + 1 + 1 + 1 + 1) 4);
      [lia | done].
Qed.

Lemma MAP_DATA_mono (m1 m2 : list Z) (x y : Z) :
  (forall j, arr_get m1 j <= arr_get m2 j) -> MAP_DATA m1 x y <= MAP_DATA m2 x y.
Proof.
  intros Hle. unfold MAP_DATA, map_get.
  destruct ((x <? 0) || (x >=? MAP_WIDTH) || (y <? 0) || (y >=? MAP_HEIGHT));
    [lia | apply Hle].
Qed.

(** X7.  A pass is monotone: when every cell of one grid is at most the
    cell of another, the same holds after a pass, so adding walls to the
    input never opens a cell of the output. *)
Theorem X7_smooth_monotone (m1 m2 buffer1 buffer2 : list Z) (x y : Z) :
  0 <= MAP_WIDTH -> 0 <= MAP_HEIGHT ->
  Z.of_nat (length m1) = MAP_WIDTH * MAP_HEIGHT ->
  Z.of_nat (length m2) = MAP_WIDTH * MAP_HEIGHT ->
  Z.of_nat (length buffer1) = MAP_WIDTH * MAP_HEIGHT ->
  Z.of_nat (length buffer2) = MAP_WIDTH * MAP_HEIGHT ->
  (forall j, arr_get m1 j <= arr_get m2 j) ->
  in_bounds x y ->
  map_get (fst (smooth_pass m1 buffer1)) x y
  <= map_get (fst (smooth_pass m2 buffer2)) x y.
Proof.
  intros HW HH Hm1 Hm2 Hb1 Hb2 Hle [Hx Hy].
  destruct (smooth_pass_spec m1 buffer1 HW HH Hm1 Hb1) as (_ & _ & Hget1).
  destruct (smooth_pass_spec m2 buffer2 HW HH Hm2 Hb2) as (_ & _ & Hget2).
  rewrite Hget1, Hget2 by done.
  assert (Hsum : neighbour_sum m1 x y <= neighbour_sum m2 x y).
  { unfold neighbour_sum.
    pose proof (fun x' y' => MAP_DATA_mono m1 m2 x' y' Hle) as Hc.
    pose proof (Hc (x - 1) (y - 1)). pose proof (Hc x (y - 1)).
    pose proof (Hc (x + 1) (y - 1)). pose proof (Hc (x - 1) y).
    pose proof (Hc x y). pose proof (Hc (x + 1) y).
    pose proof (Hc (x - 1) (y + 1)). pose proof (Hc x (y + 1)).
    pose proof (Hc (x + 1) (y + 1)). lia. }
  destruct (Z.leb_spec (neighbour_sum m1 x y) 4);
    destruct (Z.leb_spec (neighbour_sum m2 x y) 4); lia.
Qed.

(** ** FillMapHoles: what it changes *)


Lemma arr_get_set_cases (a : list Z) (i j v : Z) :
  arr_get (arr_set a i v) j = v \/ arr_get (arr_set a i v) j = arr_get a j.
Proof.
  destruct (decide (0 <= i < Z.of_nat (length a))) as [Hin | Hout].
  - rewrite arr_get_set by done. case_decide; auto.
  - right. f_equal. unfold arr_set. destruct (Z.ltb_spec i 0); [done |].
    apply list_insert_ge. lia.
Qed.

Lemma arr_get_outside (a : list Z) (j : Z) :
  j < 0 \/ Z.of_nat (length a) <= j -> arr_get a j = 0.
Proof.
  intros Hj. unfold arr_get. destruct (Z.ltb_spec j 0); [done |].
  rewrite lookup_ge_None_2 by lia. done.
Qed.

Lemma lor2_range (v : Z) : 0 <= v <= 3 -> 0 <= Z.lor v 2 <= 3.
Proof.
  intros Hv. assert (Hc : v = 0 \/ v = 1 \/ v = 2 \/ v = 3) by lia.
  destruct Hc as [-> | [-> | [-> | ->]]]; split; vm_compute; discriminate.
Qed.

Lemma fill_step_range (m : list Z) (st : FillState) :
  Z.of_nat (length (accessible_spots st)) = MAP_WIDTH * MAP_HEIGHT ->
  (forall j, 0 <= arr_get (accessible_spots st) j <= 3) ->
  forall j, 0 <= arr_get (accessible_spots (fill_step m st)) j <= 3.
Proof.
  intros Hlen Hrange j.
  destruct (s (fill_stack st)) as [| [x0 y0] rest] eqn:Hs.
  { by rewrite fill_step_empty. }
  destruct (visited (accessible_spots st) x0 y0) eqn:Hv.
  - rewrite (fill_step_discard m st x0 y0 rest Hs Hv). simpl. apply Hrange.
  - rewrite (fill_step_mark m st x0 y0 rest Hs Hv). cbn [accessible_spots].
    assert (Hset : 0 <= arr_get (arr_set (accessible_spots st)
                                   (y0 * MAP_WIDTH + x0) 1) j <= 3).
    { destruct (arr_get_set_cases (accessible_spots st) (y0 * MAP_WIDTH + x0) j 1)
        as [-> | ->]; [lia | apply Hrange]. }
    rewrite mark_neighbors_fold.
    destruct (marks_either x0 y0 mark_offsets
                (arr_set (accessible_spots st) (y0 * MAP_WIDTH + x0) 1) j)
      as [-> | ->]; [by rewrite arr_set_length | done | by apply lor2_range].
Qed.

Lemma fill_after_range (m : list Z) (k : nat) (j : Z) :
  in_bounds seed_x seed_y ->
  0 <= arr_get (accessible_spots (fill_after m k)) j <= 3.
Proof.
  intros Hseed. revert j. induction k as [| k IH]; intros j.
  - unfold fill_after, fill_init. simpl. rewrite arr_get_zeros. lia.
  - unfold fill_after in *. simpl. apply fill_step_range; [| done].
    by destruct (fill_inv_after m Hseed k) as [Hlen _].
Qed.

(** X9.  Every entry of the accessibility map is 0, 1, 2 or 3, after each
    iteration of the flood fill, when it ends, and after the loop that marks
    the single-cell holes: the entries fit the byte they are stored in. *)
Theorem X9_accessible_range (m m1 : list Z) :
  1 <= MAP_WIDTH -> 1 <= MAP_HEIGHT ->
  (forall k j, 0 <= arr_get (accessible_spots (fill_after m k)) j <= 3) /\
  exists acc, flood_fill m = Some acc /\
    (forall j, 0 <= arr_get acc j <= 3) /\
    (forall j, 0 <= arr_get (mark_holes m1 acc) j <= 3).
Proof.
  intros HW HH. pose proof (seed_in_bounds HW HH) as Hseed.
  split; [intros k j; by apply fill_after_range |].
  destruct (fill_loop_iter m Hseed fill_fuel fill_init) as (k & _ & Hloop & _).
  { by apply fill_inv_init. }
  { rewrite fill_measure_init by done. lia. }
  exists (accessible_spots (Nat.iter k (fill_step m) fill_init)).
  unfold flood_fill. rewrite Hloop. simpl. split; [done |].
  assert (Hrange : forall j,
            0 <= arr_get (accessible_spots (Nat.iter k (fill_step m) fill_init)) j <= 3).
  { intros j. by apply (fill_after_range m k j). }
  split; [done |]. intros j.
  destruct (fill_inv_after m Hseed k) as [Hlen _]. unfold fill_after in Hlen.
  destruct (mark_holes_spec m1 _ ltac:(lia) ltac:(lia) Hlen) as [Hl Hget].
  destruct (decide (0 <= j < MAP_WIDTH * MAP_HEIGHT)) as [Hin | Hout].
  - destruct (index_cell j ltac:(lia) Hin) as (x & y & [Hx Hy] & ->).
    rewrite Hget by done.
    destruct ((map_get m1 x y =? 0) && _ && _); [lia | apply Hrange].
  - rewrite arr_get_outside by lia. lia.
Qed.

(** The grid of GenerateMapCells, allocation apart: it has
    MAP_WIDTH * MAP_HEIGHT cells, each 0 or 1, one draw per cell has been
    consumed, and it does not depend on what the grid held before. *)
Lemma GenerateMapCells_grid (m1 m2 : list Z) (n0 : nat) :
  3 <= MAP_WIDTH -> 3 <= MAP_HEIGHT ->
  Z.of_nat (length m1) = MAP_WIDTH * MAP_HEIGHT ->
  Z.of_nat (length m2) = MAP_WIDTH * MAP_HEIGHT ->
  exists m',
    GenerateMapCells (m1, n0)
    = Some (m', (n0 + Z.to_nat (MAP_WIDTH * MAP_HEIGHT))%nat) /\
    GenerateMapCells (m2, n0) = GenerateMapCells (m1, n0) /\
    Z.of_nat (length m') = MAP_WIDTH * MAP_HEIGHT /\
    binary m' = true.
Proof.
  intros HW HH H1 H2.
  destruct (GenerateMapCells_result m1 n0 HW HH H1) as (m' & Hgen & Hl & Hbin).
  exists m'. split; [done |]. split; [| done].
  assert (H0W : 0 <= MAP_WIDTH) by lia. assert (H0H : 0 <= MAP_HEIGHT) by lia.
  destruct (GenerateRandomMapCells_spec m1 n0 H0W H0H H1) as (Hn1 & Hl1 & Hg1).
  destruct (GenerateRandomMapCells_spec m2 n0 H0W H0H H2) as (Hn2 & Hl2 & Hg2).
  unfold GenerateMapCells.
  destruct (GenerateRandomMapCells (m1, n0)) as [r1 k1].
  destruct (GenerateRandomMapCells (m2, n0)) as [r2 k2].
  simpl in *. subst k1 k2.
  assert (Heq : r2 = r1).
  { apply arr_ext; [lia |].
    intros j Hj. destruct (index_cell j H0W) as (x & y & Hb & ->); [lia |].
    fold (map_get r2 x y). fold (map_get r1 x y). by rewrite Hg1, Hg2. }
  by rewrite Heq.
Qed.

End WallMap.

(** ** Determinism *)

Lemma GenerateRandomMapCells_ext (W H : Z) (wd : Z -> bool) (rs1 rs2 : nat -> Z)
    (st : list Z * nat) :
  (forall n, rs1 n = rs2 n) ->
  GenerateRandomMapCells W H wd rs1 st = GenerateRandomMapCells W H wd rs2 st.
Proof.
  intros Hrs. unfold GenerateRandomMapCells. apply for_cells_ext.
  intros x y [m n]. by rewrite Hrs.
Qed.

Lemma GenerateRandomMapCells_fresh (W H : Z) (wd : Z -> bool) (rs : nat -> Z)
    (m1 m2 : list Z) (n0 : nat) :
  0 <= W -> 0 <= H ->
  Z.of_nat (length m1) = W * H -> Z.of_nat (length m2) = W * H ->
  GenerateRandomMapCells W H wd rs (m1, n0) = GenerateRandomMapCells W H wd rs (m2, n0).
Proof.
  intros HW HH H1 H2.
  destruct (GenerateRandomMapCells_spec W H wd rs m1 n0 HW HH H1) as (Hn1 & Hl1 & Hg1).
  destruct (GenerateRandomMapCells_spec W H wd rs m2 n0 HW HH H2) as (Hn2 & Hl2 & Hg2).
  destruct (GenerateRandomMapCells W H wd rs (m1, n0)) as [r1 k1].
  destruct (GenerateRandomMapCells W H wd rs (m2, n0)) as [r2 k2].
  simpl in *. f_equal; [| congruence].
  apply arr_ext; [lia |].
  intros j Hj. destruct (index_cell W H j HW) as (x & y & Hb & ->); [lia |].
  fold (map_get W r1 x y). fold (map_get W r2 x y).
  by rewrite Hg1, Hg2.
Qed.

Lemma GenerateMapPixels_ext (W H : Z) (rs1 rs2 : nat -> Z) (m : list Z)
    (st : list TileCall * nat) :
  (forall n, rs1 n = rs2 n) ->
  GenerateMapPixels W H rs1 m st = GenerateMapPixels W H rs2 m st.
Proof.
  intros Hrs. unfold GenerateMapPixels. apply for_cells_ext.
  intros x y [calls n]. by rewrite Hrs.
Qed.

(** C7.  Two runs with the same map size, the same wall test and the same
    sequence of random values produce the same grid and the same tile
    indices: GenerateMapCells gives the same grid whatever the grid buffer
    held before, GenerateMapPixels the same calls of WriteTile, and [main]
    the same result. *)
Theorem C7_deterministic (W H : Z) (wd : Z -> bool) (rs1 rs2 : nat -> Z)
    (m1 m2 : list Z) (n0 : nat) (env : Env) :
  0 <= W -> 0 <= H ->
  Z.of_nat (length m1) = W * H -> Z.of_nat (length m2) = W * H ->
  (forall n, rs1 n = rs2 n) ->
  GenerateMapCells W H wd rs1 (m1, n0) = GenerateMapCells W H wd rs2 (m2, n0) /\
  (forall m st, GenerateMapPixels W H rs1 m st = GenerateMapPixels W H rs2 m st) /\
  main W H wd rs1 env = main W H wd rs2 env.
Proof.
  intros HW HH H1 H2 Hrs.
  assert (Hpix : forall m st,
            GenerateMapPixels W H rs1 m st = GenerateMapPixels W H rs2 m st).
  { intros m st. by apply GenerateMapPixels_ext. }
  assert (Hcells : forall st,
            GenerateMapCells W H wd rs1 st = GenerateMapCells W H wd rs2 st).
  { intros st. unfold GenerateMapCells.
    by rewrite (GenerateRandomMapCells_ext W H wd rs1 rs2 st Hrs). }
  split.
  { rewrite Hcells. unfold GenerateMapCells.
    by rewrite (GenerateRandomMapCells_fresh W H wd rs2 m1 m2 n0). }
  split; [done |].
  unfold main. rewrite Hcells.
  destruct (GenerateMapCells W H wd rs2 _) as [[m n] |]; [| done].
  by rewrite Hpix.
Qed.

(** ** Concrete runs *)

(** The scenario of the specification: on 5 x 5 cells with an open centre
    block, FillMapHoles leaves the nine cells open and the border wall, and
    the centre (2, 2) is marked accessible. *)
Example centre_block_kept :
  FillMapHoles 5 5 centre_open_5 = Some centre_open_5 /\
  (fun acc => visited 5 acc 2 2) <$> accessible_at_seal 5 5 centre_open_5 = Some true.
Proof. split; reflexivity. Qed.

(** The brush walks along a corridor three cells wide and marks its
    centre line. *)
Example corridor_marked :
  flood_fill 7 5 (carve 7 5 corridor_7x5)
  = Some [0;0;0;0;0;0;0; 0;2;2;2;2;2;0; 0;2;1;3;1;2;0; 0;2;2;2;2;2;0; 0;0;0;0;0;0;0].
Proof. reflexivity. Qed.

Lemma C3_witness :
  fst (smooth_pass 5 5 centre_open_5 (replicate 25 0))
  = snd (smooth_pass 5 5 centre_open_5 (replicate 25 0)) /\
  map_get 5 (fst (smooth_pass 5 5 centre_open_5 (replicate 25 0))) 2 2
  = (if wall_count 5 5 centre_open_5 2 2 >? 4 then 1 else 0).
Proof.
  apply (C3_smooth_pass_majority 5 5 centre_open_5 (replicate 25 0) 2 2);
    [lia | lia | reflexivity | reflexivity | reflexivity | unfold in_bounds; lia].
Defined.

(** The notch at (5, 3) is not reached by the brush, has one open
    orthogonal neighbour and stays open. *)
Lemma C4_witness :
  exists m', FillMapHoles 7 7 notch_7 = Some m' /\ map_get 7 m' 5 3 = 0.
Proof.
  destruct (C4_hole_preservation 7 7 notch_7 5 3)
    as (acc & acc_seal & m' & Hflood & _ & Hfill & Hcase);
    [lia | lia | reflexivity | reflexivity | unfold in_bounds; lia |].
  exists m'. split; [exact Hfill |].
  assert (Hacc : (fun a => acc_at 7 a 5 3) <$> flood_fill 7 7 (carve 7 7 notch_7)
                 = Some 0) by reflexivity.
  rewrite Hflood in Hacc. injection Hacc as Hacc.
  destruct (Hcase eq_refl Hacc) as (_ & Hkeep & _).
  apply Hkeep. reflexivity.
Defined.

Lemma C8_witness :
  fill_inaccessible 5 5 (fill_inaccessible 5 5 centre_open_5 (replicate 25 0))
    (replicate 25 0)
  = fill_inaccessible 5 5 centre_open_5 (replicate 25 0).
Proof.
  apply (C8_seal_idempotent 5 5 centre_open_5 (replicate 25 0));
    [lia | lia | reflexivity].
Defined.

(** The centre of the carved block stays open. *)
Lemma C1_witness :
  exists m', FillMapHoles 7 7 notch_7 = Some m' /\ map_get 7 m' 3 3 = 0.
Proof.
  destruct (C1_open_cells_characterised 7 7 notch_7) as (m' & Hfill & Hopen & _);
    [lia | lia | reflexivity |].
  exists m'. split; [exact Hfill |].
  apply (Hopen 3 3); [unfold in_bounds; lia |].
  left. exists 3, 3. split; [exact (reach_seed 7 7 _) | unfold near; lia].
Defined.

Lemma C2_witness :
  exists acc_seal m',
    accessible_at_seal 5 5 all_wall_5 = Some acc_seal /\
    FillMapHoles 5 5 all_wall_5 = Some m' /\
    visited 5 acc_seal (seed_x 5) (seed_y 5) = true /\
    forall x y, near (seed_x 5) (seed_y 5) x y ->
      map_get 5 m' x y = 0 /\ acc_at 5 acc_seal x y <> 0.
Proof.
  apply (C2_seed_block 5 5 all_wall_5); [lia | lia | reflexivity].
Defined.

Lemma C6_witness :
  exists st,
    fill_loop 7 5 (fill_fuel 7 5) (carve 7 5 corridor_7x5) (fill_init 7 5) = Some st /\
    s (fill_stack st) = [].
Proof.
  exact (proj1 (C6_fill_loop_terminates 7 5 (carve 7 5 corridor_7x5)
                  ltac:(lia) ltac:(lia))).
Defined.

Lemma C10_witness :
  (forall c, In c (s (fill_stack (fill_after 7 5 (carve 7 5 corridor_7x5) 2))) ->
             interior 7 5 (fst c) (snd c)) /\
  Z.of_nat (length (accessible_spots (fill_after 7 5 (carve 7 5 corridor_7x5) 2)))
  = 7 * 5.
Proof.
  pose proof (C10_fill_loop_in_bounds 7 5 (carve 7 5 corridor_7x5) 2
                ltac:(lia) ltac:(lia)) as (_ & Hstack & Hlen & _).
  exact (conj Hstack Hlen).
Defined.

(** Walls to the right of and below (2, 2), open cells to its left and
    above it. *)
Lemma C5_witness :
  Z.land (open_tile_index 5 5 corner_5 2 2 (sample_draws 7)) 15 = 3.
Proof.
  destruct (C5_tile_index 5 5 sample_draws corner_5 0 2 2) as [Hbits _];
    [lia | lia | reflexivity | unfold in_bounds; lia |].
  destruct (Hbits (sample_draws 7)) as (_ & _ & Hcorner).
  apply Hcorner; reflexivity.
Defined.

Lemma C7_witness :
  GenerateMapCells 5 5 sample_wall_draw sample_draws (all_wall_5, O)
  = GenerateMapCells 5 5 sample_wall_draw sample_draws (centre_open_5, O).
Proof.
  exact (proj1 (C7_deterministic 5 5 sample_wall_draw sample_draws sample_draws
                  all_wall_5 centre_open_5 O valid_env
                  ltac:(lia) ltac:(lia) eq_refl eq_refl (fun n => eq_refl))).
Defined.

(** ** Where the specification and the program part *)

(** C1, as stated, fails on the reference map size.  The two cells (10, 10)
    and (11, 10), walled in and far from the centre, are each other's only
    open orthogonal neighbour: both are kept, a region of two cells that the
    brush never covers. *)
Lemma C1_counterexample :
  exists m', FillMapHoles 160 160 pocket_160 = Some m' /\
             ~ connectivity_claim 160 160 pocket_160 m'.
Proof.
  destruct (FillMapHoles_cells 160 160 pocket_160)
    as (acc & m' & Hflood & _ & Hfill & _ & _ & _ & Hnz & _ & Hcells);
    [lia | lia | vm_compute; reflexivity |].
  exists m'. split; [exact Hfill |].
  assert (Hacc : (fun a => (acc_at 160 a 10 10, acc_at 160 a 11 10))
                   <$> flood_fill 160 160 (carve 160 160 pocket_160)
                 = Some (0, 0)) by (vm_compute; reflexivity).
  rewrite Hflood in Hacc. injection Hacc as Ha10 Ha11.
  assert (Hb10 : in_bounds 160 160 10 10) by (unfold in_bounds; lia).
  assert (Hb11 : in_bounds 160 160 11 10) by (unfold in_bounds; lia).
  assert (Hc10 : map_get 160 (carve 160 160 pocket_160) 10 10 = 0)
    by (vm_compute; reflexivity).
  assert (Hc11 : map_get 160 (carve 160 160 pocket_160) 11 10 = 0)
    by (vm_compute; reflexivity).
  assert (Hs10 : orthogonal_sum 160 160 (carve 160 160 pocket_160) 10 10 = 3)
    by (vm_compute; reflexivity).
  assert (Hs11 : orthogonal_sum 160 160 (carve 160 160 pocket_160) 11 10 = 3)
    by (vm_compute; reflexivity).
  assert (Ho10 : map_get 160 m' 10 10 = 0).
  { rewrite (Hcells 10 10 Hb10), Hc10, Ha10, Hs10. reflexivity. }
  assert (Ho11 : map_get 160 m' 11 10 = 0).
  { rewrite (Hcells 11 10 Hb11), Hc11, Ha11, Hs11. reflexivity. }
  intros Hclaim.
  destruct (Hclaim 10 10 Hb10 Ho10) as [Hmain | Hiso].
  - apply (Hnz 10 10 Hb10) in Hmain. apply Hmain. exact Ha10.
  - assert (Hmain : in_main 160 160 pocket_160 11 10).
    { apply (Hiso (11, 10)).
      - left. reflexivity.
      - cbn [fst snd]. rewrite (MAP_DATA_in 160 160 m' 11 10 Hb11). exact Ho11. }
    apply (Hnz 11 10 Hb11) in Hmain. apply Hmain. exact Ha11.
Qed.

(** C2, as stated, fails on the reference map size.  On the map that is
    all wall, the cell (81, 80) of the carved block has the entry 2 when the
    last loop runs: only the "neighboring cell is accessible" bit is set,
    while the centre (80, 80) has the entry 1, so that no bit is set in the
    entries of all nine cells. *)
Lemma C2_counterexample :
  exists acc_seal,
    accessible_at_seal 160 160 all_wall_160 = Some acc_seal /\
    near (seed_x 160) (seed_y 160) 81 80 /\
    acc_at 160 acc_seal 81 80 = 2 /\
    visited 160 acc_seal 81 80 = false /\
    acc_at 160 acc_seal 80 80 = 1.
Proof.
  destruct (FillMapHoles_cells 160 160 all_wall_160)
    as (acc & m' & Hflood & Hseal & _ & _ & _ & _ & _ & Hholes & _);
    [lia | lia | vm_compute; reflexivity |].
  exists (mark_holes 160 160 (carve 160 160 all_wall_160) acc).
  split; [exact Hseal |].
  split; [vm_compute; intuition discriminate |].
  assert (Hacc : (fun a => (acc_at 160 a 81 80, acc_at 160 a 80 80))
                   <$> flood_fill 160 160 (carve 160 160 all_wall_160)
                 = Some (2, 1)) by (vm_compute; reflexivity).
  rewrite Hflood in Hacc. injection Hacc as Ha81 Ha80.
  assert (Hb81 : in_bounds 160 160 81 80) by (unfold in_bounds; lia).
  assert (Hb80 : in_bounds 160 160 80 80) by (unfold in_bounds; lia).
  assert (H81 : acc_at 160 (mark_holes 160 160 (carve 160 160 all_wall_160) acc) 81 80
                = 2).
  { rewrite (Hholes 81 80 Hb81), Ha81. cbn [Z.eqb]. rewrite andb_false_r. reflexivity. }
  assert (H80 : acc_at 160 (mark_holes 160 160 (carve 160 160 all_wall_160) acc) 80 80
                = 1).
  { rewrite (Hholes 80 80 Hb80), Ha80. cbn [Z.eqb]. rewrite andb_false_r. reflexivity. }
  split; [exact H81 |]. split; [| exact H80].
  unfold visited. rewrite H81. reflexivity.
Qed.

(** ** WriteTile: what it copies and what it leaves *)

Section TileWriterFacts.

Variables ts tiw iw : Z.
Variable tp : list Z.

Lemma write_pixels_spec (k : nat) (out : list Z) (p q : Z) :
  0 <= q -> q + 2 * Z.of_nat k <= Z.of_nat (length out) ->
  let r := fold_left (write_pixel tp) (seqZ 0 (Z.of_nat k)) (out, p, q) in
  snd (fst r) = p + 2 * Z.of_nat k /\
  snd r = q + 2 * Z.of_nat k /\
  length (fst (fst r)) = length out /\
  (forall v c, 0 <= v < Z.of_nat k -> 0 <= c <= 1 ->
     arr_get (fst (fst r)) (q + 2 * v + c)
     = if negb (arr_get tp (p + 2 * v + 1) =? 0)
       then arr_get tp (p + 2 * v + c)
       else arr_get out (q + 2 * v + c)) /\
  (forall j, j < q \/ q + 2 * Z.of_nat k <= j ->
     arr_get (fst (fst r)) j = arr_get out j).
Proof.
  intros Hq. induction k as [| k IH]; intros Hlen r.
  - subst r. simpl. split; [lia |]. split; [lia |]. split; [done |].
    split; [intros; lia | done].
  - subst r. rewrite seqZ_S, fold_left_app. simpl.
    destruct IH as (Hp & Hq' & Hl & Hdone & Hframe); [lia |].
    destruct (fold_left (write_pixel tp) (seqZ 0 (Z.of_nat k)) (out, p, q))
      as [[o1 p1] q1].
    simpl in Hp, Hq', Hl, Hdone, Hframe. subst p1 q1. simpl.
    split; [lia |]. split; [lia |].
    destruct (negb (arr_get tp (p + 2 * Z.of_nat k + 1) =? 0)) eqn:Halpha.
    + split; [by rewrite !arr_set_length |]. split.
      * intros v c Hv Hc.
        destruct (decide (v = Z.of_nat k)) as [-> | Hne].
        -- rewrite Halpha.
           assert (Hcc : c = 0 \/ c = 1) by lia. destruct Hcc as [-> | ->].
           ++ rewrite arr_get_set_ne by lia.
              rewrite !Z.add_0_r. rewrite arr_get_set_eq by lia. done.
           ++ rewrite arr_get_set_eq by (rewrite arr_set_length; lia). done.
        -- rewrite !arr_get_set_ne by lia. apply Hdone; lia.
      * intros j Hj. rewrite !arr_get_set_ne by lia. apply Hframe. lia.
    + split; [done |]. split.
      * intros v c Hv Hc.
        destruct (decide (v = Z.of_nat k)) as [-> | Hne].
        -- rewrite Halpha. apply Hframe. lia.
        -- apply Hdone; lia.
      * intros j Hj. apply Hframe. lia.
Qed.

Section Rows.
Variables tx ty x y : Z.
Hypothesis Hts : 0 <= ts.
Hypothesis Hx : 0 <= x.
Hypothesis Hxw : x + ts <= iw.
Hypothesis Hy : 0 <= y.

Lemma row_order (u u' : Z) : u < u' -> (y + u) * iw + iw <= (y + u') * iw.
Proof. intros Hu. nia. Qed.

Lemma write_row_spec (out : list Z) (u : Z) :
  0 <= u -> ((y + u + 1) * iw) * 2 <= Z.of_nat (length out) ->
  length (write_row ts tiw iw tp tx ty x y out u) = length out /\
  (forall v c, 0 <= v < ts -> 0 <= c <= 1 ->
     arr_get (write_row ts tiw iw tp tx ty x y out u) (((y + u) * iw + x + v) * 2 + c)
     = if negb (arr_get tp (((ty + u) * tiw + tx + v) * 2 + 1) =? 0)
       then arr_get tp (((ty + u) * tiw + tx + v) * 2 + c)
       else arr_get out (((y + u) * iw + x + v) * 2 + c)) /\
  (forall j, j < ((y + u) * iw + x) * 2 \/ ((y + u) * iw + x + ts) * 2 <= j ->
     arr_get (write_row ts tiw iw tp tx ty x y out u) j = arr_get out j).
Proof.
  intros Hu Hlen. unfold write_row.
  pose proof (write_pixels_spec (Z.to_nat ts) out
                (((ty + u) * tiw + tx) * 2) (((y + u) * iw + x) * 2)) as Hspec.
  rewrite Z2Nat.id in Hspec by done.
  destruct Hspec as (_ & _ & Hl & Hdone & Hframe); [nia | nia |].
  split; [done |]. split.
  - intros v c Hv Hc. specialize (Hdone v c Hv Hc).
    replace (((y + u) * iw + x + v) * 2 + c)
      with (((y + u) * iw + x) * 2 + 2 * v + c) by lia.
    replace (((ty + u) * tiw + tx + v) * 2 + 1)
      with (((ty + u) * tiw + tx) * 2 + 2 * v + 1) by lia.
    replace (((ty + u) * tiw + tx + v) * 2 + c)
      with (((ty + u) * tiw + tx) * 2 + 2 * v + c) by lia.
    exact Hdone.
  - intros j Hj. apply Hframe. lia.
Qed.

Lemma write_rows_spec (k : nat) (out : list Z) :
  ((y + Z.of_nat k) * iw) * 2 <= Z.of_nat (length out) ->
  let out' := fold_left (write_row ts tiw iw tp tx ty x y) (seqZ 0 (Z.of_nat k)) out in
  length out' = length out /\
  (forall u v c, 0 <= u < Z.of_nat k -> 0 <= v < ts -> 0 <= c <= 1 ->
     arr_get out' (((y + u) * iw + x + v) * 2 + c)
     = if negb (arr_get tp (((ty + u) * tiw + tx + v) * 2 + 1) =? 0)
       then arr_get tp (((ty + u) * tiw + tx + v) * 2 + c)
       else arr_get out (((y + u) * iw + x + v) * 2 + c)) /\
  (forall j,
     (forall u, 0 <= u < Z.of_nat k ->
        j < ((y + u) * iw + x) * 2 \/ ((y + u) * iw + x + ts) * 2 <= j) ->
     arr_get out' j = arr_get out j).
Proof.
  induction k as [| k IH]; intros Hlen out'.
  - subst out'. simpl. split; [done |]. split; [intros; lia | done].
  - subst out'. rewrite seqZ_S, fold_left_app. simpl. rewrite Z.add_0_l.
    assert (Hiw : 0 <= iw) by lia.
    destruct IH as (Hl & Hdone & Hframe); [nia |].
    set (o1 := fold_left (write_row ts tiw iw tp tx ty x y) (seqZ 0 (Z.of_nat k)) out)
      in *.
    destruct (write_row_spec o1 (Z.of_nat k)) as (Hl' & Hrow & Hrest);
      [lia | rewrite Hl; nia |].
    split; [congruence |]. split.
    + intros u v c Hu Hv Hc.
      destruct (decide (u = Z.of_nat k)) as [-> | Hne].
      * rewrite Hrow by done. rewrite Hframe; [done |].
        intros u' Hu'. pose proof (row_order u' (Z.of_nat k)). right. nia.
      * rewrite Hrest.
        -- apply Hdone; lia.
        -- pose proof (row_order u (Z.of_nat k)). left. nia.
    + intros j Hj. rewrite Hrest by (apply Hj; lia). apply Hframe.
      intros u Hu. apply Hj. lia.
Qed.
End Rows.

(** WriteTile in pixel coordinates. *)
Lemma WriteTile_pixel (out : list Z) (t x y px py c : Z) :
  0 <= ts -> 0 <= x -> x + ts <= iw -> 0 <= y ->
  ((y + ts) * iw) * 2 <= Z.of_nat (length out) ->
  0 <= px < iw -> 0 <= py -> 0 <= c <= 1 ->
  length (WriteTile ts tiw iw tp out t x y) = length out /\
  arr_get (WriteTile ts tiw iw tp out t x y) (pixel_offset iw px py + c)
  = if (x <=? px) && (px <? x + ts) && (y <=? py) && (py <? y + ts)
    then blend ts tiw tp t (py - y) (px - x) c (arr_get out (pixel_offset iw px py + c))
    else arr_get out (pixel_offset iw px py + c).
Proof.
  intros Hts Hx Hxw Hy Hlen Hpx Hpy Hc. unfold WriteTile.
  pose proof (write_rows_spec (Z.land t 15 * ts) (Z.shiftr t 4 * ts) x y
                Hts Hx Hxw Hy (Z.to_nat ts) out) as Hspec.
  rewrite Z2Nat.id in Hspec by done.
  destruct Hspec as (Hl & Hdone & Hframe); [done |].
  split; [done |]. unfold pixel_offset.
  destruct (Z.leb_spec x px); simpl.
  2: { apply Hframe. intros u Hu.
       destruct (Z.lt_trichotomy py (y + u)) as [Hlt | [Heq | Hgt]].
       - left. pose proof (row_order x y Hts Hx Hxw Hy (py - y) u). nia.
       - left. subst py. lia.
       - right. pose proof (row_order x y Hts Hx Hxw Hy u (py - y)). nia. }
  destruct (Z.ltb_spec px (x + ts)); simpl.
  2: { apply Hframe. intros u Hu.
       destruct (Z.lt_trichotomy py (y + u)) as [Hlt | [Heq | Hgt]].
       - left. pose proof (row_order x y Hts Hx Hxw Hy (py - y) u). nia.
       - right. subst py. lia.
       - right. pose proof (row_order x y Hts Hx Hxw Hy u (py - y)). nia. }
  destruct (Z.leb_spec y py); simpl.
  2: { apply Hframe. intros u Hu. left.
       pose proof (row_order x y Hts Hx Hxw Hy (py - y) u). nia. }
  destruct (Z.ltb_spec py (y + ts)); simpl.
  2: { apply Hframe. intros u Hu. right.
       pose proof (row_order x y Hts Hx Hxw Hy u (py - y)). nia. }
  specialize (Hdone (py - y) (px - x) c ltac:(lia) ltac:(lia) Hc).
  replace (((y + (py - y)) * iw + x + (px - x)) * 2 + c)
    with ((py * iw + px) * 2 + c) in Hdone by (f_equal; f_equal; nia).
  rewrite Hdone. unfold blend, tile_offset.
  replace ((Z.shiftr t 4 * ts + (py - y)) * tiw + Z.land t 15 * ts + (px - x))
    with ((Z.shiftr t 4 * ts + (py - y)) * tiw + (Z.land t 15 * ts) + (px - x)) by lia.
  done.
Qed.

End TileWriterFacts.

(** ** GenerateMapPixels: the calls it makes and the image they leave *)

Lemma for_cells_sim {A B : Type} (W H : Z) (R : A -> B -> Prop)
    (f : Z -> Z -> A -> A) (g : Z -> Z -> B -> B) (a : A) (b : B) :
  R a b ->
  (forall x y a b, R a b -> R (f x y a) (g x y b)) ->
  R (for_cells W H f a) (for_cells W H g b).
Proof.
  intros Hab Hstep. unfold for_cells. revert a b Hab.
  induction (seqZ 0 H) as [| y ys IHy]; intros a b Hab; simpl; [done |].
  apply IHy. clear IHy. revert a b Hab.
  induction (seqZ 0 W) as [| x xs IHx]; intros a b Hab; simpl; [done |].
  apply IHx. by apply Hstep.
Qed.

Lemma open_count_app (l1 l2 : list Z) :
  open_count (l1 ++ l2) = (open_count l1 + open_count l2)%nat.
Proof. induction l1 as [| v l1 IH]; simpl; [done | rewrite IH; lia]. Qed.

Lemma tile_index_range (a r : Z) :
  0 <= a < 16 -> 0 <= Z.lor a (Z.land r VARIATION_MASK) < 128.
Proof.
  intros Ha.
  assert (Hfix : Z.land (Z.lor a (Z.land r VARIATION_MASK)) 127
                 = Z.lor a (Z.land r VARIATION_MASK)).
  { rewrite Z.land_lor_distr_l, <- Z.land_assoc.
    change (Z.land VARIATION_MASK 127) with VARIATION_MASK. f_equal.
    change 127 with (Z.ones 7). rewrite Z.land_ones by lia.
    apply Z.mod_small. change (2 ^ 7) with 128. lia. }
  rewrite <- Hfix. change 127 with (Z.ones 7). rewrite Z.land_ones by lia.
  apply Z.mod_pos_bound. reflexivity.
Qed.

Lemma tile_source_block (t : Z) :
  0 <= t <= 128 ->
  0 <= Z.shiftr t 4 * TILE_SIZE /\
  Z.shiftr t 4 * TILE_SIZE + TILE_SIZE <= TILE_IMAGE_HEIGHT /\
  0 <= Z.land t 15 * TILE_SIZE /\
  Z.land t 15 * TILE_SIZE + TILE_SIZE <= TILE_IMAGE_WIDTH.
Proof.
  intros Ht. rewrite Z.shiftr_div_pow2 by lia.
  change 15 with (Z.ones 4). rewrite Z.land_ones by lia.
  change (2 ^ 4) with 16. unfold TILE_IMAGE_HEIGHT, TILE_IMAGE_WIDTH, TILE_SIZE.
  Z.to_euclidean_division_equations. lia.
Qed.

Section Render.

Variables W H : Z.
Variable rs : nat -> Z.
Variables m tp : list Z.
Hypothesis HW : 0 <= W.
Hypothesis HH : 0 <= H.

Lemma draw_calls_snoc (calls : list TileCall) (c : TileCall) (out : list Z) :
  draw_calls W tp (calls ++ [c]) out
  = WriteTile TILE_SIZE TILE_IMAGE_WIDTH (IMAGE_WIDTH W) tp
      (draw_calls W tp calls out) (fst (fst c)) (snd (fst c)) (snd c).
Proof. unfold draw_calls. rewrite fold_left_app. reflexivity. Qed.

(** The pixel version of GenerateMapPixels performs the calls that the
    version recording them lists, with the same draws. *)
Lemma GenerateMapPixels_image_calls (out : list Z) (n0 : nat) :
  GenerateMapPixels_image W H rs m tp (out, n0)
  = (draw_calls W tp (fst (GenerateMapPixels W H rs m ([], n0))) out,
     snd (GenerateMapPixels W H rs m ([], n0))).
Proof.
  pose (R := fun (a : list Z * nat) (b : list TileCall * nat) =>
               a = (draw_calls W tp (fst b) out, snd b)).
  assert (HR : R (GenerateMapPixels_image W H rs m tp (out, n0))
                 (GenerateMapPixels W H rs m ([], n0))).
  { unfold GenerateMapPixels_image, GenerateMapPixels. apply for_cells_sim.
    - done.
    - intros x y [o n] [calls n'] Hab. unfold R in *. simpl in Hab.
      injection Hab as -> ->.
      destruct (negb (map_get W m x y =? 0)); cbn [fst snd];
        rewrite draw_calls_snoc; reflexivity. }
  exact HR.
Qed.

Lemma GenerateMapPixels_count (n0 : nat) :
  Z.of_nat (length m) = W * H ->
  Z.of_nat (length (fst (GenerateMapPixels W H rs m ([], n0)))) = W * H /\
  snd (GenerateMapPixels W H rs m ([], n0)) = (n0 + open_count m)%nat.
Proof.
  intros Hlen.
  pose (P := fun (k : Z) (st : list TileCall * nat) =>
    Z.of_nat (length (fst st)) = k /\
    snd st = (n0 + open_count (take (Z.to_nat k) m))%nat).
  assert (HP : P (W * H) (GenerateMapPixels W H rs m ([], n0))).
  { unfold GenerateMapPixels. apply for_cells_ind; [done | done | |].
    - split; [done |]. simpl. lia.
    - intros x y [calls n] Hx Hy [Hl Hn]. simpl in Hl, Hn.
      pose proof (cell_index_range W H x y Hx Hy) as Hr.
      destruct (lookup_lt_is_Some_2 m (Z.to_nat (y * W + x))) as [v Hv]; [lia |].
      assert (Hget : map_get W m x y = v).
      { unfold map_get, arr_get. destruct (Z.ltb_spec (y * W + x) 0); [lia |].
        by rewrite Hv. }
      assert (Htake : take (Z.to_nat (y * W + x + 1)) m
                      = take (Z.to_nat (y * W + x)) m ++ [v]).
      { replace (Z.to_nat (y * W + x + 1)) with (S (Z.to_nat (y * W + x))) by lia.
        by apply take_S_r. }
      unfold P. rewrite Htake, open_count_app, Hget. unfold TileCall in *.
      destruct (Z.eqb_spec v 0) as [-> | Hnz]; simpl;
        rewrite length_app; simpl.
      + split; lia.
      + destruct (Z.eqb_spec v 0); [done |]. split; lia. }
  destruct HP as [Hl Hn]. split; [done |].
  rewrite Hn. rewrite take_ge by lia. done.
Qed.

Lemma placed_bounds (out : list Z) (x y : Z) :
  Z.of_nat (length out) = IMAGE_WIDTH W * IMAGE_HEIGHT H * 2 ->
  in_bounds W H x y ->
  0 <= x * TILE_SIZE /\ x * TILE_SIZE + TILE_SIZE <= IMAGE_WIDTH W /\
  0 <= y * TILE_SIZE /\
  ((y * TILE_SIZE + TILE_SIZE) * IMAGE_WIDTH W) * 2 <= Z.of_nat (length out).
Proof.
  intros Hlen [Hx Hy]. rewrite Hlen.
  unfold IMAGE_WIDTH, IMAGE_HEIGHT, TILE_SIZE. nia.
Qed.

Lemma draw_calls_frame (calls : list TileCall) (out : list Z) (px py c : Z) :
  Z.of_nat (length out) = IMAGE_WIDTH W * IMAGE_HEIGHT H * 2 ->
  0 <= px < IMAGE_WIDTH W -> 0 <= py -> 0 <= c <= 1 ->
  (forall call, In call calls ->
     exists x y, in_bounds W H x y /\
       snd (fst call) = x * TILE_SIZE /\ snd call = y * TILE_SIZE /\
       ~ (x * TILE_SIZE <= px < x * TILE_SIZE + TILE_SIZE /\
          y * TILE_SIZE <= py < y * TILE_SIZE + TILE_SIZE)) ->
  length (draw_calls W tp calls out) = length out /\
  arr_get (draw_calls W tp calls out) (pixel_offset (IMAGE_WIDTH W) px py + c)
  = arr_get out (pixel_offset (IMAGE_WIDTH W) px py + c).
Proof.
  revert out. induction calls as [| call calls IH]; intros out Hlen Hpx Hpy Hc Hall;
    simpl; [done |].
  destruct (Hall call) as (x & y & Hb & Hcx & Hcy & Hout); [by left |].
  destruct (placed_bounds out x y Hlen Hb) as (Hx0 & Hx1 & Hy0 & Hy1).
  destruct (WriteTile_pixel TILE_SIZE TILE_IMAGE_WIDTH (IMAGE_WIDTH W) tp out
              (fst (fst call)) (x * TILE_SIZE) (y * TILE_SIZE) px py c)
    as [Hl Hget]; try done.
  rewrite Hcx, Hcy.
  destruct (IH (WriteTile TILE_SIZE TILE_IMAGE_WIDTH (IMAGE_WIDTH W) tp out
                  (fst (fst call)) (x * TILE_SIZE) (y * TILE_SIZE)))
    as [Hl' Hget']; try done.
  { by rewrite Hl. }
  { intros call' Hin. apply Hall. by right. }
  unfold draw_calls in *. split; [congruence |].
  rewrite Hget', Hget.
  destruct (Z.leb_spec (x * TILE_SIZE) px); simpl; [| done].
  destruct (Z.ltb_spec px (x * TILE_SIZE + TILE_SIZE)); simpl; [| done].
  destruct (Z.leb_spec (y * TILE_SIZE) py); simpl; [| done].
  destruct (Z.ltb_spec py (y * TILE_SIZE + TILE_SIZE)); simpl; [| done].
  exfalso. apply Hout. lia.
Qed.

Lemma draw_calls_app (l1 l2 : list TileCall) (out : list Z) :
  draw_calls W tp (l1 ++ l2) out = draw_calls W tp l2 (draw_calls W tp l1 out).
Proof. unfold draw_calls. apply fold_left_app. Qed.

Lemma draw_calls_cons (c : TileCall) (l : list TileCall) (out : list Z) :
  draw_calls W tp (c :: l) out
  = draw_calls W tp l
      (WriteTile TILE_SIZE TILE_IMAGE_WIDTH (IMAGE_WIDTH W) tp out
         (fst (fst c)) (snd (fst c)) (snd c)).
Proof. reflexivity. Qed.

(** A call of the list other than the one of index [i] draws on the block
    of another cell. *)
Lemma other_call_elsewhere (n0 : nat) (x y u v : Z) (j : nat) (call : TileCall) :
  Z.of_nat (length m) = W * H ->
  in_bounds W H x y ->
  0 <= u < TILE_SIZE -> 0 <= v < TILE_SIZE ->
  fst (GenerateMapPixels W H rs m ([], n0)) !! j = Some call ->
  j <> Z.to_nat (y * W + x) ->
  exists x' y', in_bounds W H x' y' /\
    snd (fst call) = x' * TILE_SIZE /\ snd call = y' * TILE_SIZE /\
    ~ (x' * TILE_SIZE <= x * TILE_SIZE + v < x' * TILE_SIZE + TILE_SIZE /\
       y' * TILE_SIZE <= y * TILE_SIZE + u < y' * TILE_SIZE + TILE_SIZE).
Proof.
  intros Hlen [Hx Hy] Hu Hv Hj Hne.
  destruct (GenerateMapPixels_count n0 Hlen) as [Hcount _].
  pose proof (lookup_lt_Some _ _ _ Hj) as Hlt.
  destruct (index_cell W H (Z.of_nat j) HW) as (x' & y' & Hb' & Hidx);
    [unfold TileCall in *; lia |].
  destruct (GenerateMapPixels_calls W H rs m n0 HW HH x' y' Hb')
    as (tile & Hlk & _).
  rewrite <- Hidx, Nat2Z.id in Hlk.
  assert (Heq : Some call = Some (tile, x' * TILE_SIZE, y' * TILE_SIZE))
    by exact (eq_trans (eq_sym Hj) Hlk).
  injection Heq as ->.
  exists x', y'. split; [done |]. split; [done |]. split; [done |].
  unfold TILE_SIZE in *. intros [Hpx Hpy].
  assert (x' = x) by lia. assert (y' = y) by lia. subst x' y'.
  apply Hne. rewrite <- Hidx. by rewrite Nat2Z.id.
Qed.

(** The image GenerateMapPixels leaves: the block of cell (x, y) shows the
    tile of that cell over what the image held. *)
Lemma GenerateMapPixels_image_pixel (out : list Z) (n0 : nat) (x y u v c : Z) :
  Z.of_nat (length m) = W * H ->
  Z.of_nat (length out) = IMAGE_WIDTH W * IMAGE_HEIGHT H * 2 ->
  in_bounds W H x y ->
  0 <= u < TILE_SIZE -> 0 <= v < TILE_SIZE -> 0 <= c <= 1 ->
  exists tile,
    fst (GenerateMapPixels W H rs m ([], n0)) !! Z.to_nat (y * W + x)
    = Some (tile, x * TILE_SIZE, y * TILE_SIZE) /\
    length (fst (GenerateMapPixels_image W H rs m tp (out, n0))) = length out /\
    arr_get (fst (GenerateMapPixels_image W H rs m tp (out, n0)))
      (pixel_offset (IMAGE_WIDTH W) (x * TILE_SIZE + v) (y * TILE_SIZE + u) + c)
    = blend TILE_SIZE TILE_IMAGE_WIDTH tp tile u v c
        (arr_get out
           (pixel_offset (IMAGE_WIDTH W) (x * TILE_SIZE + v) (y * TILE_SIZE + u) + c)).
Proof.
  intros Hlen Hout Hb Hu Hv Hc.
  destruct (GenerateMapPixels_calls W H rs m n0 HW HH x y Hb) as (tile & Hlk & _).
  exists tile. split; [done |].
  rewrite GenerateMapPixels_image_calls. cbn [fst].
  set (calls := fst (GenerateMapPixels W H rs m ([], n0))) in *.
  set (i := Z.to_nat (y * W + x)) in *.
  rewrite <- (take_drop_middle calls i _ Hlk).
  rewrite draw_calls_app, draw_calls_cons. cbn [fst snd].
  assert (Hpx : 0 <= x * TILE_SIZE + v < IMAGE_WIDTH W).
  { destruct Hb. unfold IMAGE_WIDTH, TILE_SIZE in *. lia. }
  assert (Hpy : 0 <= y * TILE_SIZE + u).
  { destruct Hb. unfold TILE_SIZE in *. lia. }
  destruct (draw_calls_frame (take i calls) out
              (x * TILE_SIZE + v) (y * TILE_SIZE + u) c Hout Hpx Hpy Hc)
    as [Hl1 Hg1].
  { intros call Hin. apply list_elem_of_In, elem_of_take in Hin as (j & Hj & Hlt).
    apply (other_call_elsewhere n0 x y u v j); try done. fold i. lia. }
  destruct (placed_bounds (draw_calls W tp (take i calls) out) x y)
    as (Hx0 & Hx1 & Hy0 & Hy1); [by rewrite Hl1 | done |].
  destruct (WriteTile_pixel TILE_SIZE TILE_IMAGE_WIDTH (IMAGE_WIDTH W) tp
              (draw_calls W tp (take i calls) out) tile
              (x * TILE_SIZE) (y * TILE_SIZE)
              (x * TILE_SIZE + v) (y * TILE_SIZE + u) c)
    as [Hl2 Hg2]; try done.
  destruct (draw_calls_frame (drop (S i) calls)
              (WriteTile TILE_SIZE TILE_IMAGE_WIDTH (IMAGE_WIDTH W) tp
                 (draw_calls W tp (take i calls) out) tile
                 (x * TILE_SIZE) (y * TILE_SIZE))
              (x * TILE_SIZE + v) (y * TILE_SIZE + u) c)
    as [Hl3 Hg3]; try done.
  { by rewrite Hl2, Hl1. }
  { intros call Hin. apply list_elem_of_In, list_elem_of_lookup in Hin as (j & Hj).
    rewrite lookup_drop in Hj.
    apply (other_call_elsewhere n0 x y u v (S i + j)); try done. fold i. lia. }
  split; [congruence |].
  rewrite Hg3, Hg2, Hg1.
  destruct (Z.leb_spec (x * TILE_SIZE) (x * TILE_SIZE + v)); [| lia].
  destruct (Z.ltb_spec (x * TILE_SIZE + v) (x * TILE_SIZE + TILE_SIZE)); [| lia].
  destruct (Z.leb_spec (y * TILE_SIZE) (y * TILE_SIZE + u)); [| lia].
  destruct (Z.ltb_spec (y * TILE_SIZE + u) (y * TILE_SIZE + TILE_SIZE)); [| lia].
  cbn [andb].
  replace (y * TILE_SIZE + u - y * TILE_SIZE) with u by lia.
  replace (x * TILE_SIZE + v - x * TILE_SIZE) with v by lia.
  done.
Qed.

End Render.

(** X12.  For a grid of cells 0 or 1, GenerateMapPixels calls WriteTile once
    per cell, in row-major order, with the position of the cell's block, and
    draws one random number per empty cell.  Every tile index lies between 0
    and 0x80, so the tile it names lies inside the 128 x 72 tile image, and
    the block written lies inside the output image. *)
Theorem X12_tile_calls_in_range (W H : Z) (rs : nat -> Z) (m : list Z) (n0 : nat)
    (x y : Z) :
  0 <= W -> 0 <= H ->
  Z.of_nat (length m) = W * H ->
  binary m = true ->
  in_bounds W H x y ->
  Z.of_nat (length (fst (GenerateMapPixels W H rs m ([], n0)))) = W * H /\
  snd (GenerateMapPixels W H rs m ([], n0)) = (n0 + open_count m)%nat /\
  exists tile,
    fst (GenerateMapPixels W H rs m ([], n0)) !! Z.to_nat (y * W + x)
    = Some (tile, x * TILE_SIZE, y * TILE_SIZE) /\
    0 <= tile <= 0x80 /\
    Z.shiftr tile 4 * TILE_SIZE + TILE_SIZE <= TILE_IMAGE_HEIGHT /\
    Z.land tile 15 * TILE_SIZE + TILE_SIZE <= TILE_IMAGE_WIDTH /\
    0 <= x * TILE_SIZE /\ x * TILE_SIZE + TILE_SIZE <= IMAGE_WIDTH W /\
    0 <= y * TILE_SIZE /\ y * TILE_SIZE + TILE_SIZE <= IMAGE_HEIGHT H.
Proof.
  intros HW HH Hlen Hbin Hb.
  destruct (GenerateMapPixels_count W H rs m HW HH n0 Hlen) as [Hcount Hdraws].
  split; [done |]. split; [done |].
  destruct (GenerateMapPixels_calls W H rs m n0 HW HH x y Hb)
    as (tile & Hlk & Hwall & Hopen).
  exists tile. split; [done |].
  assert (Hrange : 0 <= tile <= 128).
  { destruct (is_wall W H m x y) eqn:Hw.
    - rewrite (Hwall eq_refl). unfold WALL_TILE_INDEX. lia.
    - destruct (Hopen eq_refl) as [k ->]. unfold open_tile_index.
      rewrite adjacency_spec by done.
      pose proof (tile_index_range (adjacency_bits W H m x y) (rs k)
                    (adjacency_bits_range W H m x y)). lia. }
  split; [done |].
  destruct (tile_source_block tile Hrange) as (_ & Hty & _ & Htx).
  split; [done |]. split; [done |].
  destruct Hb as [Hx Hy]. unfold IMAGE_WIDTH, IMAGE_HEIGHT, TILE_SIZE. lia.
Qed.

(** X13.  WriteTile copies the tile over a square block of the output and
    nothing else: inside the block a pixel takes both bytes of the tile
    pixel when the alpha of the tile pixel is not 0 and is left as it was
    when it is 0; outside the block every pixel is left as it was.  The
    output keeps its size. *)
Theorem X13_write_tile (ts tiw iw : Z) (tp out : list Z) (t x y px py c : Z) :
  0 <= ts -> 0 <= x -> x + ts <= iw -> 0 <= y ->
  ((y + ts) * iw) * 2 <= Z.of_nat (length out) ->
  0 <= px < iw -> 0 <= py -> 0 <= c <= 1 ->
  length (WriteTile ts tiw iw tp out t x y) = length out /\
  arr_get (WriteTile ts tiw iw tp out t x y) (pixel_offset iw px py + c)
  = if (x <=? px) && (px <? x + ts) && (y <=? py) && (py <? y + ts)
    then (if arr_get tp (tile_offset ts tiw t (py - y) (px - x) + 1) =? 0
          then arr_get out (pixel_offset iw px py + c)
          else arr_get tp (tile_offset ts tiw t (py - y) (px - x) + c))
    else arr_get out (pixel_offset iw px py + c).
Proof.
  intros Hts Hx Hxw Hy Hlen Hpx Hpy Hc.
  destruct (WriteTile_pixel ts tiw iw tp out t x y px py c) as [Hl Hget]; try done.
  split; [done |]. rewrite Hget. unfold blend.
  destruct ((x <=? px) && (px <? x + ts) && (y <=? py) && (py <? y + ts)); [| done].
  destruct (arr_get tp (tile_offset ts tiw t (py - y) (px - x) + 1) =? 0); done.
Qed.

(** X14.  After GenerateMapPixels the 8 x 8 block of every cell shows the
    tile of that cell and of no other: a pixel of the block holds the tile's
    pixel where the tile is not transparent and what the image held before
    where it is.  The image keeps its size. *)
Theorem X14_image_blocks (W H : Z) (rs : nat -> Z) (m tp out : list Z) (n0 : nat)
    (x y u v c : Z) :
  0 <= W -> 0 <= H ->
  Z.of_nat (length m) = W * H ->
  Z.of_nat (length out) = IMAGE_WIDTH W * IMAGE_HEIGHT H * 2 ->
  in_bounds W H x y ->
  0 <= u < TILE_SIZE -> 0 <= v < TILE_SIZE -> 0 <= c <= 1 ->
  exists tile,
    fst (GenerateMapPixels W H rs m ([], n0)) !! Z.to_nat (y * W + x)
    = Some (tile, x * TILE_SIZE, y * TILE_SIZE) /\
    length (fst (GenerateMapPixels_image W H rs m tp (out, n0))) = length out /\
    snd (GenerateMapPixels_image W H rs m tp (out, n0))
    = snd (GenerateMapPixels W H rs m ([], n0)) /\
    arr_get (fst (GenerateMapPixels_image W H rs m tp (out, n0)))
      (pixel_offset (IMAGE_WIDTH W) (x * TILE_SIZE + v) (y * TILE_SIZE + u) + c)
    = if arr_get tp (tile_offset TILE_SIZE TILE_IMAGE_WIDTH tile u v + 1) =? 0
      then arr_get out
             (pixel_offset (IMAGE_WIDTH W) (x * TILE_SIZE + v) (y * TILE_SIZE + u) + c)
      else arr_get tp (tile_offset TILE_SIZE TILE_IMAGE_WIDTH tile u v + c).
Proof.
  intros HW HH Hlen Hout Hb Hu Hv Hc.
  destruct (GenerateMapPixels_image_pixel W H rs m tp HW HH out n0 x y u v c)
    as (tile & Hlk & Hl & Hget); try done.
  exists tile. split; [done |]. split; [done |].
  split; [by rewrite GenerateMapPixels_image_calls |].
  rewrite Hget. unfold blend.
  destruct (arr_get tp (tile_offset TILE_SIZE TILE_IMAGE_WIDTH tile u v + 1) =? 0);
    done.
Qed.

(** ** The floor map *)

Lemma fold_seqZ_ind {A : Type} (P : Z -> A -> Prop) (f : A -> Z -> A) (a0 : A) (n : Z) :
  0 <= n -> P 0 a0 ->
  (forall i a, 0 <= i < n -> P i a -> P (i + 1) (f a i)) ->
  P n (fold_left f (seqZ 0 n) a0).
Proof.
  intros Hn H0 Hstep.
  assert (Hk : forall k : nat, Z.of_nat k <= n ->
            P (Z.of_nat k) (fold_left f (seqZ 0 (Z.of_nat k)) a0)).
  { induction k as [| k IH]; intros Hle.
    - simpl. done.
    - rewrite seqZ_S, fold_left_app. simpl. rewrite Z.add_0_l.
      replace (Z.of_nat (S k)) with (Z.of_nat k + 1) by lia.
      apply Hstep; [lia |]. apply IH. lia. }
  specialize (Hk (Z.to_nat n)). rewrite Z2Nat.id in Hk by done. apply Hk. lia.
Qed.

Lemma below_pow2 (c n : Z) :
  0 <= n -> 0 <= c -> (forall k, n <= k -> Z.testbit c k = false) -> c < 2 ^ n.
Proof.
  intros Hn Hc Hbits. destruct (Z.lt_ge_cases c (2 ^ n)) as [Hlt | Hge]; [done |].
  assert (Hpos : 0 < c) by (pose proof (Z.pow_pos_nonneg 2 n); lia).
  pose proof (proj1 (Z.log2_le_pow2 c n Hpos) Hge) as Hlog.
  pose proof (Z.bit_log2 c Hpos) as Hbit.
  rewrite Hbits in Hbit by done. discriminate.
Qed.

Lemma tile_cell_bits (p a r : Z) :
  Z.land (FloorMap.tile_cell p a r) 0x3f = Z.land r 0x3f /\
  Z.testbit (FloorMap.tile_cell p a r) 6 = Z.testbit a 0 /\
  Z.testbit (FloorMap.tile_cell p a r) 7 = Z.testbit p 1.
Proof.
  unfold FloorMap.tile_cell. split; [| split].
  - apply Z.bits_inj'. intros n Hn.
    rewrite !Z.land_spec, !Z.lor_spec, !Z.land_spec.
    destruct (Z.lt_ge_cases n 6) as [Hlt | Hge].
    + rewrite !Z.shiftl_spec_low by done. simpl.
      by rewrite <- andb_assoc, andb_diag.
    + change 63 with (Z.ones 6). rewrite Z.ones_spec_high by lia.
      by rewrite !andb_false_r.
  - rewrite !Z.lor_spec, !Z.shiftl_spec, !Z.land_spec by lia.
    change (6 - 6) with 0. change (Z.testbit 2 0) with false.
    change (Z.testbit 1 0) with true. change (Z.testbit 63 6) with false.
    by rewrite !andb_false_r, andb_true_r, orb_false_r.
  - rewrite !Z.lor_spec, !Z.shiftl_spec, !Z.land_spec by lia.
    change (7 - 6) with 1. change (Z.testbit 2 1) with true.
    change (Z.testbit 1 1) with false. change (Z.testbit 63 7) with false.
    by rewrite !andb_false_r, andb_true_r, !orb_false_r.
Qed.

Lemma tile_cell_range (p a r : Z) : 0 <= FloorMap.tile_cell p a r <= 255.
Proof.
  assert (Hnn : 0 <= FloorMap.tile_cell p a r).
  { unfold FloorMap.tile_cell. rewrite !Z.lor_nonneg, !Z.shiftl_nonneg.
    split; [split |]; apply Z.land_nonneg; right; lia. }
  split; [done |].
  enough (FloorMap.tile_cell p a r < 2 ^ 8) by (change (2 ^ 8) with 256 in *; lia).
  apply below_pow2; [lia | done |]. intros k Hk.
  unfold FloorMap.tile_cell.
  rewrite !Z.lor_spec, !Z.shiftl_spec, !Z.land_spec by lia.
  change 2 with (2 ^ 1). rewrite Z.pow2_bits_false by lia.
  change 1 with (2 ^ 0). rewrite Z.pow2_bits_false by lia.
  change 63 with (Z.ones 6). rewrite Z.ones_spec_high by lia.
  by rewrite !andb_false_r.
Qed.

Section FloorFacts.

Variables W H : Z.
Variable rs : nat -> Z.
Variable n0 : nat.
Hypothesis HW : 0 <= W.
Hypothesis HH : 0 <= H.

Local Set Warnings "-inconsistent-scopes".

(** The call for the cell (x, y) is in its place in [cs] and carries the
    tile computed from the tiles to the left and above. *)
Local Abbreviation placed cs x y :=
  (cs !! Z.to_nat (y * W + x)
   = Some (FloorMap.tile_cell (FloorMap.left_of W rs n0 cs x y)
             (FloorMap.above_of W rs n0 cs x y)
             (rs (FloorMap.cell_draw W n0 x y)),
           x * FloorMap.TILE_SIZE, y * FloorMap.TILE_SIZE)).

Lemma tile_at_app (cs l : list TileCall) (x y : Z) :
  0 <= y * W + x < Z.of_nat (length cs) ->
  FloorMap.tile_at W (cs ++ l) x y = FloorMap.tile_at W cs x y.
Proof.
  intros Hi. unfold FloorMap.tile_at. unfold TileCall in *.
  rewrite lookup_app_l by lia. done.
Qed.

Lemma left_of_app (cs l : list TileCall) (x y : Z) :
  0 <= x < W -> 0 <= y -> y * W + x <= Z.of_nat (length cs) ->
  FloorMap.left_of W rs n0 (cs ++ l) x y = FloorMap.left_of W rs n0 cs x y.
Proof.
  intros Hx Hy Hi. unfold FloorMap.left_of.
  destruct (Z.eqb_spec x 0); [done |]. apply tile_at_app. nia.
Qed.

Lemma above_of_app (cs l : list TileCall) (x y : Z) :
  0 <= x < W -> 0 <= y -> (y - 1) * W + x < Z.of_nat (length cs) ->
  FloorMap.above_of W rs n0 (cs ++ l) x y = FloorMap.above_of W rs n0 cs x y.
Proof.
  intros Hx Hy Hi. unfold FloorMap.above_of.
  destruct (Z.eqb_spec y 0); [done |]. apply tile_at_app. nia.
Qed.

Lemma placed_app (cs l : list TileCall) (x y : Z) :
  0 <= x < W -> 0 <= y -> y * W + x < Z.of_nat (length cs) ->
  placed cs x y -> placed (cs ++ l) x y.
Proof.
  intros Hx Hy Hi Hp.
  rewrite lookup_app_l by (unfold TileCall in *; nia).
  rewrite left_of_app, above_of_app by (done || nia). done.
Qed.

Lemma random_row_spec (st : FloorMap.MapState) :
  Z.of_nat (length (FloorMap.previous_row st)) = W ->
  FloorMap.draws (FloorMap.random_row W rs st)
  = (FloorMap.draws st + Z.to_nat W)%nat /\
  FloorMap.calls (FloorMap.random_row W rs st) = FloorMap.calls st /\
  length (FloorMap.previous_row (FloorMap.random_row W rs st))
  = length (FloorMap.previous_row st) /\
  forall x, 0 <= x < W ->
    arr_get (FloorMap.previous_row (FloorMap.random_row W rs st)) x
    = Z.land (rs (FloorMap.draws st + Z.to_nat x)) 0xff.
Proof.
  intros Hlen. unfold FloorMap.random_row.
  pose (P := fun (k : Z) (st' : FloorMap.MapState) =>
    FloorMap.draws st' = (FloorMap.draws st + Z.to_nat k)%nat /\
    FloorMap.calls st' = FloorMap.calls st /\
    length (FloorMap.previous_row st') = length (FloorMap.previous_row st) /\
    forall x, 0 <= x < k ->
      arr_get (FloorMap.previous_row st') x
      = Z.land (rs (FloorMap.draws st + Z.to_nat x)) 0xff).
  apply (fold_seqZ_ind P); [done | |].
  - unfold P. split; [simpl; lia |]. split; [done |]. split; [done |]. lia.
  - intros i a Hi (Hd & Hc & Hl & Hrow). unfold P. simpl.
    split; [lia |]. split; [done |]. split; [by rewrite arr_set_length |].
    intros x Hx. destruct (decide (x = i)) as [-> | Hne].
    + rewrite arr_get_set_eq by lia. by rewrite Hd.
    + rewrite arr_get_set_ne by done. apply Hrow. lia.
Qed.

(** The state before the cell (x, y) is processed. *)
Local Abbreviation cell_inv y x st :=
  (FloorMap.draws (fst st) = FloorMap.cell_draw W n0 x y /\
   Z.of_nat (length (FloorMap.previous_row (fst st))) = W /\
   Z.of_nat (length (FloorMap.calls (fst st))) = y * W + x /\
   snd st = FloorMap.left_of W rs n0 (FloorMap.calls (fst st)) x y /\
   (forall x', x <= x' < W ->
      arr_get (FloorMap.previous_row (fst st)) x'
      = FloorMap.above_of W rs n0 (FloorMap.calls (fst st)) x' y) /\
   (forall x', 0 <= x' < x ->
      arr_get (FloorMap.previous_row (fst st)) x'
      = FloorMap.tile_at W (FloorMap.calls (fst st)) x' y) /\
   (forall x' y', 0 <= x' < W -> 0 <= y' -> y' * W + x' < y * W + x ->
      placed (FloorMap.calls (fst st)) x' y')).

(** The state before the row [y] is processed. *)
Local Abbreviation row_inv y st :=
  (FloorMap.draws st = FloorMap.row_draw W n0 y /\
   Z.of_nat (length (FloorMap.previous_row st)) = W /\
   Z.of_nat (length (FloorMap.calls st)) = y * W /\
   (forall x, 0 <= x < W ->
      arr_get (FloorMap.previous_row st) x
      = FloorMap.above_of W rs n0 (FloorMap.calls st) x y) /\
   (forall x' y', 0 <= x' < W -> 0 <= y' < y -> placed (FloorMap.calls st) x' y')).

Lemma cell_step_inv (y x : Z) (st : FloorMap.MapState * Z) :
  0 <= y -> 0 <= x < W ->
  cell_inv y x st -> cell_inv y (x + 1) (FloorMap.cell_step rs y st x).
Proof.
  intros Hy Hx (Hd & Hl & Hc & Hpc & Habove & Hdone & Hplaced).
  destruct st as [st pc]. simpl in *.
  set (cell := FloorMap.tile_cell pc (arr_get (FloorMap.previous_row st) x)
                 (rs (FloorMap.draws st))).
  set (cs' := FloorMap.calls st ++ [(cell, x * FloorMap.TILE_SIZE, y * FloorMap.TILE_SIZE)]).
  assert (Hat : FloorMap.tile_at W cs' x y = cell).
  { unfold FloorMap.tile_at, cs'.
    rewrite list_lookup_middle by (unfold TileCall in *; lia). done. }
  assert (Hnew : placed cs' x y).
  { unfold cs'. rewrite left_of_app, above_of_app by (done || nia).
    rewrite list_lookup_middle by (unfold TileCall in *; lia).
    unfold cell. rewrite Hpc, Habove, Hd by lia. done. }
  split; [| split; [| split; [| split; [| split; [| split]]]]].
  - rewrite Hd. unfold FloorMap.cell_draw. lia.
  - by rewrite arr_set_length.
  - unfold cs'. rewrite length_app. simpl. unfold TileCall in *. lia.
  - unfold FloorMap.left_of. destruct (Z.eqb_spec (x + 1) 0); [lia |].
    replace (x + 1 - 1) with x by lia. by rewrite Hat.
  - intros x' Hx'. rewrite arr_get_set_ne by lia.
    rewrite Habove by lia. symmetry. unfold cs'.
    apply above_of_app; [lia | done | nia].
  - intros x' Hx'. destruct (decide (x' = x)) as [-> | Hne].
    + rewrite arr_get_set_eq by lia. by rewrite Hat.
    + rewrite arr_get_set_ne by done. rewrite Hdone by lia.
      symmetry. unfold cs'. apply tile_at_app. nia.
  - intros x' y' Hx' Hy' Hlt.
    destruct (decide (y' * W + x' = y * W + x)) as [Heq | Hne].
    + destruct (cell_index_inj W x' y' x y Hx' Hx Heq) as [-> ->]. done.
    + unfold cs'. apply placed_app; [done | done | lia |].
      apply Hplaced; [done | done | lia].
Qed.

Lemma row_step_inv (y : Z) (st : FloorMap.MapState) :
  0 <= y -> row_inv y st -> row_inv (y + 1) (FloorMap.row_step W rs st y).
Proof.
  intros Hy (Hd & Hl & Hc & Habove & Hplaced).
  unfold FloorMap.row_step.
  set (st0 := (FloorMap.mkMap (FloorMap.previous_row st) (FloorMap.calls st)
                 (S (FloorMap.draws st)),
               Z.land (rs (FloorMap.draws st)) 0xff)).
  assert (Hrow : cell_inv y W (fold_left (FloorMap.cell_step rs y) (seqZ 0 W) st0)).
  { apply (fold_seqZ_ind (fun x st => cell_inv y x st)); [done | |].
    - unfold st0. simpl.
      split; [rewrite Hd; unfold FloorMap.row_draw, FloorMap.cell_draw; nia |].
      split; [done |]. split; [lia |].
      split; [unfold FloorMap.left_of; simpl; by rewrite Hd |].
      split; [intros x' Hx'; apply Habove; lia |].
      split; [intros x' Hx'; lia |].
      intros x' y' Hx' Hy' Hlt. apply Hplaced; [done | nia].
    - intros i a Hi Ha. by apply cell_step_inv. }
  destruct Hrow as (Hd' & Hl' & Hc' & _ & _ & Hdone & Hplaced').
  split; [rewrite Hd'; unfold FloorMap.row_draw, FloorMap.cell_draw; nia |].
  split; [done |]. split; [lia |]. split.
  - intros x Hx. rewrite Hdone by done. unfold FloorMap.above_of.
    destruct (Z.eqb_spec (y + 1) 0); [lia |]. by replace (y + 1 - 1) with y by lia.
  - intros x' y' Hx' Hy'. apply Hplaced'; [done | lia | nia].
Qed.

Lemma GenerateMap_inv (row : list Z) :
  Z.of_nat (length row) = W ->
  row_inv H (FloorMap.GenerateMap W H rs (FloorMap.mkMap row [] n0)).
Proof.
  intros Hlen. unfold FloorMap.GenerateMap.
  destruct (random_row_spec (FloorMap.mkMap row [] n0) Hlen)
    as (Hd & Hc & Hl & Hrow). simpl in *.
  apply (fold_seqZ_ind (fun y st => row_inv y st)); [done | |].
  - split; [rewrite Hd; unfold FloorMap.row_draw; f_equal; lia |].
    split; [lia |]. split; [by rewrite Hc |]. split.
    + intros x Hx. rewrite Hrow by done. unfold FloorMap.above_of. done.
    + intros x' y' Hx' Hy'. lia.
  - intros y st Hy Hst. apply row_step_inv; [lia | done].
Qed.

End FloorFacts.

(** X15.  The floor map joins its tiles at the seams.  GenerateMap writes
    the tile of the cell (x, y) as its call number y * MAP_WIDTH + x, at the
    position of the cell, and the index of that tile is a byte whose bit 6
    is bit 0 of the tile above, whose bit 7 is bit 1 of the tile to the
    left, and whose bits 0 to 5 are those of the draw taken for the cell.
    In the first row the tile above is an invisible random tile, and in the
    first column so is the tile to the left. *)
Theorem X15_floor_seams (W H : Z) (rs : nat -> Z) (row : list Z) (n0 : nat)
    (x y : Z) :
  0 <= W -> 0 <= H ->
  Z.of_nat (length row) = W ->
  0 <= x < W -> 0 <= y < H ->
  exists c,
    FloorMap.calls (FloorMap.GenerateMap W H rs (FloorMap.mkMap row [] n0))
      !! Z.to_nat (y * W + x)
    = Some (c, x * FloorMap.TILE_SIZE, y * FloorMap.TILE_SIZE) /\
    0 <= c <= 255 /\
    Z.land c 0x3f = Z.land (rs (FloorMap.cell_draw W n0 x y)) 0x3f /\
    Z.testbit c 6
    = Z.testbit
        (if y =? 0 then rs (n0 + Z.to_nat x)%nat
         else FloorMap.tile_at W
                (FloorMap.calls (FloorMap.GenerateMap W H rs (FloorMap.mkMap row [] n0)))
                x (y - 1)) 0 /\
    Z.testbit c 7
    = Z.testbit
        (if x =? 0 then rs (FloorMap.row_draw W n0 y)
         else FloorMap.tile_at W
                (FloorMap.calls (FloorMap.GenerateMap W H rs (FloorMap.mkMap row [] n0)))
                (x - 1) y) 1.
Proof.
  intros HW HH Hlen Hx Hy.
  destruct (GenerateMap_inv W H rs n0 HW HH row Hlen) as (_ & _ & _ & _ & Hplaced).
  specialize (Hplaced x y Hx Hy).
  eexists. split; [exact Hplaced |].
  split; [apply tile_cell_range |].
  destruct (tile_cell_bits
              (FloorMap.left_of W rs n0
                 (FloorMap.calls (FloorMap.GenerateMap W H rs (FloorMap.mkMap row [] n0)))
                 x y)
              (FloorMap.above_of W rs n0
                 (FloorMap.calls (FloorMap.GenerateMap W H rs (FloorMap.mkMap row [] n0)))
                 x y)
              (rs (FloorMap.cell_draw W n0 x y))) as (Hlow & H6 & H7).
  split; [done |]. split.
  - rewrite H6. unfold FloorMap.above_of. destruct (y =? 0); [| done].
    rewrite Z.land_spec. change (Z.testbit 255 0) with true. by rewrite andb_true_r.
  - rewrite H7. unfold FloorMap.left_of. destruct (x =? 0); [| done].
    rewrite Z.land_spec. change (Z.testbit 255 1) with true. by rewrite andb_true_r.
Qed.

(** X16.  GenerateMap of the floor map writes one tile per cell and draws
    one number per cell, one per row and one per column.  Every tile it
    names lies inside the 1024 x 1024 tile image, and every block it writes
    lies inside the output image. *)
Theorem X16_floor_calls (W H : Z) (rs : nat -> Z) (row : list Z) (n0 : nat)
    (i : nat) (c : TileCall) :
  0 <= W -> 0 <= H ->
  Z.of_nat (length row) = W ->
  FloorMap.calls (FloorMap.GenerateMap W H rs (FloorMap.mkMap row [] n0)) !! i = Some c ->
  Z.of_nat (length (FloorMap.calls (FloorMap.GenerateMap W H rs (FloorMap.mkMap row [] n0))))
  = W * H /\
  FloorMap.draws (FloorMap.GenerateMap W H rs (FloorMap.mkMap row [] n0))
  = (n0 + Z.to_nat (W * H + W + H))%nat /\
  0 <= Z.shiftr (fst (fst c)) 4 * FloorMap.TILE_SIZE /\
  Z.shiftr (fst (fst c)) 4 * FloorMap.TILE_SIZE + FloorMap.TILE_SIZE
  <= FloorMap.TILE_IMAGE_HEIGHT /\
  0 <= Z.land (fst (fst c)) 15 * FloorMap.TILE_SIZE /\
  Z.land (fst (fst c)) 15 * FloorMap.TILE_SIZE + FloorMap.TILE_SIZE
  <= FloorMap.TILE_IMAGE_WIDTH /\
  0 <= snd (fst c) /\ snd (fst c) + FloorMap.TILE_SIZE <= W * FloorMap.TILE_SIZE /\
  0 <= snd c /\ snd c + FloorMap.TILE_SIZE <= H * FloorMap.TILE_SIZE.
Proof.
  intros HW HH Hlen Hi.
  destruct (GenerateMap_inv W H rs n0 HW HH row Hlen) as (Hd & _ & Hc & _ & Hplaced).
  split; [lia |].
  split; [rewrite Hd; unfold FloorMap.row_draw; f_equal; lia |].
  pose proof (lookup_lt_Some _ _ _ Hi) as Hlt.
  destruct (index_cell W H (Z.of_nat i) HW) as (x & y & [Hx Hy] & Hidx);
    [unfold TileCall in *; lia |].
  specialize (Hplaced x y Hx Hy). rewrite <- Hidx, Nat2Z.id in Hplaced.
  pose proof (eq_trans (eq_sym Hi) Hplaced) as Heq.
  injection Heq as ->. cbn [fst snd].
  match goal with
  | |- context [Z.shiftr (FloorMap.tile_cell ?p ?a ?r) 4] =>
      pose proof (tile_cell_range p a r) as Ht; revert Ht;
      generalize (FloorMap.tile_cell p a r)
  end.
  intros t Ht. rewrite Z.shiftr_div_pow2 by lia.
  change 15 with (Z.ones 4). rewrite Z.land_ones by lia. change (2 ^ 4) with 16.
  unfold FloorMap.TILE_IMAGE_HEIGHT, FloorMap.TILE_IMAGE_WIDTH, FloorMap.TILE_SIZE.
  split; [Z.to_euclidean_division_equations; lia |].
  split; [Z.to_euclidean_division_equations; lia |].
  split; [Z.to_euclidean_division_equations; lia |].
  split; [Z.to_euclidean_division_equations; lia |].
  lia.
Qed.

(** ** The triangle merge *)

Section MergeFacts.

Variables ts W H : Z.
Variables src dst : list Z.
Hypothesis HW : 0 <= W.
Hypothesis HH : 0 <= H.
Hypothesis Hdst : Z.of_nat (length dst) = W * H * 2.

(** The state before the pixel of index [k] is processed. *)
Local Abbreviation merge_inv k st :=
  (snd (fst st) = 2 * k /\ snd st = 2 * k /\
   length (fst (fst st)) = length dst /\
   (forall x y c, 0 <= x < W -> 0 <= y -> 0 <= c <= 1 -> y * W + x < k ->
      arr_get (fst (fst st)) ((y * W + x) * 2 + c)
      = if ts <=? Z.rem y ts + Z.rem x ts
        then arr_get src ((y * W + x) * 2 + c)
        else arr_get dst ((y * W + x) * 2 + c)) /\
   (forall j, 2 * k <= j -> arr_get (fst (fst st)) j = arr_get dst j)).

Lemma merge_pixel_inv (x y : Z) (st : list Z * Z * Z) :
  0 <= x < W -> 0 <= y < H ->
  merge_inv (y * W + x) st ->
  merge_inv (y * W + x + 1) (TriangleMerge.merge_pixel ts (Z.rem y ts) src st x).
Proof.
  intros Hx Hy (Hr & Hw & Hl & Hdone & Htodo).
  destruct st as [[d r] w]. simpl in *. subst r w.
  assert (Hk : 0 <= y * W + x < W * H) by nia.
  split; [lia |]. split; [lia |].
  split; [destruct (ts <=? Z.rem y ts + Z.rem x ts); [by rewrite !arr_set_length | done] |].
  split.
  - intros x' y' c Hx' Hy' Hc Hlt.
    destruct (decide (y' * W + x' = y * W + x)) as [Heq | Hne].
    + destruct (cell_index_inj W x' y' x y Hx' Hx Heq) as [-> ->].
      destruct (ts <=? Z.rem y ts + Z.rem x ts).
      * assert (Hc' : c = 0 \/ c = 1) by lia. destruct Hc' as [-> | ->].
        -- replace ((y * W + x) * 2 + 0) with (2 * (y * W + x)) by lia.
           rewrite arr_get_set_ne by lia.
           rewrite arr_get_set_eq by lia. done.
        -- replace ((y * W + x) * 2 + 1) with (2 * (y * W + x) + 1) by lia.
           rewrite arr_get_set_eq by (rewrite arr_set_length; lia). done.
      * apply Htodo. lia.
    + assert (Hlt' : y' * W + x' < y * W + x) by lia.
      rewrite <- (Hdone x' y' c) by done.
      destruct (ts <=? Z.rem y ts + Z.rem x ts); [| done].
      rewrite !arr_get_set_ne by lia. done.
  - intros j Hj. rewrite <- Htodo by lia.
    destruct (ts <=? Z.rem y ts + Z.rem x ts); [| done].
    rewrite !arr_get_set_ne by lia. done.
Qed.

Lemma merge_row_inv (y : Z) (st : list Z * Z * Z) :
  0 <= y < H ->
  merge_inv (y * W) st ->
  merge_inv ((y + 1) * W) (TriangleMerge.merge_row ts W src st y).
Proof.
  intros Hy Hst. unfold TriangleMerge.merge_row.
  replace ((y + 1) * W) with (y * W + W) by lia.
  apply (fold_seqZ_ind (fun x st => merge_inv (y * W + x) st)); [done | |].
  - by rewrite Z.add_0_r.
  - intros x a Hx Ha. rewrite Z.add_assoc. by apply merge_pixel_inv.
Qed.

Lemma merge_spec :
  length (TriangleMerge.merge ts W H src dst) = length dst /\
  forall x y c, 0 <= x < W -> 0 <= y < H -> 0 <= c <= 1 ->
    arr_get (TriangleMerge.merge ts W H src dst) ((y * W + x) * 2 + c)
    = if ts <=? Z.rem y ts + Z.rem x ts
      then arr_get src ((y * W + x) * 2 + c)
      else arr_get dst ((y * W + x) * 2 + c).
Proof.
  unfold TriangleMerge.merge.
  assert (Hinv : merge_inv (H * W)
            (fold_left (TriangleMerge.merge_row ts W src) (seqZ 0 H) (dst, 0, 0))).
  { apply (fold_seqZ_ind (fun y st => merge_inv (y * W) st)); [done | |].
    - simpl. split; [done |]. split; [done |]. split; [done |]. split; [| done].
      intros x y c Hx Hy Hc Hlt. nia.
    - intros y a Hy Ha. by apply merge_row_inv. }
  destruct Hinv as (_ & _ & Hl & Hdone & _).
  split; [done |]. intros x y c Hx Hy Hc. apply Hdone; [done | lia | done | nia].
Qed.

End MergeFacts.

Lemma pixel_index (W H j : Z) :
  0 <= W -> 0 <= j < W * H * 2 ->
  exists x y c, 0 <= x < W /\ 0 <= y < H /\ 0 <= c <= 1 /\ j = (y * W + x) * 2 + c.
Proof.
  intros HW Hj.
  destruct (index_cell W H (j / 2) HW) as (x & y & [Hx Hy] & Hidx).
  { Z.to_euclidean_division_equations. nia. }
  exists x, y, (j mod 2). split; [done |]. split; [done |].
  rewrite <- Hidx. Z.to_euclidean_division_equations. lia.
Qed.

(** X17.  The merge of triangle_merge.c splits every tile along its
    anti-diagonal: the pixel (x, y) of the result comes from the second
    image when y mod tile_size + x mod tile_size >= tile_size, so below the
    anti-diagonal, and is the pixel of the first image otherwise.  Both
    bytes of the pixel are taken from the same image, and the image keeps
    its size. *)
Theorem X17_triangle_merge (ts W H : Z) (src dst : list Z) (x y c : Z) :
  1 < ts -> 0 <= W -> 0 <= H ->
  Z.of_nat (length dst) = W * H * 2 ->
  Z.of_nat (length src) = W * H * 2 ->
  0 <= x < W -> 0 <= y < H -> 0 <= c <= 1 ->
  length (TriangleMerge.merge ts W H src dst) = length dst /\
  arr_get (TriangleMerge.merge ts W H src dst) ((y * W + x) * 2 + c)
  = if ts <=? y mod ts + x mod ts
    then arr_get src ((y * W + x) * 2 + c)
    else arr_get dst ((y * W + x) * 2 + c).
Proof.
  intros Hts HW HH Hdst Hsrc Hx Hy Hc.
  destruct (merge_spec ts W H src dst HW HH Hdst) as [Hl Hget].
  split; [done |]. rewrite Hget by done.
  rewrite !Z.rem_mod_nonneg by lia. done.
Qed.

(** X18.  Merging is idempotent, and it rebuilds an image from its two
    halves: merging the second image again into the result changes nothing,
    and merging an image with itself gives that image. *)
Theorem X18_merge_idempotent (ts W H : Z) (src dst : list Z) :
  1 < ts -> 0 <= W -> 0 <= H ->
  Z.of_nat (length dst) = W * H * 2 ->
  Z.of_nat (length src) = W * H * 2 ->
  TriangleMerge.merge ts W H src (TriangleMerge.merge ts W H src dst)
  = TriangleMerge.merge ts W H src dst /\
  TriangleMerge.merge ts W H dst dst = dst.
Proof.
  intros _ HW HH Hdst Hsrc.
  destruct (merge_spec ts W H src dst HW HH Hdst) as [Hl Hget].
  assert (Hdst' : Z.of_nat (length (TriangleMerge.merge ts W H src dst)) = W * H * 2)
    by (rewrite Hl; done).
  destruct (merge_spec ts W H src (TriangleMerge.merge ts W H src dst) HW HH Hdst')
    as [Hl' Hget'].
  destruct (merge_spec ts W H dst dst HW HH Hdst) as [Hl2 Hget2].
  split.
  - apply arr_ext; [done |]. intros j Hj.
    destruct (pixel_index W H j HW) as (x & y & c & Hx & Hy & Hc & ->); [lia |].
    rewrite Hget', Hget by done.
    destruct (ts <=? Z.rem y ts + Z.rem x ts); done.
  - apply arr_ext; [done |]. intros j Hj.
    destruct (pixel_index W H j HW) as (x & y & c & Hx & Hy & Hc & ->); [lia |].
    rewrite Hget2 by done.
    destruct (ts <=? Z.rem y ts + Z.rem x ts); done.
Qed.

(** ** The tile dither *)

Lemma output_black_or_white (i : Z) : TileDither.black_or_white (TileDither.output i).
Proof. unfold TileDither.output, TileDither.black_or_white. destruct (127 <? i); auto. Qed.

Lemma dither_pixel_pixels (y0 y1 : Z) (px : list Z) (re : list Z * list Z) (p tx : Z) :
  fst (fst (TileDither.dither_pixel y0 y1 (px, re, p) tx))
  = arr_set px p
      (TileDither.output
         (TileDither.intended (arr_get px p) (arr_get (TileDither.row re y0) (tx + 1)))) /\
  snd (TileDither.dither_pixel y0 y1 (px, re, p) tx) = p + 2.
Proof. done. Qed.

Section DitherFacts.

Variables ts iw : Z.
Hypothesis Hts : 0 <= ts.

(** What a part of [DitherTile] may do to the image [px]: it keeps the
    size, leaves a byte as it was or makes it black or white, and touches
    only the bytes for which [touched] holds. *)
Local Abbreviation dithers touched px px' :=
  (length px' = length px /\
   (forall j, arr_get px' j = arr_get px j \/ TileDither.black_or_white (arr_get px' j)) /\
   (forall j, ~ touched j -> arr_get px' j = arr_get px j)).

Lemma scan_pixels (y0 y1 : Z) (px : list Z) (re : list Z * list Z) (p0 : Z) :
  dithers (fun j => exists tx, 0 <= tx < ts /\ j = p0 + 2 * tx) px
    (fst (fst (fold_left (TileDither.dither_pixel y0 y1) (seqZ 0 ts) (px, re, p0)))) /\
  forall tx, 0 <= tx < ts -> 0 <= p0 + 2 * tx < Z.of_nat (length px) ->
    TileDither.black_or_white
      (arr_get (fst (fst (fold_left (TileDither.dither_pixel y0 y1) (seqZ 0 ts) (px, re, p0))))
         (p0 + 2 * tx)).
Proof.
  pose (P := fun (k : Z) (st : list Z * (list Z * list Z) * Z) =>
    snd st = p0 + 2 * k /\
    dithers (fun j => exists tx, 0 <= tx < k /\ j = p0 + 2 * tx) px (fst (fst st)) /\
    forall tx, 0 <= tx < k -> 0 <= p0 + 2 * tx < Z.of_nat (length px) ->
      TileDither.black_or_white (arr_get (fst (fst st)) (p0 + 2 * tx))).
  assert (HP : P ts (fold_left (TileDither.dither_pixel y0 y1) (seqZ 0 ts) (px, re, p0))).
  { apply (fold_seqZ_ind P); [done | |].
    - unfold P. simpl. split; [lia |]. split; [| intros; lia].
      split; [done |]. split; [by left | done].
    - intros k [[px' re'] p] Hk (Hp & (Hl & Hbw & Hframe) & Hdone).
      simpl in Hp, Hl, Hbw, Hframe, Hdone. subst p.
      destruct (dither_pixel_pixels y0 y1 px' re' (p0 + 2 * k) k) as [Hpx' Hp'].
      unfold P. rewrite Hpx', Hp'. clear Hpx' Hp'.
      set (o := TileDither.output _).
      assert (Ho : TileDither.black_or_white o) by apply output_black_or_white.
      split; [lia |]. split; [split; [| split] |].
      + by rewrite arr_set_length.
      + intros j. destruct (arr_get_set_cases px' (p0 + 2 * k) j o) as [-> | ->];
          [by right | apply Hbw].
      + intros j Hj. rewrite arr_get_set_ne.
        * apply Hframe. intros (tx & Htx & ->). apply Hj. exists tx. split; [lia | done].
        * intros <-. apply Hj. exists k. split; [lia | done].
      + intros tx Htx Hin. destruct (decide (tx = k)) as [-> | Hne].
        * rewrite arr_get_set_eq by lia. done.
        * rewrite arr_get_set_ne by lia. apply Hdone; [lia | done]. }
  destruct HP as (_ & Hd & Hdone). split; done.
Qed.

Lemma dither_rows (re : list Z * list Z) (px : list Z) (base : Z) :
  dithers (fun j => exists tx ty, 0 <= tx < ts /\ 0 <= ty < ts /\
                      j = base + ty * iw * 2 + 2 * tx) px
    (fst (TileDither.DitherTile ts iw re px base)) /\
  forall tx ty, 0 <= tx < ts -> 0 <= ty < ts ->
    0 <= base + ty * iw * 2 + 2 * tx < Z.of_nat (length px) ->
    TileDither.black_or_white
      (arr_get (fst (TileDither.DitherTile ts iw re px base)) (base + ty * iw * 2 + 2 * tx)).
Proof.
  unfold TileDither.DitherTile. cbn [fst snd].
  set (re0 := TileDither.set_row re 0 _).
  pose (P := fun (k : Z) (st : list Z * (list Z * list Z) * Z * Z) =>
    dithers (fun j => exists tx ty, 0 <= tx < ts /\ 0 <= ty < k /\
                        j = base + ty * iw * 2 + 2 * tx) px (fst (fst (fst st))) /\
    forall tx ty, 0 <= tx < ts -> 0 <= ty < k ->
      0 <= base + ty * iw * 2 + 2 * tx < Z.of_nat (length px) ->
      TileDither.black_or_white
        (arr_get (fst (fst (fst st))) (base + ty * iw * 2 + 2 * tx))).
  apply (fold_seqZ_ind P); [done | |].
  - unfold P. simpl. split; [| intros; lia].
    split; [done |]. split; [by left | done].
  - intros k [[[px' re'] y0] y1] Hk ((Hl & Hbw & Hframe) & Hdone).
    simpl in Hl, Hbw, Hframe, Hdone.
    unfold P, TileDither.dither_row. cbn [fst snd].
    set (re1 := TileDither.set_row re' y1 _).
    destruct (scan_pixels y0 y1 px' re1 (base + k * iw * 2))
      as ((Hl' & Hbw' & Hframe') & Hdone').
    split; [split; [| split] |].
    + congruence.
    + intros j. destruct (Hbw' j) as [-> | Hb]; [apply Hbw | by right].
    + intros j Hj. rewrite Hframe'.
      * apply Hframe. intros (tx & ty & Htx & Hty & ->). apply Hj.
        exists tx, ty. split; [done |]. split; [lia | done].
      * intros (tx & Htx & ->). apply Hj. exists tx, k. split; [done |]. split; [lia | done].
    + intros tx ty Htx Hty Hin. destruct (decide (ty = k)) as [-> | Hne].
      * apply Hdone'; [done | lia].
      * destruct (Hbw' (base + ty * iw * 2 + 2 * tx)) as [-> | Hb]; [| done].
        apply Hdone; [done | lia | done].
Qed.

End DitherFacts.

(** X19.  DitherTile turns one channel of one tile into black and white and
    touches nothing else: every byte of that channel inside the tile becomes
    0 or 255, and every other byte of the image, the other channel of the
    tile included, is left as it was.  The image keeps its size. *)
Theorem X19_dither_tile (ts iw : Z) (re : list Z * list Z) (px : list Z)
    (x y c j : Z) :
  2 <= ts -> 0 <= x -> x + ts <= iw -> 0 <= y -> 0 <= c <= 1 ->
  (y + ts) * iw * 2 <= Z.of_nat (length px) ->
  length (fst (TileDither.DitherTile ts iw re px ((y * iw + x) * 2 + c))) = length px /\
  (TileDither.in_tile ts iw x y c j ->
   TileDither.black_or_white
     (arr_get (fst (TileDither.DitherTile ts iw re px ((y * iw + x) * 2 + c))) j)) /\
  (~ TileDither.in_tile ts iw x y c j ->
   arr_get (fst (TileDither.DitherTile ts iw re px ((y * iw + x) * 2 + c))) j
   = arr_get px j).
Proof.
  intros Hts Hx Hxw Hy Hc Hlen.
  destruct (dither_rows ts iw ltac:(lia) re px ((y * iw + x) * 2 + c))
    as ((Hl & _ & Hframe) & Hdone).
  split; [done |]. split.
  - intros (tx & ty & Htx & Hty & ->).
    replace (((y + ty) * iw + (x + tx)) * 2 + c)
      with ((y * iw + x) * 2 + c + ty * iw * 2 + 2 * tx) by lia.
    apply Hdone; [done | done |]. nia.
  - intros Hout. apply Hframe. intros (tx & ty & Htx & Hty & ->). apply Hout.
    exists tx, ty. split; [done |]. split; [done |]. lia.
Qed.

Lemma tile_count_exact (ts n : Z) :
  0 < ts -> TileDither.tile_count ts (n * ts) = n.
Proof.
  intros Hts. unfold TileDither.tile_count.
  symmetry. apply (Z.div_unique _ _ _ (ts - 1)); lia.
Qed.

Section DitherImage.

Variables ts W H nx ny : Z.
Hypothesis Hts : 0 < ts.
Hypothesis Hnx : 0 <= nx.
Hypothesis Hny : 0 <= ny.
Hypothesis HWn : W = nx * ts.
Hypothesis HHn : H = ny * ts.

Local Set Warnings "-inconsistent-scopes".

Lemma dither_tile_at_spec (st : list Z * (list Z * list Z)) (kx ky : Z) :
  0 <= kx < nx -> 0 <= ky < ny ->
  Z.of_nat (length (fst st)) = W * H * 2 ->
  length (fst (TileDither.dither_tile_at ts W (ky * ts) st (kx * ts))) = length (fst st) /\
  (forall j,
     arr_get (fst (TileDither.dither_tile_at ts W (ky * ts) st (kx * ts))) j
     = arr_get (fst st) j \/
     TileDither.black_or_white
       (arr_get (fst (TileDither.dither_tile_at ts W (ky * ts) st (kx * ts))) j)) /\
  (forall tx ty c, 0 <= tx < ts -> 0 <= ty < ts -> 0 <= c <= 1 ->
     TileDither.black_or_white
       (arr_get (fst (TileDither.dither_tile_at ts W (ky * ts) st (kx * ts)))
          (((ky * ts + ty) * W + (kx * ts + tx)) * 2 + c))).
Proof.
  intros Hkx Hky Hlen. unfold TileDither.dither_tile_at.
  set (b := (ky * ts * W + kx * ts) * 2).
  destruct (dither_rows ts W ltac:(lia) (snd st) (fst st) b)
    as ((Hl1 & Hbw1 & _) & Hdone1).
  set (st1 := TileDither.DitherTile ts W (snd st) (fst st) b) in *.
  destruct (dither_rows ts W ltac:(lia) (snd st1) (fst st1) (b + 1))
    as ((Hl2 & Hbw2 & _) & Hdone2).
  set (st2 := TileDither.DitherTile ts W (snd st1) (fst st1) (b + 1)) in *.
  assert (Hin : forall tx ty c, 0 <= tx < ts -> 0 <= ty < ts -> 0 <= c <= 1 ->
            0 <= b + c + ty * W * 2 + 2 * tx < W * H * 2).
  { intros tx ty c Htx Hty Hc. unfold b.
    assert (0 <= (ky * ts + ty) * W + (kx * ts + tx) < W * H).
    { apply cell_index_range; nia. }
    lia. }
  split; [congruence |]. split.
  - intros j. destruct (Hbw2 j) as [-> | Hb]; [apply Hbw1 | by right].
  - intros tx ty c Htx Hty Hc.
    replace (((ky * ts + ty) * W + (kx * ts + tx)) * 2 + c)
      with (b + c + ty * W * 2 + 2 * tx) by (unfold b; lia).
    specialize (Hin tx ty c Htx Hty Hc).
    assert (Hc' : c = 0 \/ c = 1) by lia. destruct Hc' as [-> | ->].
    + rewrite Z.add_0_r in *.
      destruct (Hbw2 (b + ty * W * 2 + 2 * tx)) as [-> | Hb]; [| done].
      apply Hdone1; [done | done | lia].
    + apply Hdone2; [done | done |]. rewrite Hl1. lia.
Qed.

(** The state before the tile (kx, ky) is processed. *)
Local Abbreviation tiles_inv px kx ky st :=
  (length (fst st) = length px /\
   forall kx' ky' tx ty c, 0 <= kx' < nx -> 0 <= ky' ->
     0 <= tx < ts -> 0 <= ty < ts -> 0 <= c <= 1 ->
     ky' < ky \/ (ky' = ky /\ kx' < kx) ->
     TileDither.black_or_white
       (arr_get (fst st) (((ky' * ts + ty) * W + (kx' * ts + tx)) * 2 + c))).

Lemma dither_tiles_spec (px : list Z) (re : list Z * list Z) :
  Z.of_nat (length px) = W * H * 2 ->
  length (fst (TileDither.dither_tiles ts W H (px, re))) = length px /\
  forall x y c, 0 <= x < W -> 0 <= y < H -> 0 <= c <= 1 ->
    TileDither.black_or_white
      (arr_get (fst (TileDither.dither_tiles ts W H (px, re))) ((y * W + x) * 2 + c)).
Proof.
  intros Hlen.
  assert (Hinv : tiles_inv px 0 ny (TileDither.dither_tiles ts W H (px, re))).
  { unfold TileDither.dither_tiles.
    replace (TileDither.tile_count ts W) with nx
      by (rewrite HWn; symmetry; by apply tile_count_exact).
    replace (TileDither.tile_count ts H) with ny
      by (rewrite HHn; symmetry; by apply tile_count_exact).
    apply (fold_seqZ_ind (fun ky st => tiles_inv px 0 ky st)); [done | |].
    - simpl. split; [done |]. intros. lia.
    - intros ky st Hky [Hl Hdone].
      assert (Hrow : tiles_inv px nx ky
                (fold_left
                   (fun st kx => TileDither.dither_tile_at ts W (ky * ts) st (kx * ts))
                   (seqZ 0 nx) st)).
      { apply (fold_seqZ_ind (fun kx st => tiles_inv px kx ky st)); [done | |].
        - split; [done |]. intros kx' ky' tx ty c Hkx' Hky' Htx Hty Hc Hlt.
          apply Hdone; solve [done | lia].
        - intros kx a Hkx [Hla Hda].
          destruct (dither_tile_at_spec a kx ky Hkx Hky) as (Hl' & Hbw' & Hnew);
            [rewrite Hla; done |].
          split; [congruence |].
          intros kx' ky' tx ty c Hkx' Hky' Htx Hty Hc Hlt.
          destruct (decide (ky' = ky /\ kx' = kx)) as [[-> ->] | Hne].
          + by apply Hnew.
          + destruct (Hbw' (((ky' * ts + ty) * W + (kx' * ts + tx)) * 2 + c))
              as [-> | Hb]; [| done].
            apply Hda; solve [done | lia]. }
      destruct Hrow as [Hl' Hdone'].
      split; [done |]. intros kx' ky' tx ty c Hkx' Hky' Htx Hty Hc Hlt.
      apply Hdone'; solve [done | lia]. }
  destruct Hinv as [Hl Hdone]. split; [done |].
  intros x y c Hx Hy Hc.
  assert (Hxd : x = x / ts * ts + x mod ts) by (pose proof (Z.div_mod x ts); lia).
  assert (Hyd : y = y / ts * ts + y mod ts) by (pose proof (Z.div_mod y ts); lia).
  pose proof (Z.mod_pos_bound x ts Hts). pose proof (Z.mod_pos_bound y ts Hts).
  rewrite Hxd at 1. rewrite Hyd at 1.
  apply Hdone; try done.
  - split; [apply Z.div_pos; lia |]. apply Z.div_lt_upper_bound; lia.
  - apply Z.div_pos; lia.
  - left. apply Z.div_lt_upper_bound; lia.
Qed.

End DitherImage.

Lemma clear_transparent_spec (W H : Z) (px : list Z) :
  0 <= W -> 0 <= H ->
  Z.of_nat (length px) = W * H * 2 ->
  length (TileDither.clear_transparent W H px) = length px /\
  forall x y, 0 <= x < W -> 0 <= y < H ->
    arr_get (TileDither.clear_transparent W H px) ((y * W + x) * 2 + 1)
    = arr_get px ((y * W + x) * 2 + 1) /\
    arr_get (TileDither.clear_transparent W H px) ((y * W + x) * 2)
    = if arr_get px ((y * W + x) * 2 + 1) =? 0 then 0 else arr_get px ((y * W + x) * 2).
Proof.
  intros HW HH Hlen.
  pose (P := fun (k : Z) (st : list Z * Z) =>
    snd st = 2 * k /\ length (fst st) = length px /\
    (forall x y, 0 <= x < W -> 0 <= y -> y * W + x < k ->
       arr_get (fst st) ((y * W + x) * 2 + 1) = arr_get px ((y * W + x) * 2 + 1) /\
       arr_get (fst st) ((y * W + x) * 2)
       = if arr_get px ((y * W + x) * 2 + 1) =? 0 then 0 else arr_get px ((y * W + x) * 2)) /\
    (forall j, 2 * k <= j -> arr_get (fst st) j = arr_get px j)).
  assert (Hstep : forall x y st, 0 <= x < W -> 0 <= y < H ->
            P (y * W + x) st -> P (y * W + x + 1) (TileDither.clear_pixel st x)).
  { intros x y [a p] Hx Hy (Hp & Hl & Hdone & Htodo). simpl in *. subst p.
    assert (Hk : 0 <= y * W + x < W * H) by (apply cell_index_range; lia).
    unfold P, TileDither.clear_pixel. cbn [fst snd].
    rewrite (Htodo (2 * (y * W + x) + 1)) by lia.
    split; [lia |].
    split; [destruct (_ =? 0); [by rewrite arr_set_length | done] |].
    split.
    - intros x' y' Hx' Hy' Hlt.
      destruct (decide (y' * W + x' = y * W + x)) as [Heq | Hne].
      + destruct (cell_index_inj W x' y' x y Hx' Hx Heq) as [-> ->].
        replace ((y * W + x) * 2) with (2 * (y * W + x)) by lia.
        destruct (arr_get px (2 * (y * W + x) + 1) =? 0).
        * rewrite arr_get_set_ne by lia. rewrite arr_get_set_eq by lia.
          split; [apply Htodo; lia | done].
        * split; apply Htodo; lia.
      + assert (Hlt' : y' * W + x' < y * W + x) by lia.
        destruct (Hdone x' y' Hx' Hy' Hlt') as [<- <-].
        destruct (arr_get px (2 * (y * W + x) + 1) =? 0); [| done].
        rewrite !arr_get_set_ne by lia. done.
    - intros j Hj.
      destruct (arr_get px (2 * (y * W + x) + 1) =? 0);
        [rewrite arr_get_set_ne by lia |]; apply Htodo; lia. }
  assert (HP : P (H * W)
            (fold_left (fun st y => fold_left TileDither.clear_pixel (seqZ 0 W) st)
               (seqZ 0 H) (px, 0))).
  { apply (fold_seqZ_ind (fun y st => P (y * W) st)); [done | |].
    - unfold P. simpl. split; [done |]. split; [done |]. split; [| done].
      intros x y Hx Hy Hlt. nia.
    - intros y st Hy Hst.
      replace ((y + 1) * W) with (y * W + W) by lia.
      apply (fold_seqZ_ind (fun x st => P (y * W + x) st)); [done | |].
      + by rewrite Z.add_0_r.
      + intros x a Hx Ha. rewrite Z.add_assoc. by apply Hstep. }
  destruct HP as (_ & Hl & Hdone & _). unfold TileDither.clear_transparent.
  split; [done |]. intros x y Hx Hy. apply Hdone; [done | lia | nia].
Qed.

Lemma process_spec (ts W H : Z) (re : list Z * list Z) (px : list Z) (x y : Z) :
  2 <= ts -> 0 <= W -> 0 <= H ->
  W mod ts = 0 -> H mod ts = 0 ->
  Z.of_nat (length px) = W * H * 2 ->
  0 <= x < W -> 0 <= y < H ->
  length (TileDither.process ts W H re px) = length px /\
  TileDither.black_or_white
    (arr_get (TileDither.process ts W H re px) ((y * W + x) * 2)) /\
  TileDither.black_or_white
    (arr_get (TileDither.process ts W H re px) ((y * W + x) * 2 + 1)) /\
  (arr_get (TileDither.process ts W H re px) ((y * W + x) * 2 + 1) = 0 ->
   arr_get (TileDither.process ts W H re px) ((y * W + x) * 2) = 0).
Proof.
  intros Hts HW HH HWm HHm Hlen Hx Hy.
  assert (HWn : W = W / ts * ts) by (pose proof (Z.div_mod W ts); lia).
  assert (HHn : H = H / ts * ts) by (pose proof (Z.div_mod H ts); lia).
  assert (Hnx : 0 <= W / ts) by (apply Z.div_pos; lia).
  assert (Hny : 0 <= H / ts) by (apply Z.div_pos; lia).
  destruct (dither_tiles_spec ts W H (W / ts) (H / ts) ltac:(lia) Hnx Hny HWn HHn px re Hlen)
    as [Hl Hbw].
  unfold TileDither.process.
  set (d := fst (TileDither.dither_tiles ts W H (px, re))) in *.
  destruct (clear_transparent_spec W H d HW HH) as [Hl' Hclear]; [by rewrite Hl |].
  destruct (Hclear x y Hx Hy) as [Ha Hg].
  pose proof (Hbw x y 0 Hx Hy ltac:(lia)) as Hg0. rewrite Z.add_0_r in Hg0.
  pose proof (Hbw x y 1 Hx Hy ltac:(lia)) as Ha0.
  split; [congruence |]. rewrite Ha, Hg.
  split; [destruct (_ =? 0); [by left | done] |].
  split; [done |].
  intros ->. done.
Qed.

Lemma fold_seqZ_sim {A B : Type} (R : Z -> A -> B -> Prop)
    (f : A -> Z -> A) (g : B -> Z -> B) (a0 : A) (b0 : B) (n : Z) :
  0 <= n -> R 0 a0 b0 ->
  (forall i a b, 0 <= i < n -> R i a b -> R (i + 1) (f a i) (g b i)) ->
  R n (fold_left f (seqZ 0 n) a0) (fold_left g (seqZ 0 n) b0).
Proof.
  intros Hn H0 Hstep.
  assert (Hk : forall k : nat, Z.of_nat k <= n ->
            R (Z.of_nat k) (fold_left f (seqZ 0 (Z.of_nat k)) a0)
              (fold_left g (seqZ 0 (Z.of_nat k)) b0)).
  { induction k as [| k IH]; intros Hle.
    - simpl. done.
    - rewrite seqZ_S, !fold_left_app. simpl. rewrite Z.add_0_l.
      replace (Z.of_nat (S k)) with (Z.of_nat k + 1) by lia.
      apply Hstep; [lia |]. apply IH. lia. }
  specialize (Hk (Z.to_nat n)). rewrite Z2Nat.id in Hk by done. apply Hk. lia.
Qed.

Lemma memset_zero_full (a : list Z) (n : Z) :
  Z.of_nat (length a) = n ->
  TileDither.memset_zero a n = replicate (Z.to_nat n) 0.
Proof.
  intros Hn. unfold TileDither.memset_zero.
  rewrite drop_ge by lia. rewrite app_nil_r. f_equal. lia.
Qed.

Lemma add_at_length (re : list Z * list Z) (k i v k' : Z) :
  length (TileDither.row (TileDither.add_at re k i v) k')
  = length (TileDither.row re k').
Proof.
  unfold TileDither.add_at, TileDither.set_row, TileDither.row.
  destruct (k =? 0), (k' =? 0); simpl; by rewrite ?arr_set_length.
Qed.

Lemma dither_pixel_errors (y0 y1 : Z) (px px' : list Z) (re : list Z * list Z)
    (p p' tx : Z) :
  arr_get px p = arr_get px' p' ->
  snd (fst (TileDither.dither_pixel y0 y1 (px, re, p) tx))
  = snd (fst (TileDither.dither_pixel y0 y1 (px', re, p') tx)).
Proof. intros Heq. unfold TileDither.dither_pixel. cbn [fst snd]. by rewrite Heq. Qed.

Lemma dither_pixel_lengths (y0 y1 : Z) (px : list Z) (re : list Z * list Z) (p tx k : Z) :
  length (TileDither.row (snd (fst (TileDither.dither_pixel y0 y1 (px, re, p) tx))) k)
  = length (TileDither.row re k).
Proof. unfold TileDither.dither_pixel. cbn [fst snd]. by rewrite !add_at_length. Qed.

Section DitherLocal.

Variables ts iw1 iw2 b1 b2 : Z.
Variables px1 px2 : list Z.
Hypothesis Hts : 0 < ts.
Hypothesis Hw1 : ts <= iw1.
Hypothesis Hw2 : ts <= iw2.
Hypothesis Hin1 : forall tx ty, 0 <= tx < ts -> 0 <= ty < ts ->
  0 <= b1 + ty * iw1 * 2 + 2 * tx < Z.of_nat (length px1).
Hypothesis Hin2 : forall tx ty, 0 <= tx < ts -> 0 <= ty < ts ->
  0 <= b2 + ty * iw2 * 2 + 2 * tx < Z.of_nat (length px2).

Local Set Warnings "-inconsistent-scopes".

(** The two images hold the same levels on the two tiles. *)
Local Abbreviation agree pa pb :=
  (length pa = length px1 /\ length pb = length px2 /\
   forall tx ty, 0 <= tx < ts -> 0 <= ty < ts ->
     arr_get pa (b1 + ty * iw1 * 2 + 2 * tx) = arr_get pb (b2 + ty * iw2 * 2 + 2 * tx)).

Lemma scan_pixels_sim (y0 y1 ty : Z) (pa pb : list Z) (re : list Z * list Z) :
  0 <= ty < ts ->
  agree pa pb ->
  let sa := fold_left (TileDither.dither_pixel y0 y1) (seqZ 0 ts)
              (pa, re, b1 + ty * iw1 * 2) in
  let sb := fold_left (TileDither.dither_pixel y0 y1) (seqZ 0 ts)
              (pb, re, b2 + ty * iw2 * 2) in
  agree (fst (fst sa)) (fst (fst sb)) /\ snd (fst sa) = snd (fst sb) /\
  forall k, length (TileDither.row (snd (fst sa)) k) = length (TileDither.row re k).
Proof.
  intros Hty Hag sa sb. subst sa sb.
  pose (R := fun (tx : Z) (sa sb : list Z * (list Z * list Z) * Z) =>
    snd sa = b1 + ty * iw1 * 2 + 2 * tx /\ snd sb = b2 + ty * iw2 * 2 + 2 * tx /\
    agree (fst (fst sa)) (fst (fst sb)) /\ snd (fst sa) = snd (fst sb) /\
    forall k, length (TileDither.row (snd (fst sa)) k) = length (TileDither.row re k)).
  assert (HR : R ts
            (fold_left (TileDither.dither_pixel y0 y1) (seqZ 0 ts) (pa, re, b1 + ty * iw1 * 2))
            (fold_left (TileDither.dither_pixel y0 y1) (seqZ 0 ts) (pb, re, b2 + ty * iw2 * 2))).
  { apply (fold_seqZ_sim R); [lia | |].
    - unfold R. simpl. split; [lia |]. split; [lia |]. done.
    - intros tx [[qa ra] p] [[qb rb] p'] Htx (Hp & Hp' & (Hla & Hlb & Hag') & Hre & Hlen).
      simpl in Hp, Hp', Hla, Hlb, Hag', Hre, Hlen. subst p p' rb.
      pose proof (Hag' tx ty Htx Hty) as Hcur.
      destruct (dither_pixel_pixels y0 y1 qa ra (b1 + ty * iw1 * 2 + 2 * tx) tx) as [Ha Hpa].
      destruct (dither_pixel_pixels y0 y1 qb ra (b2 + ty * iw2 * 2 + 2 * tx) tx) as [Hb Hpb].
      unfold R. rewrite Ha, Hb, Hpa, Hpb. rewrite <- Hcur.
      split; [lia |]. split; [lia |]. split; [split; [| split] | split].
      + by rewrite arr_set_length.
      + by rewrite arr_set_length.
      + intros tx' ty' Htx' Hty'.
        destruct (decide (ty' * iw1 + tx' = ty * iw1 + tx)) as [Heq | Hne].
        * destruct (cell_index_inj iw1 tx' ty' tx ty ltac:(lia) ltac:(lia) Heq) as [-> ->].
          pose proof (Hin1 tx ty Htx Hty). pose proof (Hin2 tx ty Htx Hty).
          rewrite !arr_get_set_eq by lia. done.
        * assert (Hne' : ty' * iw2 + tx' <> ty * iw2 + tx).
          { intros Heq. apply Hne.
            destruct (cell_index_inj iw2 tx' ty' tx ty ltac:(lia) ltac:(lia) Heq) as [-> ->].
            done. }
          rewrite !arr_get_set_ne by lia. by apply Hag'.
      + by apply dither_pixel_errors.
      + intros k. rewrite dither_pixel_lengths. apply Hlen. }
  destruct HR as (_ & _ & Hag' & Hre & Hlen). done.
Qed.

Lemma dither_rows_sim (re1 re2 : list Z * list Z) :
  Z.of_nat (length (fst re1)) = ts + 2 -> Z.of_nat (length (snd re1)) = ts + 2 ->
  Z.of_nat (length (fst re2)) = ts + 2 -> Z.of_nat (length (snd re2)) = ts + 2 ->
  (forall tx ty, 0 <= tx < ts -> 0 <= ty < ts ->
     arr_get px1 (b1 + ty * iw1 * 2 + 2 * tx) = arr_get px2 (b2 + ty * iw2 * 2 + 2 * tx)) ->
  forall tx ty, 0 <= tx < ts -> 0 <= ty < ts ->
    arr_get (fst (TileDither.DitherTile ts iw1 re1 px1 b1)) (b1 + ty * iw1 * 2 + 2 * tx)
    = arr_get (fst (TileDither.DitherTile ts iw2 re2 px2 b2)) (b2 + ty * iw2 * 2 + 2 * tx).
Proof.
  intros Hl10 Hl11 Hl20 Hl21 Hsame.
  unfold TileDither.DitherTile. cbn [fst snd].
  pose (R := fun (ty : Z) (sa sb : list Z * (list Z * list Z) * Z * Z) =>
    snd sa = snd sb /\ snd (fst sa) = snd (fst sb) /\
    ((snd (fst sa) = 0 /\ snd sa = 1) \/ (snd (fst sa) = 1 /\ snd sa = 0)) /\
    TileDither.row (snd (fst (fst sa))) (snd (fst sa))
    = TileDither.row (snd (fst (fst sb))) (snd (fst sa)) /\
    (forall k, Z.of_nat (length (TileDither.row (snd (fst (fst sa))) k)) = ts + 2) /\
    (forall k, Z.of_nat (length (TileDither.row (snd (fst (fst sb))) k)) = ts + 2) /\
    agree (fst (fst (fst sa))) (fst (fst (fst sb)))).
  set (ra := TileDither.set_row re1 0 _). set (rb := TileDither.set_row re2 0 _).
  assert (HR : R ts
            (fold_left (TileDither.dither_row ts iw1 b1) (seqZ 0 ts) (px1, ra, 0, 1))
            (fold_left (TileDither.dither_row ts iw2 b2) (seqZ 0 ts) (px2, rb, 0, 1))).
  { apply (fold_seqZ_sim R); [lia | |].
    - unfold R, ra, rb. cbn [fst snd]. split; [done |]. split; [done |].
      split; [by left |]. split; [| split; [| split]].
      + change (TileDither.row re1 0) with (fst re1).
        change (TileDither.row re2 0) with (fst re2).
        rewrite !memset_zero_full by done. done.
      + intros k. change (TileDither.row re1 0) with (fst re1).
        rewrite memset_zero_full by done. unfold TileDither.row, TileDither.set_row.
        simpl. destruct (k =? 0); simpl; [rewrite length_replicate |]; lia.
      + intros k. change (TileDither.row re2 0) with (fst re2).
        rewrite memset_zero_full by done. unfold TileDither.row, TileDither.set_row.
        simpl. destruct (k =? 0); simpl; [rewrite length_replicate |]; lia.
      + done.
    - intros ty [[[qa ea] y0] y1] [[[qb eb] y0'] y1'] Hty
        (Hy1 & Hy0 & Hy & Hrow & Hla & Hlb & Hag).
      cbn [fst snd] in Hy1, Hy0, Hy, Hrow, Hla, Hlb, Hag. subst y0' y1'.
      unfold R, TileDither.dither_row. cbn [fst snd].
      assert (Hre : TileDither.set_row ea y1 (TileDither.memset_zero (TileDither.row ea y1) (ts + 2))
                    = TileDither.set_row eb y1 (TileDither.memset_zero (TileDither.row eb y1) (ts + 2))).
      { rewrite !memset_zero_full by done.
        destruct Hy as [[-> ->] | [-> ->]];
          unfold TileDither.set_row, TileDither.row in *; simpl in *; by rewrite Hrow. }
      rewrite <- Hre. set (e := TileDither.set_row ea y1 _).
      assert (Hle : forall k, Z.of_nat (length (TileDither.row e k)) = ts + 2).
      { intros k. unfold e. rewrite memset_zero_full by done.
        pose proof (Hla k) as Hk. pose proof (Hla 0) as Hk0. pose proof (Hla 1) as Hk1.
        unfold TileDither.row, TileDither.set_row in *. simpl in *.
        destruct (y1 =? 0), (k =? 0); simpl; rewrite ?length_replicate; lia. }
      destruct (scan_pixels_sim y0 y1 ty qa qb e Hty Hag) as (Hag' & Hre' & Hlen').
      cbn zeta in Hag', Hre', Hlen'.
      split; [done |]. split; [done |].
      split; [destruct Hy as [[-> ->] | [-> ->]]; simpl; auto |].
      split; [by rewrite Hre' |].
      split; [intros k; rewrite Hlen'; apply Hle |].
      split; [intros k; rewrite <- Hre', Hlen'; apply Hle |].
      done. }
  destruct HR as (_ & _ & _ & _ & _ & _ & _ & _ & Hag). apply Hag.
Qed.

End DitherLocal.

(** X20.  The dithering of a tile depends on the levels of that tile alone:
    two tiles that hold the same levels are dithered to the same levels,
    whatever their positions, the images around them, the channels they
    lie in, and whatever the error rows held before. *)
Theorem X20_dither_tile_local (ts iw1 iw2 : Z) (re1 re2 : list Z * list Z)
    (px1 px2 : list Z) (x1 y1 c1 x2 y2 c2 tx ty : Z) :
  2 <= ts ->
  0 <= x1 -> x1 + ts <= iw1 -> 0 <= y1 -> 0 <= c1 <= 1 ->
  (y1 + ts) * iw1 * 2 <= Z.of_nat (length px1) ->
  0 <= x2 -> x2 + ts <= iw2 -> 0 <= y2 -> 0 <= c2 <= 1 ->
  (y2 + ts) * iw2 * 2 <= Z.of_nat (length px2) ->
  Z.of_nat (length (fst re1)) = ts + 2 -> Z.of_nat (length (snd re1)) = ts + 2 ->
  Z.of_nat (length (fst re2)) = ts + 2 -> Z.of_nat (length (snd re2)) = ts + 2 ->
  (forall u v, 0 <= u < ts -> 0 <= v < ts ->
     arr_get px1 (((y1 + v) * iw1 + (x1 + u)) * 2 + c1)
     = arr_get px2 (((y2 + v) * iw2 + (x2 + u)) * 2 + c2)) ->
  0 <= tx < ts -> 0 <= ty < ts ->
  arr_get (fst (TileDither.DitherTile ts iw1 re1 px1 ((y1 * iw1 + x1) * 2 + c1)))
    (((y1 + ty) * iw1 + (x1 + tx)) * 2 + c1)
  = arr_get (fst (TileDither.DitherTile ts iw2 re2 px2 ((y2 * iw2 + x2) * 2 + c2)))
      (((y2 + ty) * iw2 + (x2 + tx)) * 2 + c2).
Proof.
  intros Hts Hx1 Hxw1 Hy1 Hc1 Hlen1 Hx2 Hxw2 Hy2 Hc2 Hlen2 Hl10 Hl11 Hl20 Hl21
    Hsame Htx Hty.
  replace (((y1 + ty) * iw1 + (x1 + tx)) * 2 + c1)
    with ((y1 * iw1 + x1) * 2 + c1 + ty * iw1 * 2 + 2 * tx) by lia.
  replace (((y2 + ty) * iw2 + (x2 + tx)) * 2 + c2)
    with ((y2 * iw2 + x2) * 2 + c2 + ty * iw2 * 2 + 2 * tx) by lia.
  apply dither_rows_sim; try done; try lia.
  - intros u v Hu Hv. nia.
  - intros u v Hu Hv. nia.
  - intros u v Hu Hv.
    replace ((y1 * iw1 + x1) * 2 + c1 + v * iw1 * 2 + 2 * u)
      with (((y1 + v) * iw1 + (x1 + u)) * 2 + c1) by lia.
    replace ((y2 * iw2 + x2) * 2 + c2 + v * iw2 * 2 + 2 * u)
      with (((y2 + v) * iw2 + (x2 + u)) * 2 + c2) by lia.
    by apply Hsame.
Qed.

(** X21.  What tile_dither.c writes is a black and white image with a one
    bit transparency: for an image whose sides are multiples of the tile
    size, every gray level and every alpha of the output is 0 or 255, every
    pixel of alpha 0 has gray level 0, and the image keeps its size. *)
Theorem X21_dither_output (ts W H : Z) (re : list Z * list Z) (px : list Z) (x y : Z) :
  2 <= ts -> 0 <= W -> 0 <= H ->
  W mod ts = 0 -> H mod ts = 0 ->
  Z.of_nat (length px) = W * H * 2 ->
  0 <= x < W -> 0 <= y < H ->
  length (TileDither.process ts W H re px) = length px /\
  TileDither.black_or_white
    (arr_get (TileDither.process ts W H re px) ((y * W + x) * 2)) /\
  TileDither.black_or_white
    (arr_get (TileDither.process ts W H re px) ((y * W + x) * 2 + 1)) /\
  (arr_get (TileDither.process ts W H re px) ((y * W + x) * 2 + 1) = 0 ->
   arr_get (TileDither.process ts W H re px) ((y * W + x) * 2) = 0).
Proof. apply process_spec. Qed.

Lemma fold_left_keeps {A B : Type} (P : A -> Prop) (f : A -> B -> A) (l : list B) (a : A) :
  (forall a i, P a -> P (f a i)) -> P a -> P (fold_left f l a).
Proof. intros Hstep. revert a. induction l as [| i l IH]; simpl; auto. Qed.

Lemma arr_set_get_same (a : list Z) (i : Z) : arr_set a i (arr_get a i) = a.
Proof.
  destruct (decide (0 <= i < Z.of_nat (length a))) as [Hin | Hout].
  - by apply arr_set_same.
  - unfold arr_set. destruct (Z.ltb_spec i 0); [done |].
    apply list_insert_ge. lia.
Qed.

Lemma add_at_zero (re : list Z * list Z) (k i : Z) : TileDither.add_at re k i 0 = re.
Proof.
  unfold TileDither.add_at. rewrite Z.add_0_r, arr_set_get_same.
  unfold TileDither.set_row, TileDither.row. destruct re, (k =? 0); done.
Qed.

Lemma memset_zero_get (a : list Z) (n j : Z) :
  0 <= j < n -> arr_get (TileDither.memset_zero a n) j = 0.
Proof.
  intros Hj. unfold arr_get, TileDither.memset_zero.
  destruct (Z.ltb_spec j 0); [lia |].
  destruct (decide (Z.to_nat j < length a)%nat) as [Hin | Hout].
  - rewrite lookup_app_l by (rewrite length_replicate; lia).
    rewrite lookup_replicate_2 by lia. done.
  - rewrite lookup_ge_None_2; [done |].
    rewrite length_app, length_replicate, length_drop. lia.
Qed.

Lemma dither_pixel_fix (y0 y1 : Z) (px : list Z) (re : list Z * list Z) (p tx : Z) :
  arr_get (TileDither.row re y0) (tx + 1) = 0 ->
  TileDither.black_or_white (arr_get px p) ->
  TileDither.dither_pixel y0 y1 (px, re, p) tx = (px, re, p + 2).
Proof.
  intros Hre Hbw. unfold TileDither.dither_pixel. cbv zeta. rewrite Hre.
  assert (Hi : TileDither.intended (arr_get px p) 0 = arr_get px p)
    by (unfold TileDither.intended; change (0 ÷ 16) with 0; lia).
  assert (Ho : TileDither.output (arr_get px p) = arr_get px p)
    by (destruct Hbw as [-> | ->]; reflexivity).
  rewrite Hi, Ho, Z.sub_diag. change (0 * 7) with 0. change (0 * 3) with 0.
  change (0 * 5) with 0. rewrite !add_at_zero, arr_set_get_same. done.
Qed.

Section DitherFix.

Variables ts iw : Z.

Lemma scan_pixels_fix (y0 y1 : Z) (px : list Z) (re : list Z * list Z) (p0 : Z) :
  0 <= ts ->
  (forall tx, 0 <= tx < ts -> arr_get (TileDither.row re y0) (tx + 1) = 0) ->
  (forall tx, 0 <= tx < ts -> TileDither.black_or_white (arr_get px (p0 + 2 * tx))) ->
  fold_left (TileDither.dither_pixel y0 y1) (seqZ 0 ts) (px, re, p0)
  = (px, re, p0 + 2 * ts).
Proof.
  intros Hts Hre Hbw.
  apply (fold_seqZ_ind (fun k st => st = (px, re, p0 + 2 * k))); [done | |].
  - f_equal. lia.
  - intros k st Hk ->. rewrite dither_pixel_fix by auto. f_equal. lia.
Qed.

Lemma DitherTile_fix (re : list Z * list Z) (px : list Z) (base : Z) :
  (forall j, TileDither.black_or_white (arr_get px j)) ->
  fst (TileDither.DitherTile ts iw re px base) = px.
Proof.
  intros Hbw. unfold TileDither.DitherTile. cbn [fst snd].
  set (re0 := TileDither.set_row re 0 _).
  pose (P := fun (st : list Z * (list Z * list Z) * Z * Z) =>
    fst (fst (fst st)) = px /\
    ((snd (fst st) = 0 /\ snd st = 1) \/ (snd (fst st) = 1 /\ snd st = 0)) /\
    forall j, 0 <= j < ts + 2 ->
      arr_get (TileDither.row (snd (fst (fst st))) (snd (fst st))) j = 0).
  assert (HP : P (fold_left (TileDither.dither_row ts iw base) (seqZ 0 ts) (px, re0, 0, 1))).
  { apply fold_left_keeps.
    - intros [[[px' re'] y0] y1] ty (Hpx & Hy & Hzero). cbn [fst snd] in Hpx, Hy, Hzero.
      subst px'. unfold P, TileDither.dither_row. cbn [fst snd].
      set (e := TileDither.set_row re' y1 _).
      assert (He0 : TileDither.row e y0 = TileDither.row re' y0).
      { unfold e, TileDither.row, TileDither.set_row.
        destruct Hy as [[-> ->] | [-> ->]]; done. }
      assert (He1 : TileDither.row e y1
                    = TileDither.memset_zero (TileDither.row re' y1) (ts + 2)).
      { unfold e, TileDither.row, TileDither.set_row.
        destruct Hy as [[-> ->] | [-> ->]]; done. }
      destruct (Z.le_gt_cases 0 ts) as [Hts | Hts].
      + rewrite scan_pixels_fix; [| done | |].
        * cbn [fst snd]. split; [done |].
          split; [destruct Hy as [[-> ->] | [-> ->]]; simpl; auto |].
          intros j Hj.
          replace (Z.lxor y0 1) with y1
            by (destruct Hy as [[-> ->] | [-> ->]]; reflexivity).
          rewrite He1. by apply memset_zero_get.
        * intros tx Htx. rewrite He0. apply Hzero. lia.
        * intros tx Htx. apply Hbw.
      + rewrite seqZ_nil by lia. cbn [fold_left fst snd]. split; [done |].
        split; [destruct Hy as [[-> ->] | [-> ->]]; simpl; auto |].
        intros j Hj.
        replace (Z.lxor y0 1) with y1
          by (destruct Hy as [[-> ->] | [-> ->]]; reflexivity).
        rewrite He1. by apply memset_zero_get.
    - unfold P, re0. cbn [fst snd]. split; [done |]. split; [by left |].
      intros j Hj. unfold TileDither.row, TileDither.set_row. simpl.
      by apply memset_zero_get. }
  apply HP.
Qed.

End DitherFix.

Lemma dither_tiles_fix (ts W H : Z) (re : list Z * list Z) (px : list Z) :
  (forall j, TileDither.black_or_white (arr_get px j)) ->
  fst (TileDither.dither_tiles ts W H (px, re)) = px.
Proof.
  intros Hbw. unfold TileDither.dither_tiles.
  apply (fold_left_keeps (fun st => fst st = px)); [| done].
  intros st ky Hst.
  apply (fold_left_keeps (fun st => fst st = px)); [| done].
  intros [q e] kx Hq. simpl in Hq. subst q. unfold TileDither.dither_tile_at.
  cbn [fst snd]. rewrite (DitherTile_fix ts W e px _ Hbw).
  by apply DitherTile_fix.
Qed.

(** X22.  tile_dither.c leaves its own output alone: processing the output
    once more, with whatever the error rows hold, gives the same image. *)
Theorem X22_dither_idempotent (ts W H : Z) (re re' : list Z * list Z) (px : list Z) :
  2 <= ts -> 0 <= W -> 0 <= H ->
  W mod ts = 0 -> H mod ts = 0 ->
  Z.of_nat (length px) = W * H * 2 ->
  TileDither.process ts W H re' (TileDither.process ts W H re px)
  = TileDither.process ts W H re px.
Proof.
  intros Hts HW HH HWm HHm Hlen.
  set (q := TileDither.process ts W H re px).
  assert (Hq : forall x y, 0 <= x < W -> 0 <= y < H ->
            length q = length px /\
            TileDither.black_or_white (arr_get q ((y * W + x) * 2)) /\
            TileDither.black_or_white (arr_get q ((y * W + x) * 2 + 1)) /\
            (arr_get q ((y * W + x) * 2 + 1) = 0 -> arr_get q ((y * W + x) * 2) = 0)).
  { intros x y Hx Hy. by apply process_spec. }
  assert (Hlq : length q = length px).
  { destruct (decide (W * H = 0)) as [Hz | Hnz].
    - unfold q, TileDither.process.
      assert (HWn : W = W / ts * ts) by (pose proof (Z.div_mod W ts); lia).
      assert (HHn : H = H / ts * ts) by (pose proof (Z.div_mod H ts); lia).
      destruct (dither_tiles_spec ts W H (W / ts) (H / ts) ltac:(lia)
                  ltac:(apply Z.div_pos; lia) ltac:(apply Z.div_pos; lia)
                  HWn HHn px re Hlen) as [Hl _].
      destruct (clear_transparent_spec W H
                  (fst (TileDither.dither_tiles ts W H (px, re))) HW HH) as [Hl' _];
        [by rewrite Hl |].
      congruence.
    - apply (Hq 0 0); nia. }
  assert (Hbw : forall j, TileDither.black_or_white (arr_get q j)).
  { intros j. destruct (decide (0 <= j < W * H * 2)) as [Hin | Hout].
    - destruct (pixel_index W H j HW Hin) as (x & y & c & Hx & Hy & Hc & ->).
      destruct (Hq x y Hx Hy) as (_ & Hg & Ha & _).
      assert (Hc' : c = 0 \/ c = 1) by lia.
      destruct Hc' as [-> | ->]; [by rewrite Z.add_0_r | done].
    - rewrite arr_get_outside by lia. by left. }
  unfold TileDither.process at 1. rewrite dither_tiles_fix by done.
  destruct (clear_transparent_spec W H q HW HH) as [Hl Hclear]; [lia |].
  apply arr_ext; [done |]. intros j Hj.
  destruct (pixel_index W H j HW) as (x & y & c & Hx & Hy & Hc & ->); [lia |].
  destruct (Hclear x y Hx Hy) as [Ha Hg].
  destruct (Hq x y Hx Hy) as (_ & _ & _ & Hblack).
  assert (Hc' : c = 0 \/ c = 1) by lia. destruct Hc' as [-> | ->].
  - rewrite Z.add_0_r, Hg.
    destruct (Z.eqb_spec (arr_get q ((y * W + x) * 2 + 1)) 0) as [Hz | Hnz]; [| done].
    symmetry. by apply Hblack.
  - done.
Qed.

(** ** The wall tile table *)

Lemma paints_refl (px : list Z) : WallTiles.paints px px.
Proof. split; [done |]. intros j. by left. Qed.

Lemma paints_trans (a b c : list Z) :
  WallTiles.paints a b -> WallTiles.paints b c -> WallTiles.paints a c.
Proof.
  intros [Hl1 H1] [Hl2 H2]. split; [congruence |].
  intros j. destruct (H2 j) as [-> | Hp]; [apply H1 | by right].
Qed.

Section RectFacts.

Variables x y w : Z.
Variable px : list Z.
Hypothesis Hx : 0 <= x.
Hypothesis Hxw : x + w <= WallTiles.IMAGE_WIDTH.
Hypothesis Hy : 0 <= y.

(** The image after the rows before [k] and the first [i] pixels of the
    row [k] are drawn. *)
Local Abbreviation drawn k i out :=
  (length out = length px /\
   forall px' py' c, 0 <= px' < WallTiles.IMAGE_WIDTH -> 0 <= py' -> 0 <= c <= 1 ->
     arr_get out (WallTiles.offset px' py' c)
     = if decide (c = 1 /\ x <= px' /\
                  ((px' < x + w /\ y <= py' < y + k) \/ (px' < x + i /\ py' = y + k)))
       then 0xff else arr_get px (WallTiles.offset px' py' c)).

Lemma rect_row_spec (k : Z) (out : list Z) :
  0 <= w -> 0 <= k ->
  ((y + k + 1) * WallTiles.IMAGE_WIDTH) * 2 <= Z.of_nat (length px) ->
  drawn k 0 out -> drawn (k + 1) 0 (WallTiles.rect_row x y w out k).
Proof.
  intros Hw Hk Hlen Hout. unfold WallTiles.rect_row.
  set (p0 := ((y + k) * WallTiles.IMAGE_WIDTH + x) * 2 + 1).
  pose (P := fun (i : Z) (st : list Z * Z) => snd st = p0 + 2 * i /\ drawn k i (fst st)).
  assert (Hrow : P w
            (fold_left (fun st ix => (arr_set (fst st) (snd st) 0xff, snd st + 2))
               (seqZ 0 w) (out, p0))).
  { apply (fold_seqZ_ind P); [done | |]; unfold P.
    - simpl. split; [lia |]. done.
    - intros i [a p] Hi (Hp & Hl & Hget). simpl in Hp, Hl, Hget. subst p.
      cbn [fst snd]. split; [lia |]. split; [by rewrite arr_set_length |].
      intros px' py' c Hpx' Hpy' Hc.
      assert (Hin : 0 <= p0 + 2 * i < Z.of_nat (length a)).
      { rewrite Hl. unfold p0, WallTiles.IMAGE_WIDTH, WallTiles.TILE_SIZE in *. nia. }
      rewrite arr_get_set by done.
      destruct (decide (p0 + 2 * i = WallTiles.offset px' py' c)) as [Heq | Hne].
      + assert (Hc1 : c = 1) by (unfold p0, WallTiles.offset in Heq; lia).
        subst c.
        assert (Hcell : py' * WallTiles.IMAGE_WIDTH + px'
                        = (y + k) * WallTiles.IMAGE_WIDTH + (x + i))
          by (unfold p0, WallTiles.offset in Heq; lia).
        destruct (cell_index_inj WallTiles.IMAGE_WIDTH px' py' (x + i) (y + k)
                    Hpx' ltac:(lia) Hcell) as [-> ->].
        rewrite decide_True; [done | lia].
      + rewrite Hget by done.
        assert (Hnot : ~ (c = 1 /\ px' = x + i /\ py' = y + k)).
        { intros (-> & -> & ->). apply Hne. unfold p0, WallTiles.offset. lia. }
        destruct (decide (c = 1 /\ x <= px' /\
                    ((px' < x + w /\ y <= py' < y + k) \/ (px' < x + i /\ py' = y + k))));
          [rewrite decide_True; [done | lia] | rewrite decide_False; [done | lia]]. }
  destruct Hrow as (_ & Hl & Hget). split; [done |].
  intros px' py' c Hpx' Hpy' Hc. rewrite Hget by done.
  destruct (decide (c = 1 /\ x <= px' /\
              ((px' < x + w /\ y <= py' < y + k) \/ (px' < x + w /\ py' = y + k))));
    [rewrite decide_True; [done | lia] | rewrite decide_False; [done | lia]].
Qed.

Lemma Rect_spec (h : Z) :
  0 <= w -> 0 <= h ->
  ((y + h) * WallTiles.IMAGE_WIDTH) * 2 <= Z.of_nat (length px) ->
  length (WallTiles.Rect px x y w h) = length px /\
  forall px' py' c, 0 <= px' < WallTiles.IMAGE_WIDTH -> 0 <= py' -> 0 <= c <= 1 ->
    arr_get (WallTiles.Rect px x y w h) (WallTiles.offset px' py' c)
    = if decide (c = 1 /\ x <= px' < x + w /\ y <= py' < y + h)
      then 0xff else arr_get px (WallTiles.offset px' py' c).
Proof.
  intros Hw Hh Hlen. unfold WallTiles.Rect.
  pose (P := fun (k : Z) (out : list Z) => drawn k 0 out).
  assert (Hall : P h (fold_left (WallTiles.rect_row x y w) (seqZ 0 h) px)).
  { apply (fold_seqZ_ind P); [done | |]; unfold P.
    - split; [done |]. intros px' py' c Hpx' Hpy' Hc. rewrite decide_False; [done | lia].
    - intros k out Hk Hout. apply rect_row_spec; [done | lia | | done].
      unfold WallTiles.IMAGE_WIDTH, WallTiles.TILE_SIZE in *. nia. }
  destruct Hall as [Hl Hget]. split; [done |].
  intros px' py' c Hpx' Hpy' Hc. rewrite Hget by done.
  destruct (decide (c = 1 /\ x <= px' < x + w /\ y <= py' < y + h));
    [rewrite decide_True; [done | lia] | rewrite decide_False; [done | lia]].
Qed.

End RectFacts.

Lemma Rect_paints (px : list Z) (x y w h : Z) :
  WallTiles.paints px (WallTiles.Rect px x y w h).
Proof.
  unfold WallTiles.Rect. apply (fold_left_keeps (WallTiles.paints px)); [| apply paints_refl].
  intros a iy Ha. apply (paints_trans _ a); [done |].
  unfold WallTiles.rect_row.
  set (p0 := ((y + iy) * WallTiles.IMAGE_WIDTH + x) * 2 + 1).
  enough (Hrow : (fun st : list Z * Z => snd st mod 2 = 1 /\ WallTiles.paints a (fst st))
            (fold_left (fun st ix => (arr_set (fst st) (snd st) 0xff, snd st + 2))
               (seqZ 0 w) (a, p0))) by apply Hrow.
  apply fold_left_keeps.
  - intros [b p] ix [Hp Hb]. simpl in *. split.
    + rewrite <- Hp. replace (p + 2) with (p + 1 * 2) by lia. apply Z.mod_add. lia.
    + apply (paints_trans _ b); [done |]. split; [by rewrite arr_set_length |].
      intros j. destruct (decide (p = j)) as [<- | Hne].
      * destruct (arr_get_set_cases b p p 255) as [-> | ->]; [by right | by left].
      * left. by apply arr_get_set_ne.
  - simpl. split; [| apply paints_refl].
    unfold p0. rewrite Z.add_comm, Z.mul_comm. rewrite Z.add_comm.
    replace (2 * ((y + iy) * WallTiles.IMAGE_WIDTH + x) + 1)
      with (1 + ((y + iy) * WallTiles.IMAGE_WIDTH + x) * 2) by lia.
    rewrite Z.mod_add by lia. done.
Qed.

Lemma AddDebugTiles_paints (px : list Z) :
  WallTiles.paints px (WallTiles.AddDebugTiles px).
Proof.
  unfold WallTiles.AddDebugTiles. cbv zeta.
  eapply paints_trans; [| apply fold_left_keeps with (P := WallTiles.paints _)].
  - eapply paints_trans; [| apply Rect_paints].
    eapply paints_trans; [| apply Rect_paints].
    eapply paints_trans; [| apply Rect_paints]. apply Rect_paints.
  - intros a yy Ha. apply (paints_trans _ a); [done |].
    apply (fold_left_keeps (WallTiles.paints a)); [| apply paints_refl].
    intros b k Hb. apply (paints_trans _ b); [done |].
    unfold WallTiles.dotted_pixel. destruct (_ || _); [apply Rect_paints | apply paints_refl].
  - apply paints_refl.
Qed.

(** X23.  Rect makes a rectangle opaque and writes nothing else: the alpha
    of every pixel of the rectangle becomes 0xff, every gray level and the
    alpha of every other pixel are left as they were, and the image keeps
    its size. *)
Theorem X23_rect (px : list Z) (x y w h px' py' c : Z) :
  0 <= x -> 0 <= w -> x + w <= WallTiles.IMAGE_WIDTH ->
  0 <= y -> 0 <= h ->
  ((y + h) * WallTiles.IMAGE_WIDTH) * 2 <= Z.of_nat (length px) ->
  0 <= px' < WallTiles.IMAGE_WIDTH -> 0 <= py' -> 0 <= c <= 1 ->
  length (WallTiles.Rect px x y w h) = length px /\
  arr_get (WallTiles.Rect px x y w h) (WallTiles.offset px' py' c)
  = if (c =? 1) && (x <=? px') && (px' <? x + w) && (y <=? py') && (py' <? y + h)
    then 0xff else arr_get px (WallTiles.offset px' py' c).
Proof.
  intros Hx Hw Hxw Hy Hh Hlen Hpx' Hpy' Hc.
  destruct (Rect_spec x y w px Hx Hxw Hy h Hw Hh Hlen) as [Hl Hget].
  split; [done |]. rewrite Hget by done.
  destruct (decide (c = 1 /\ x <= px' < x + w /\ y <= py' < y + h)) as [Hin | Hout].
  - destruct Hin as (-> & Hin1 & Hin2).
    replace (x <=? px') with true by (symmetry; apply Z.leb_le; lia).
    replace (px' <? x + w) with true by (symmetry; apply Z.ltb_lt; lia).
    replace (y <=? py') with true by (symmetry; apply Z.leb_le; lia).
    replace (py' <? y + h) with true by (symmetry; apply Z.ltb_lt; lia).
    done.
  - destruct (Z.eqb_spec c 1), (Z.leb_spec x px'), (Z.ltb_spec px' (x + w)),
      (Z.leb_spec y py'), (Z.ltb_spec py' (y + h)); simpl; try done.
    exfalso. apply Hout. lia.
Qed.

Lemma solid_tile_after (px : list Z) (u v c old : Z) :
  Z.of_nat (length px) = WallTiles.IMAGE_WIDTH * WallTiles.IMAGE_HEIGHT * 2 ->
  0 <= u < TILE_SIZE -> 0 <= v < TILE_SIZE -> 0 <= c <= 1 ->
  length (WallTiles.AddDebugTiles (WallTiles.AddSolidWallTile px)) = length px /\
  arr_get (WallTiles.AddDebugTiles (WallTiles.AddSolidWallTile px))
    (tile_offset TILE_SIZE TILE_IMAGE_WIDTH WALL_TILE_INDEX u v + 1) = 0xff /\
  arr_get (WallTiles.AddDebugTiles (WallTiles.AddSolidWallTile px))
    (tile_offset TILE_SIZE TILE_IMAGE_WIDTH WALL_TILE_INDEX u v)
  = arr_get px (tile_offset TILE_SIZE TILE_IMAGE_WIDTH WALL_TILE_INDEX u v) /\
  blend TILE_SIZE TILE_IMAGE_WIDTH
    (WallTiles.AddDebugTiles (WallTiles.AddSolidWallTile px)) WALL_TILE_INDEX u v c old
  = arr_get (WallTiles.AddDebugTiles (WallTiles.AddSolidWallTile px))
      (tile_offset TILE_SIZE TILE_IMAGE_WIDTH WALL_TILE_INDEX u v + c).
Proof.
  intros Hlen Hu Hv Hc.
  set (t1 := WallTiles.AddSolidWallTile px).
  set (t2 := WallTiles.AddDebugTiles t1).
  assert (Hoff : tile_offset TILE_SIZE TILE_IMAGE_WIDTH WALL_TILE_INDEX u v
                 = WallTiles.offset v (64 + u) 0).
  { unfold tile_offset, WallTiles.offset, WALL_TILE_INDEX, TILE_SIZE, TILE_IMAGE_WIDTH,
      WallTiles.IMAGE_WIDTH, WallTiles.TILE_SIZE, TILE_SIZE.
    change (Z.shiftr 128 4) with 8. change (Z.land 128 15) with 0. lia. }
  assert (Hoff1 : tile_offset TILE_SIZE TILE_IMAGE_WIDTH WALL_TILE_INDEX u v + 1
                  = WallTiles.offset v (64 + u) 1)
    by (rewrite Hoff; unfold WallTiles.offset; lia).
  unfold TILE_SIZE in Hu, Hv.
  destruct (Rect_spec 0 (WallTiles.IMAGE_HEIGHT - WallTiles.TILE_SIZE) WallTiles.TILE_SIZE px)
    with (h := WallTiles.TILE_SIZE) as [Hl1 Hget1];
    try (unfold WallTiles.IMAGE_HEIGHT, WallTiles.IMAGE_WIDTH, WallTiles.TILE_SIZE in *; lia).
  fold WallTiles.AddSolidWallTile in Hl1, Hget1. fold t1 in Hl1, Hget1.
  destruct (AddDebugTiles_paints t1) as [Hl2 Hp2]. fold t2 in Hl2, Hp2.
  assert (Ha : arr_get t2 (WallTiles.offset v (64 + u) 1) = 255).
  { destruct (Hp2 (WallTiles.offset v (64 + u) 1)) as [-> | [-> _]]; [| done].
    rewrite Hget1;
      try (unfold WallTiles.IMAGE_HEIGHT, WallTiles.IMAGE_WIDTH, WallTiles.TILE_SIZE in *; lia).
    rewrite decide_True; [done |].
    unfold WallTiles.IMAGE_HEIGHT, WallTiles.IMAGE_WIDTH, WallTiles.TILE_SIZE. lia. }
  assert (Hg : arr_get t2 (WallTiles.offset v (64 + u) 0)
               = arr_get px (WallTiles.offset v (64 + u) 0)).
  { destruct (Hp2 (WallTiles.offset v (64 + u) 0)) as [-> | [_ Hodd]].
    - rewrite Hget1;
        try (unfold WallTiles.IMAGE_HEIGHT, WallTiles.IMAGE_WIDTH, WallTiles.TILE_SIZE in *; lia).
      rewrite decide_False; [done | lia].
    - exfalso. unfold WallTiles.offset in Hodd. rewrite Z.add_0_r, Z.mod_mul in Hodd by lia.
      discriminate. }
  split; [exact (eq_trans Hl2 Hl1) |].
  split; [by rewrite Hoff1 |]. split; [by rewrite Hoff |].
  unfold blend. rewrite Hoff1, Ha. done.
Qed.

(** ** Concrete runs of the further properties *)

Lemma X1_witness :
  stack_ok (Push empty_stack 3 4) /\
  stack_size empty_stack < capacity (Push empty_stack 3 4) /\
  capacity empty_stack <= capacity (Push empty_stack 3 4) /\
  exists st', Pop (Push empty_stack 3 4) = Some ((3, 4), st') /\ s st' = s empty_stack.
Proof.
  apply (X1_push_within_capacity empty_stack 3 4).
  unfold stack_ok, stack_size, empty_stack. simpl. lia.
Defined.

Lemma X2_witness :
  stack_size (fill_stack (fill_after 7 5 (carve 7 5 corridor_7x5) 2)) <= 8 * (7 * 5) + 1.
Proof.
  exact (proj1 (proj2 (X2_fill_stack_bounded 7 5 (carve 7 5 corridor_7x5) 2
                         ltac:(lia) ltac:(lia)))).
Defined.

Lemma X3_witness :
  exists acc, flood_fill 7 5 (carve 7 5 corridor_7x5) = Some acc /\
    Z.of_nat (length acc) = 7 * 5 /\
    (forall x y, in_bounds 7 5 x y ->
       (visited 7 acc x y = true <-> reach 7 5 (carve 7 5 corridor_7x5) x y)) /\
    (forall x y, in_bounds 7 5 x y ->
       (acc_at 7 acc x y <> 0 <->
        exists cx cy, in_bounds 7 5 cx cy /\ visited 7 acc cx cy = true /\ near cx cy x y)).
Proof.
  apply (X3_flood_fill_exact 7 5 (carve 7 5 corridor_7x5)); lia.
Defined.

Lemma X4_witness :
  snd (GenerateRandomMapCells 5 5 sample_wall_draw sample_draws (all_wall_5, O))
  = (0 + Z.to_nat (5 * 5))%nat /\
  length (fst (GenerateRandomMapCells 5 5 sample_wall_draw sample_draws (all_wall_5, O)))
  = length all_wall_5 /\
  map_get 5 (fst (GenerateRandomMapCells 5 5 sample_wall_draw sample_draws (all_wall_5, O)))
    1 2
  = if sample_wall_draw (sample_draws (0 + Z.to_nat (2 * 5 + 1))) then 1 else 0.
Proof.
  apply (X4_random_cells 5 5 sample_wall_draw sample_draws all_wall_5 O 1 2);
    [lia | lia | reflexivity | unfold in_bounds; lia].
Defined.

Lemma X5_witness :
  smooth_pass 5 5 centre_open_5 (replicate 25 0)
  = smooth_pass 5 5 centre_open_5 (replicate 25 7) /\
  fst (smooth_pass 5 5 centre_open_5 (replicate 25 0)) = majority 5 5 centre_open_5 /\
  SmoothMapCells 5 5 centre_open_5
  = majority 5 5 (majority 5 5 (majority 5 5 (majority 5 5 centre_open_5))) /\
  Z.of_nat (length (SmoothMapCells 5 5 centre_open_5)) = 5 * 5 /\
  binary (SmoothMapCells 5 5 centre_open_5) = true.
Proof.
  apply (X5_smooth_is_majority 5 5 centre_open_5 (replicate 25 0) (replicate 25 7));
    [lia | lia | reflexivity | reflexivity | reflexivity].
Defined.

Lemma X6_witness :
  map_get 5 (fst (smooth_pass 5 5 centre_open_5 (replicate 25 0))) 4 0 = 1.
Proof.
  apply (X6_smooth_corners 5 5 centre_open_5 (replicate 25 0) 4 0);
    [lia | lia | reflexivity | reflexivity | reflexivity | unfold in_bounds; lia
    | right; lia | left; lia].
Defined.

Lemma X7_witness :
  map_get 5 (fst (smooth_pass 5 5 centre_open_5 (replicate 25 0))) 2 2
  <= map_get 5 (fst (smooth_pass 5 5 all_wall_5 (replicate 25 7))) 2 2.
Proof.
  apply (X7_smooth_monotone 5 5 centre_open_5 all_wall_5
           (replicate 25 0) (replicate 25 7) 2 2);
    [lia | lia | reflexivity | reflexivity | reflexivity | reflexivity
    | | unfold in_bounds; lia].
  intros j. unfold arr_get. destruct (j <? 0); [lia |].
  generalize (Z.to_nat j). intros n.
  do 25 (destruct n as [| n]; [vm_compute; discriminate |]).
  vm_compute. discriminate.
Defined.

Lemma X9_witness :
  (forall k j, 0 <= arr_get (accessible_spots (fill_after 7 5 (carve 7 5 corridor_7x5) k)) j
               <= 3) /\
  exists acc, flood_fill 7 5 (carve 7 5 corridor_7x5) = Some acc /\
    (forall j, 0 <= arr_get acc j <= 3) /\
    (forall j, 0 <= arr_get (mark_holes 7 5 corridor_7x5 acc) j <= 3).
Proof.
  apply (X9_accessible_range 7 5 (carve 7 5 corridor_7x5) corridor_7x5); lia.
Defined.

Lemma X12_witness :
  Z.of_nat (length (fst (GenerateMapPixels 5 5 sample_draws corner_5 ([], O)))) = 5 * 5 /\
  snd (GenerateMapPixels 5 5 sample_draws corner_5 ([], O))
  = (0 + open_count corner_5)%nat.
Proof.
  destruct (X12_tile_calls_in_range 5 5 sample_draws corner_5 O 2 2)
    as (Hcount & Hdraws & _);
    [lia | lia | reflexivity | reflexivity | unfold in_bounds; lia |].
  exact (conj Hcount Hdraws).
Defined.

Lemma X13_witness :
  length (WriteTile 2 32 4 table_2 black_4x4 1 2 2) = length black_4x4 /\
  arr_get (WriteTile 2 32 4 table_2 black_4x4 1 2 2) (pixel_offset 4 3 3 + 0)
  = if (2 <=? 3) && (3 <? 2 + 2) && (2 <=? 3) && (3 <? 2 + 2)
    then (if arr_get table_2 (tile_offset 2 32 1 (3 - 2) (3 - 2) + 1) =? 0
          then arr_get black_4x4 (pixel_offset 4 3 3 + 0)
          else arr_get table_2 (tile_offset 2 32 1 (3 - 2) (3 - 2) + 0))
    else arr_get black_4x4 (pixel_offset 4 3 3 + 0).
Proof.
  apply (X13_write_tile 2 32 4 table_2 black_4x4 1 2 2 3 3 0);
    [lia | lia | lia | lia | simpl; lia | lia | lia | lia].
Defined.

Lemma X14_witness :
  exists tile,
    fst (GenerateMapPixels 3 3 sample_draws ring_3 ([], O)) !! Z.to_nat (1 * 3 + 1)
    = Some (tile, 1 * TILE_SIZE, 1 * TILE_SIZE) /\
    length (fst (GenerateMapPixels_image 3 3 sample_draws ring_3 white_table
                   (white_image_3, O)))
    = length white_image_3 /\
    snd (GenerateMapPixels_image 3 3 sample_draws ring_3 white_table (white_image_3, O))
    = snd (GenerateMapPixels 3 3 sample_draws ring_3 ([], O)) /\
    arr_get (fst (GenerateMapPixels_image 3 3 sample_draws ring_3 white_table
                    (white_image_3, O)))
      (pixel_offset (IMAGE_WIDTH 3) (1 * TILE_SIZE + 5) (1 * TILE_SIZE + 2) + 0)
    = if arr_get white_table (tile_offset TILE_SIZE TILE_IMAGE_WIDTH tile 2 5 + 1) =? 0
      then arr_get white_image_3
             (pixel_offset (IMAGE_WIDTH 3) (1 * TILE_SIZE + 5) (1 * TILE_SIZE + 2) + 0)
      else arr_get white_table (tile_offset TILE_SIZE TILE_IMAGE_WIDTH tile 2 5 + 0).
Proof.
  apply (X14_image_blocks 3 3 sample_draws ring_3 white_table white_image_3 O 1 1 2 5 0);
    [lia | lia | reflexivity | vm_compute; reflexivity | unfold in_bounds; lia
    | unfold TILE_SIZE; lia | unfold TILE_SIZE; lia | lia].
Defined.

Lemma X15_witness :
  exists c,
    FloorMap.calls
      (FloorMap.GenerateMap 4 3 sample_draws (FloorMap.mkMap (replicate 4 0) [] O))
      !! Z.to_nat (1 * 4 + 2)
    = Some (c, 2 * FloorMap.TILE_SIZE, 1 * FloorMap.TILE_SIZE) /\
    0 <= c <= 255 /\
    Z.land c 0x3f = Z.land (sample_draws (FloorMap.cell_draw 4 O 2 1)) 0x3f /\
    Z.testbit c 6
    = Z.testbit
        (if 1 =? 0 then sample_draws (0 + Z.to_nat 2)%nat
         else FloorMap.tile_at 4
                (FloorMap.calls
                   (FloorMap.GenerateMap 4 3 sample_draws
                      (FloorMap.mkMap (replicate 4 0) [] O)))
                2 (1 - 1)) 0 /\
    Z.testbit c 7
    = Z.testbit
        (if 2 =? 0 then sample_draws (FloorMap.row_draw 4 O 1)
         else FloorMap.tile_at 4
                (FloorMap.calls
                   (FloorMap.GenerateMap 4 3 sample_draws
                      (FloorMap.mkMap (replicate 4 0) [] O)))
                (2 - 1) 1) 1.
Proof.
  apply (X15_floor_seams 4 3 sample_draws (replicate 4 0) O 2 1);
    [lia | lia | reflexivity | lia | lia].
Defined.

Lemma X16_witness :
  Z.of_nat (length (FloorMap.calls
                      (FloorMap.GenerateMap 4 3 sample_draws
                         (FloorMap.mkMap (replicate 4 0) [] O))))
  = 4 * 3 /\
  FloorMap.draws
    (FloorMap.GenerateMap 4 3 sample_draws (FloorMap.mkMap (replicate 4 0) [] O))
  = (0 + Z.to_nat (4 * 3 + 4 + 3))%nat.
Proof.
  destruct (X16_floor_calls 4 3 sample_draws (replicate 4 0) O 6%nat (236, 128, 64))
    as (Hcount & Hdraws & _); [lia | lia | reflexivity | reflexivity |].
  exact (conj Hcount Hdraws).
Defined.

Lemma X17_witness :
  length (TriangleMerge.merge 2 2 2 white_2x2 black_2x2) = length black_2x2 /\
  arr_get (TriangleMerge.merge 2 2 2 white_2x2 black_2x2) ((1 * 2 + 1) * 2 + 0)
  = if 2 <=? 1 mod 2 + 1 mod 2
    then arr_get white_2x2 ((1 * 2 + 1) * 2 + 0)
    else arr_get black_2x2 ((1 * 2 + 1) * 2 + 0).
Proof.
  apply (X17_triangle_merge 2 2 2 white_2x2 black_2x2 1 1 0);
    [lia | lia | lia | reflexivity | reflexivity | lia | lia | lia].
Defined.

Lemma X18_witness :
  TriangleMerge.merge 2 2 2 white_2x2 (TriangleMerge.merge 2 2 2 white_2x2 black_2x2)
  = TriangleMerge.merge 2 2 2 white_2x2 black_2x2 /\
  TriangleMerge.merge 2 2 2 black_2x2 black_2x2 = black_2x2.
Proof.
  apply (X18_merge_idempotent 2 2 2 white_2x2 black_2x2);
    [lia | lia | lia | reflexivity | reflexivity].
Defined.

Lemma X19_witness :
  length (fst (TileDither.DitherTile 2 2 stale_rows_2 gray_2x2 ((0 * 2 + 0) * 2 + 0)))
  = length gray_2x2 /\
  (TileDither.in_tile 2 2 0 0 0 2 ->
   TileDither.black_or_white
     (arr_get (fst (TileDither.DitherTile 2 2 stale_rows_2 gray_2x2 ((0 * 2 + 0) * 2 + 0)))
        2)) /\
  (~ TileDither.in_tile 2 2 0 0 0 2 ->
   arr_get (fst (TileDither.DitherTile 2 2 stale_rows_2 gray_2x2 ((0 * 2 + 0) * 2 + 0))) 2
   = arr_get gray_2x2 2).
Proof.
  apply (X19_dither_tile 2 2 stale_rows_2 gray_2x2 0 0 0 2);
    [lia | lia | lia | lia | lia | simpl; lia].
Defined.

Lemma X20_witness :
  arr_get (fst (TileDither.DitherTile 2 2 zero_rows_2 gray_2x2 ((0 * 2 + 0) * 2 + 0)))
    (((0 + 1) * 2 + (0 + 1)) * 2 + 0)
  = arr_get (fst (TileDither.DitherTile 2 4 stale_rows_2 gray_4x2 ((0 * 4 + 2) * 2 + 0)))
      (((0 + 1) * 4 + (2 + 1)) * 2 + 0).
Proof.
  apply (X20_dither_tile_local 2 2 4 zero_rows_2 stale_rows_2 gray_2x2 gray_4x2
           0 0 0 2 0 0 1 1);
    [lia | lia | lia | lia | lia | simpl; lia | lia | lia | lia | lia | simpl; lia
    | reflexivity | reflexivity | reflexivity | reflexivity | | lia | lia].
  intros u v Hu Hv.
  assert (Hu' : u = 0 \/ u = 1) by lia. assert (Hv' : v = 0 \/ v = 1) by lia.
  destruct Hu' as [-> | ->], Hv' as [-> | ->]; reflexivity.
Defined.

Lemma X21_witness :
  length (TileDither.process 2 2 2 stale_rows_2 gray_2x2) = length gray_2x2 /\
  TileDither.black_or_white
    (arr_get (TileDither.process 2 2 2 stale_rows_2 gray_2x2) ((1 * 2 + 0) * 2)) /\
  TileDither.black_or_white
    (arr_get (TileDither.process 2 2 2 stale_rows_2 gray_2x2) ((1 * 2 + 0) * 2 + 1)) /\
  (arr_get (TileDither.process 2 2 2 stale_rows_2 gray_2x2) ((1 * 2 + 0) * 2 + 1) = 0 ->
   arr_get (TileDither.process 2 2 2 stale_rows_2 gray_2x2) ((1 * 2 + 0) * 2) = 0).
Proof.
  apply (X21_dither_output 2 2 2 stale_rows_2 gray_2x2 0 1);
    [lia | lia | lia | reflexivity | reflexivity | reflexivity | lia | lia].
Defined.

Lemma X22_witness :
  TileDither.process 2 2 2 zero_rows_2 (TileDither.process 2 2 2 stale_rows_2 gray_2x2)
  = TileDither.process 2 2 2 stale_rows_2 gray_2x2.
Proof.
  apply (X22_dither_idempotent 2 2 2 stale_rows_2 zero_rows_2 gray_2x2);
    [lia | lia | lia | reflexivity | reflexivity | reflexivity].
Defined.

Lemma X23_witness :
  length (WallTiles.Rect blank_table 8 64 8 1) = length blank_table /\
  arr_get (WallTiles.Rect blank_table 8 64 8 1) (WallTiles.offset 9 64 1)
  = if (1 =? 1) && (8 <=? 9) && (9 <? 8 + 8) && (64 <=? 64) && (64 <? 64 + 1)
    then 0xff else arr_get blank_table (WallTiles.offset 9 64 1).
Proof.
  apply (X23_rect blank_table 8 64 8 1 9 64 1);
    [lia | lia | unfold WallTiles.IMAGE_WIDTH, WallTiles.TILE_SIZE; lia | lia | lia
    | apply Z.leb_le; vm_compute; reflexivity
    | unfold WallTiles.IMAGE_WIDTH, WallTiles.TILE_SIZE; lia | lia | lia].
Defined.


Lemma fold_left_concat_map {A B C : Type} (f : A -> C -> A) (g : B -> list C)
    (l : list B) (a : A) :
  fold_left f (concat (map g l)) a = fold_left (fun a i => fold_left f (g i) a) l a.
Proof.
  revert a. induction l as [| i l IH]; intros a; simpl; [done |].
  by rewrite fold_left_app, IH.
Qed.

Lemma fold_left_pointwise {A B : Type} (f g : A -> B -> A) (l : list B) (a : A) :
  (forall a i, f a i = g a i) -> fold_left f l a = fold_left g l a.
Proof.
  intros Hfg. revert a. induction l as [| i l IH]; intros a; simpl; [done |].
  by rewrite Hfg, IH.
Qed.

Lemma forallb_seqZ (f : Z -> bool) (n i : Z) :
  forallb f (seqZ 0 n) = true -> 0 <= i < n -> f i = true.
Proof.
  intros Hall Hi. rewrite forallb_forall in Hall. apply Hall.
  apply list_elem_of_In, elem_of_seqZ. lia.
Qed.

Lemma AddWallAdjacentTiles_rects (px : list Z) :
  WallTiles.AddWallAdjacentTiles px = fold_left WallTiles.draw WallTiles.all_rects px.
Proof.
  unfold WallTiles.AddWallAdjacentTiles, WallTiles.all_rects.
  rewrite fold_left_concat_map. apply fold_left_pointwise. intros p ty.
  by rewrite fold_left_concat_map.
Qed.

Lemma draw_spec (p : list Z) (r : WallTiles.RectCall) :
  WallTiles.fits r = true ->
  Z.of_nat (length p) = WallTiles.IMAGE_WIDTH * WallTiles.IMAGE_HEIGHT * 2 ->
  length (WallTiles.draw p r) = length p /\
  forall px py c, 0 <= px < WallTiles.IMAGE_WIDTH -> 0 <= py -> 0 <= c <= 1 ->
    arr_get (WallTiles.draw p r) (WallTiles.offset px py c)
    = if (c =? 1) && WallTiles.covers px py r
      then 0xff else arr_get p (WallTiles.offset px py c).
Proof.
  destruct r as [[[x y] w] h]. unfold WallTiles.fits, WallTiles.draw, WallTiles.covers.
  cbn [fst snd]. intros Hfits Hlen.
  repeat (apply andb_prop in Hfits as [Hfits ?]).
  destruct (Rect_spec x y w p) with (h := h) as [Hl Hget]; try lia.
  { unfold WallTiles.IMAGE_WIDTH, WallTiles.IMAGE_HEIGHT, WallTiles.TILE_SIZE in *. nia. }
  split; [done |]. intros px py c Hpx Hpy Hc. rewrite Hget by done.
  destruct (decide (c = 1 /\ x <= px < x + w /\ y <= py < y + h)) as [Hin | Hout].
  - destruct Hin as (-> & Hin1 & Hin2).
    replace (x <=? px) with true by (symmetry; apply Z.leb_le; lia).
    replace (px <? x + w) with true by (symmetry; apply Z.ltb_lt; lia).
    replace (y <=? py) with true by (symmetry; apply Z.leb_le; lia).
    replace (py <? y + h) with true by (symmetry; apply Z.ltb_lt; lia).
    done.
  - destruct (Z.eqb_spec c 1), (Z.leb_spec x px), (Z.ltb_spec px (x + w)),
      (Z.leb_spec y py), (Z.ltb_spec py (y + h)); simpl; try done.
    exfalso. apply Hout. lia.
Qed.

Lemma draws_spec (rects : list WallTiles.RectCall) (p : list Z) :
  forallb WallTiles.fits rects = true ->
  Z.of_nat (length p) = WallTiles.IMAGE_WIDTH * WallTiles.IMAGE_HEIGHT * 2 ->
  length (fold_left WallTiles.draw rects p) = length p /\
  forall px py c, 0 <= px < WallTiles.IMAGE_WIDTH -> 0 <= py -> 0 <= c <= 1 ->
    arr_get (fold_left WallTiles.draw rects p) (WallTiles.offset px py c)
    = if (c =? 1) && existsb (WallTiles.covers px py) rects
      then 0xff else arr_get p (WallTiles.offset px py c).
Proof.
  revert p. induction rects as [| r rects IH]; intros p Hfits Hlen.
  - simpl. split; [done |]. intros px py c _ _ _. by rewrite andb_false_r.
  - simpl in Hfits. apply andb_prop in Hfits as [Hr Hrest].
    destruct (draw_spec p r Hr Hlen) as [Hl Hget].
    destruct (IH (WallTiles.draw p r) Hrest) as [Hl' Hget']; [by rewrite Hl |].
    simpl. split; [congruence |]. intros px py c Hpx Hpy Hc.
    rewrite Hget', Hget by done.
    destruct (c =? 1), (WallTiles.covers px py r),
      (existsb (WallTiles.covers px py) rects); done.
Qed.

Lemma all_rects_fit : forallb WallTiles.fits WallTiles.all_rects = true.
Proof. vm_compute. reflexivity. Qed.

Lemma tile_rects_inside :
  forallb
    (fun ty =>
       forallb (fun tx => forallb (WallTiles.inside tx ty) (WallTiles.tile_rects tx ty))
         (seqZ 0 16))
    (seqZ 0 8)
  = true.
Proof. vm_compute. reflexivity. Qed.

(** Only the rectangles of a tile reach the pixels of that tile. *)
Lemma all_rects_local (tx ty u v : Z) :
  0 <= tx < 16 -> 0 <= ty < 8 ->
  0 <= u < WallTiles.TILE_SIZE -> 0 <= v < WallTiles.TILE_SIZE ->
  existsb (WallTiles.covers (tx * WallTiles.TILE_SIZE + u) (ty * WallTiles.TILE_SIZE + v))
    WallTiles.all_rects
  = WallTiles.covered tx ty u v.
Proof.
  intros Htx Hty Hu Hv. unfold WallTiles.covered.
  set (P := WallTiles.covers _ _).
  apply eq_true_iff_eq. rewrite !existsb_exists. split.
  - intros (r & Hin & Hr). unfold WallTiles.all_rects in Hin.
    apply in_concat in Hin as (l & Hl & Hin).
    apply in_map_iff in Hl as (ty' & <- & Hty').
    apply in_concat in Hin as (l & Hl & Hin).
    apply in_map_iff in Hl as (tx' & <- & Htx').
    apply list_elem_of_In, elem_of_seqZ in Hty'.
    apply list_elem_of_In, elem_of_seqZ in Htx'.
    pose proof (forallb_seqZ _ 8 ty' tile_rects_inside ltac:(lia)) as Hrow.
    cbv beta in Hrow.
    pose proof (forallb_seqZ _ 16 tx' Hrow ltac:(lia)) as Hall. cbv beta in Hall.
    rewrite forallb_forall in Hall. specialize (Hall r Hin).
    destruct r as [[[x y] w] h]. unfold P, WallTiles.covers, WallTiles.inside in *.
    cbn [fst snd] in *. unfold WallTiles.TILE_SIZE in *.
    assert (tx' = tx /\ ty' = ty) as [-> ->] by lia.
    exists (x, y, w, h). split; [done |]. done.
  - intros (r & Hin & Hr). exists r. split; [| done].
    unfold WallTiles.all_rects. apply in_concat.
    exists (concat (map (fun tx => WallTiles.tile_rects tx ty) (seqZ 0 16))). split.
    + apply in_map_iff. exists ty. split; [done |].
      apply list_elem_of_In, elem_of_seqZ. lia.
    + apply in_concat. exists (WallTiles.tile_rects tx ty). split; [| done].
      apply in_map_iff. exists tx. split; [done |].
      apply list_elem_of_In, elem_of_seqZ. lia.
Qed.

Lemma fold_seqZ_keeps {A : Type} (P : A -> Prop) (f : A -> Z -> A) (a : A) (n : Z) :
  P a -> (forall i a, 0 <= i < n -> P a -> P (f a i)) ->
  P (fold_left f (seqZ 0 n) a).
Proof.
  intros Ha Hstep. destruct (Z.le_gt_cases 0 n) as [Hn | Hn].
  - apply (fold_seqZ_ind (fun _ a => P a)); [done | done |].
    intros i b Hi Hb. by apply Hstep.
  - by rewrite seqZ_nil by lia.
Qed.

(** [Rect] writes nothing before the first pixel of its rectangle. *)
Lemma Rect_low (p : list Z) (x y w h j : Z) :
  0 <= x -> j < (y * WallTiles.IMAGE_WIDTH + x) * 2 ->
  arr_get (WallTiles.Rect p x y w h) j = arr_get p j.
Proof.
  intros Hx Hj. unfold WallTiles.Rect.
  apply (fold_seqZ_keeps (fun a => arr_get a j = arr_get p j)); [done |].
  intros iy a Hiy Ha. unfold WallTiles.rect_row.
  set (p0 := ((y + iy) * WallTiles.IMAGE_WIDTH + x) * 2 + 1).
  enough (Hrow : (fun st : list Z * Z => j < snd st /\ arr_get (fst st) j = arr_get p j)
            (fold_left (fun st ix => (arr_set (fst st) (snd st) 0xff, snd st + 2))
               (seqZ 0 w) (a, p0))) by apply Hrow.
  apply fold_left_keeps.
  - intros [b q] ix [Hq Hb]. simpl in *. split; [lia |].
    rewrite arr_get_set_ne by lia. done.
  - simpl. split; [| done].
    unfold p0, WallTiles.IMAGE_WIDTH, WallTiles.TILE_SIZE in *. nia.
Qed.

(** [AddSolidWallTile] and [AddDebugTiles] draw in the last row of tiles. *)
Lemma last_steps_low (p : list Z) (j : Z) :
  j < (64 * WallTiles.IMAGE_WIDTH) * 2 ->
  arr_get (WallTiles.AddDebugTiles (WallTiles.AddSolidWallTile p)) j = arr_get p j.
Proof.
  intros Hj. unfold WallTiles.AddDebugTiles, WallTiles.AddSolidWallTile. cbv zeta.
  unfold WallTiles.IMAGE_HEIGHT, WallTiles.TILE_SIZE in *.
  apply (fold_seqZ_keeps (fun a => arr_get a j = arr_get p j)).
  - rewrite !Rect_low by (unfold WallTiles.IMAGE_WIDTH, WallTiles.TILE_SIZE in *; lia).
    done.
  - intros yy a Hyy Ha.
    apply (fold_seqZ_keeps (fun a => arr_get a j = arr_get p j)); [done |].
    intros k b Hk Hb. unfold WallTiles.dotted_pixel.
    destruct (_ || _); [| done].
    assert (0 <= Z.land yy 1) by (apply Z.land_nonneg; lia).
    rewrite Rect_low; [done | |];
      unfold WallTiles.IMAGE_HEIGHT, WallTiles.IMAGE_WIDTH, WallTiles.TILE_SIZE in *; lia.
Qed.

Lemma draw_tiles_pixel (px : list Z) (tx ty u v c : Z) :
  Z.of_nat (length px) = WallTiles.IMAGE_WIDTH * WallTiles.IMAGE_HEIGHT * 2 ->
  0 <= tx < 16 -> 0 <= ty < 8 ->
  0 <= u < WallTiles.TILE_SIZE -> 0 <= v < WallTiles.TILE_SIZE -> 0 <= c <= 1 ->
  length (WallTiles.draw_tiles px) = length px /\
  arr_get (WallTiles.draw_tiles px)
    (WallTiles.offset (tx * WallTiles.TILE_SIZE + u) (ty * WallTiles.TILE_SIZE + v) c)
  = if (c =? 1) && WallTiles.covered tx ty u v
    then 0xff
    else arr_get px
           (WallTiles.offset (tx * WallTiles.TILE_SIZE + u) (ty * WallTiles.TILE_SIZE + v) c).
Proof.
  intros Hlen Htx Hty Hu Hv Hc. unfold WallTiles.draw_tiles.
  destruct (draws_spec WallTiles.all_rects px all_rects_fit Hlen) as [Hl Hget].
  rewrite <- AddWallAdjacentTiles_rects in Hl, Hget.
  split.
  - destruct (AddDebugTiles_paints
                (WallTiles.AddSolidWallTile (WallTiles.AddWallAdjacentTiles px))) as [Hl2 _].
    destruct (Rect_paints (WallTiles.AddWallAdjacentTiles px) 0
                (WallTiles.IMAGE_HEIGHT - WallTiles.TILE_SIZE)
                WallTiles.TILE_SIZE WallTiles.TILE_SIZE) as [Hl1 _].
    exact (eq_trans Hl2 (eq_trans Hl1 Hl)).
  - rewrite last_steps_low.
    + rewrite Hget, all_rects_local; try done;
        unfold WallTiles.IMAGE_WIDTH, WallTiles.TILE_SIZE in *; lia.
    + unfold WallTiles.offset, WallTiles.IMAGE_WIDTH, WallTiles.TILE_SIZE in *. lia.
Qed.

Lemma edges_covered :
  forallb
    (fun ty =>
       forallb
         (fun tx =>
            Bool.eqb (WallTiles.covered tx ty 7 1) (WallTiles.has tx 1) &&
            Bool.eqb (WallTiles.covered tx ty 1 7) (WallTiles.has tx 2) &&
            Bool.eqb (WallTiles.covered tx ty 0 1) (WallTiles.has tx 4) &&
            Bool.eqb (WallTiles.covered tx ty 1 0) (WallTiles.has tx 8))
         (seqZ 0 16))
    (seqZ 0 8)
  = true.
Proof. vm_compute. reflexivity. Qed.

Lemma no_wall_no_rects :
  forallb (fun ty => match WallTiles.tile_rects 0 ty with [] => true | _ => false end)
    (seqZ 0 8)
  = true.
Proof. vm_compute. reflexivity. Qed.

Lemma tile_index_split (t u v : Z) :
  0 <= t < 128 ->
  0 <= Z.land t 15 < 16 /\ 0 <= Z.shiftr t 4 < 8 /\
  tile_offset TILE_SIZE TILE_IMAGE_WIDTH t u v
  = WallTiles.offset (Z.land t 15 * WallTiles.TILE_SIZE + v)
      (Z.shiftr t 4 * WallTiles.TILE_SIZE + u) 0.
Proof.
  intros Ht. unfold tile_offset, WallTiles.offset, TILE_IMAGE_WIDTH, TILE_SIZE,
    WallTiles.IMAGE_WIDTH, WallTiles.TILE_SIZE.
  rewrite Z.shiftr_div_pow2 by lia. change 15 with (Z.ones 4).
  rewrite Z.land_ones by lia. change (2 ^ 4) with 16.
  split; [apply Z.mod_pos_bound; lia |].
  split; [split; [apply Z.div_pos; lia | apply Z.div_lt_upper_bound; lia] |]. lia.
Qed.

(** X25.  Every tile of the wall tile table is drawn from its own rectangles
    alone.  After the drawing steps of main, a pixel of the tile (tx, ty)
    has alpha 0xff when one of the rectangles that AddWallAdjacentTiles
    draws for that tile holds it, and the alpha it had before otherwise: no
    rectangle of another tile, of the solid tile or of the debug tiles
    reaches it.  No gray level changes and the table keeps its size. *)
Theorem X25_wall_tiles_local (px : list Z) (tx ty u v c : Z) :
  Z.of_nat (length px) = WallTiles.IMAGE_WIDTH * WallTiles.IMAGE_HEIGHT * 2 ->
  0 <= tx < 16 -> 0 <= ty < 8 ->
  0 <= u < WallTiles.TILE_SIZE -> 0 <= v < WallTiles.TILE_SIZE -> 0 <= c <= 1 ->
  length (WallTiles.draw_tiles px) = length px /\
  arr_get (WallTiles.draw_tiles px)
    (WallTiles.offset (tx * WallTiles.TILE_SIZE + u) (ty * WallTiles.TILE_SIZE + v) 1)
  = (if WallTiles.covered tx ty u v
     then 0xff
     else arr_get px
            (WallTiles.offset (tx * WallTiles.TILE_SIZE + u)
               (ty * WallTiles.TILE_SIZE + v) 1)) /\
  arr_get (WallTiles.draw_tiles px)
    (WallTiles.offset (tx * WallTiles.TILE_SIZE + u) (ty * WallTiles.TILE_SIZE + v) 0)
  = arr_get px
      (WallTiles.offset (tx * WallTiles.TILE_SIZE + u) (ty * WallTiles.TILE_SIZE + v) 0) /\
  WallTiles.covered tx ty u v
  = existsb (WallTiles.covers (tx * WallTiles.TILE_SIZE + u) (ty * WallTiles.TILE_SIZE + v))
      WallTiles.all_rects.
Proof.
  intros Hlen Htx Hty Hu Hv Hc.
  destruct (draw_tiles_pixel px tx ty u v 1 Hlen Htx Hty Hu Hv ltac:(lia)) as [Hl H1].
  destruct (draw_tiles_pixel px tx ty u v 0 Hlen Htx Hty Hu Hv ltac:(lia)) as [_ H0].
  split; [done |]. split; [exact H1 |]. split; [exact H0 |].
  symmetry. by apply all_rects_local.
Qed.

(** X26.  The wall tiles show a wall on the sides where the tile index says
    there is one.  In the table drawn on a cleared image, for every tile
    index t below 0x80, the edge pixel (7, 1) is opaque exactly when bit 0
    of t is set (wall on the right), (1, 7) exactly when bit 1 is set (wall
    below), (0, 1) exactly when bit 2 is set (wall on the left) and (1, 0)
    exactly when bit 3 is set (wall above); a tile whose four bits are 0 is
    left empty. *)
Theorem X26_wall_edges (px : list Z) (t : Z) :
  Z.of_nat (length px) = WallTiles.IMAGE_WIDTH * WallTiles.IMAGE_HEIGHT * 2 ->
  (forall j, arr_get px j = 0) ->
  0 <= t < 128 ->
  (arr_get (WallTiles.draw_tiles px) (tile_offset TILE_SIZE TILE_IMAGE_WIDTH t 1 7 + 1) = 0xff
   <-> Z.land t 1 <> 0) /\
  (arr_get (WallTiles.draw_tiles px) (tile_offset TILE_SIZE TILE_IMAGE_WIDTH t 7 1 + 1) = 0xff
   <-> Z.land t 2 <> 0) /\
  (arr_get (WallTiles.draw_tiles px) (tile_offset TILE_SIZE TILE_IMAGE_WIDTH t 1 0 + 1) = 0xff
   <-> Z.land t 4 <> 0) /\
  (arr_get (WallTiles.draw_tiles px) (tile_offset TILE_SIZE TILE_IMAGE_WIDTH t 0 1 + 1) = 0xff
   <-> Z.land t 8 <> 0) /\
  (Z.land t 15 = 0 ->
   forall u v c, 0 <= u < TILE_SIZE -> 0 <= v < TILE_SIZE -> 0 <= c <= 1 ->
     arr_get (WallTiles.draw_tiles px) (tile_offset TILE_SIZE TILE_IMAGE_WIDTH t u v + c) = 0).
Proof.
  intros Hlen Hzero Ht.
  assert (Hpix : forall u v c, 0 <= u < 8 -> 0 <= v < 8 -> 0 <= c <= 1 ->
            arr_get (WallTiles.draw_tiles px) (tile_offset TILE_SIZE TILE_IMAGE_WIDTH t u v + c)
            = if (c =? 1) && WallTiles.covered (Z.land t 15) (Z.shiftr t 4) v u
              then 0xff else 0).
  { intros u v c Hu Hv Hc.
    destruct (tile_index_split t u v Ht) as (Htx & Hty & ->).
    replace (WallTiles.offset (Z.land t 15 * WallTiles.TILE_SIZE + v)
               (Z.shiftr t 4 * WallTiles.TILE_SIZE + u) 0 + c)
      with (WallTiles.offset (Z.land t 15 * WallTiles.TILE_SIZE + v)
              (Z.shiftr t 4 * WallTiles.TILE_SIZE + u) c)
      by (unfold WallTiles.offset; lia).
    destruct (draw_tiles_pixel px (Z.land t 15) (Z.shiftr t 4) v u c Hlen Htx Hty)
      as [_ ->]; try done. by rewrite Hzero. }
  destruct (tile_index_split t 0 0 Ht) as (Htx & Hty & _).
  pose proof (forallb_seqZ _ 8 (Z.shiftr t 4) edges_covered Hty) as Hrow. cbv beta in Hrow.
  pose proof (forallb_seqZ _ 16 (Z.land t 15) Hrow Htx) as Hedges. cbv beta in Hedges.
  apply andb_prop in Hedges as [Hedges H3]. apply andb_prop in Hedges as [Hedges H2].
  apply andb_prop in Hedges as [H0 H1].
  apply eqb_prop in H0, H1, H2, H3.
  assert (Hbit : forall k, (k = 1 \/ k = 2 \/ k = 4 \/ k = 8) ->
            WallTiles.has (Z.land t 15) k = negb (Z.land t k =? 0)).
  { intros k Hk. unfold WallTiles.has. rewrite <- Z.land_assoc.
    destruct Hk as [-> | [-> | [-> | ->]]]; reflexivity. }
  rewrite Hbit in H0, H1, H2, H3 by tauto.
  assert (Hedge : forall u v k,
            0 <= u < 8 -> 0 <= v < 8 ->
            WallTiles.covered (Z.land t 15) (Z.shiftr t 4) v u = negb (Z.land t k =? 0) ->
            arr_get (WallTiles.draw_tiles px)
              (tile_offset TILE_SIZE TILE_IMAGE_WIDTH t u v + 1) = 0xff
            <-> Z.land t k <> 0).
  { intros u v k Hu Hv Hcov. rewrite Hpix by lia. rewrite Hcov. simpl.
    destruct (Z.eqb_spec (Z.land t k) 0) as [Hz | Hnz]; simpl.
    - split; [discriminate | done].
    - split; done. }
  split; [apply Hedge; [lia | lia | done] |].
  split; [apply Hedge; [lia | lia | done] |].
  split; [apply Hedge; [lia | lia | done] |].
  split; [apply Hedge; [lia | lia | done] |].
  intros Hnone u v c Hu Hv Hc. unfold TILE_SIZE in Hu, Hv. rewrite Hpix by done.
  pose proof (forallb_seqZ _ 8 (Z.shiftr t 4) no_wall_no_rects Hty) as Hnil.
  cbv beta in Hnil. unfold WallTiles.covered. rewrite Hnone.
  destruct (WallTiles.tile_rects 0 (Z.shiftr t 4)); [| discriminate].
  simpl. by rewrite andb_false_r.
Qed.

Lemma AddWallAdjacentTiles_paints (px : list Z) :
  WallTiles.paints px (WallTiles.AddWallAdjacentTiles px).
Proof.
  rewrite AddWallAdjacentTiles_rects.
  apply (fold_left_keeps (WallTiles.paints px)); [| apply paints_refl].
  intros a r Ha. apply (paints_trans _ a); [done |]. apply Rect_paints.
Qed.

(** X24.  The wall tile of the tile table is solid.  After the drawing steps
    of main every pixel of tile 0x80, the tile the map generator writes for
    a wall cell, has alpha 0xff, so WriteTile copies the whole tile; the
    gray levels of the tile are those the image had before the drawing. *)
Theorem X24_wall_tile_solid (px : list Z) (u v c old : Z) :
  Z.of_nat (length px) = WallTiles.IMAGE_WIDTH * WallTiles.IMAGE_HEIGHT * 2 ->
  0 <= u < TILE_SIZE -> 0 <= v < TILE_SIZE -> 0 <= c <= 1 ->
  length (WallTiles.draw_tiles px) = length px /\
  arr_get (WallTiles.draw_tiles px)
    (tile_offset TILE_SIZE TILE_IMAGE_WIDTH WALL_TILE_INDEX u v + 1) = 0xff /\
  arr_get (WallTiles.draw_tiles px)
    (tile_offset TILE_SIZE TILE_IMAGE_WIDTH WALL_TILE_INDEX u v)
  = arr_get px (tile_offset TILE_SIZE TILE_IMAGE_WIDTH WALL_TILE_INDEX u v) /\
  blend TILE_SIZE TILE_IMAGE_WIDTH (WallTiles.draw_tiles px) WALL_TILE_INDEX u v c old
  = arr_get (WallTiles.draw_tiles px)
      (tile_offset TILE_SIZE TILE_IMAGE_WIDTH WALL_TILE_INDEX u v + c).
Proof.
  intros Hlen Hu Hv Hc. unfold WallTiles.draw_tiles.
  destruct (AddWallAdjacentTiles_paints px) as [Hl0 Hp0].
  destruct (solid_tile_after (WallTiles.AddWallAdjacentTiles px) u v c old)
    as (Hl & Ha & Hg & Hblend); [by rewrite Hl0 | done | done | done |].
  split; [congruence |]. split; [done |]. split; [| done].
  rewrite Hg.
  destruct (Hp0 (tile_offset TILE_SIZE TILE_IMAGE_WIDTH WALL_TILE_INDEX u v))
    as [-> | [_ Hodd]]; [done |].
  exfalso. unfold tile_offset in Hodd. rewrite Z.mod_mul in Hodd by lia. discriminate.
Qed.

Lemma X24_witness :
  arr_get (WallTiles.draw_tiles blank_table)
    (tile_offset TILE_SIZE TILE_IMAGE_WIDTH WALL_TILE_INDEX 3 4 + 1) = 0xff.
Proof.
  destruct (X24_wall_tile_solid blank_table 3 4 0 0) as (_ & Ha & _);
    [vm_compute; reflexivity | unfold TILE_SIZE; lia | unfold TILE_SIZE; lia | lia |].
  exact Ha.
Defined.

Lemma X25_witness :
  arr_get (WallTiles.draw_tiles blank_table)
    (WallTiles.offset (5 * WallTiles.TILE_SIZE + 7) (2 * WallTiles.TILE_SIZE + 1) 1)
  = if WallTiles.covered 5 2 7 1
    then 0xff
    else arr_get blank_table
           (WallTiles.offset (5 * WallTiles.TILE_SIZE + 7) (2 * WallTiles.TILE_SIZE + 1) 1).
Proof.
  destruct (X25_wall_tiles_local blank_table 5 2 7 1 1) as (_ & Ha & _);
    [vm_compute; reflexivity | lia | lia | unfold WallTiles.TILE_SIZE; lia
    | unfold WallTiles.TILE_SIZE; lia | lia |].
  exact Ha.
Defined.

Lemma X26_witness :
  arr_get (WallTiles.draw_tiles blank_table)
    (tile_offset TILE_SIZE TILE_IMAGE_WIDTH 37 1 7 + 1) = 0xff
  <-> Z.land 37 1 <> 0.
Proof.
  destruct (X26_wall_edges blank_table 37) as (Hright & _);
    [vm_compute; reflexivity | | lia |].
  - intros j. unfold blank_table. unfold arr_get. destruct (j <? 0); [done |].
    destruct (replicate (Z.to_nat (128 * 72 * 2)) 0 !! Z.to_nat j) as [z |] eqn:Hz;
      [| done].
    by apply lookup_replicate in Hz as [-> _].
  - exact Hright.
Defined.

(** ** Allocation failure *)

Lemma runs_to_granted {A : Type} (alloc : nat -> bool) (n : nat) (r : Run A) (a : A) :
  (forall k, alloc k = true) -> runs_to alloc n r a -> exists n', r = Returned a n'.
Proof.
  intros Hall [(_ & k & _ & Hk) | (n' & Hr & _)]; [| by exists n'].
  rewrite Hall in Hk. discriminate.
Qed.













(** ** Concrete runs with allocation *)




(** With a program name of 219 characters the usage message has 256
    characters: main returns 256 and the exit status is 0. *)
Example usage_exit_status :
  main_returns 160 160 sample_wall_draw sample_draws plenty long_name_console usage_env
  = Returned 256 0 /\
  exit_status
    (main_returns 160 160 sample_wall_draw sample_draws plenty long_name_console usage_env)
  = Some 0.
Proof. split; reflexivity. Qed.

(** The third request of GenerateMapCells is the calloc of FillMapHoles:
    when it is refused the program exits, and with no memory at all the
    malloc of SmoothMapCells already ends it. *)
Example generation_out_of_memory :
  GenerateMapCells_or_exit 5 5 sample_wall_draw sample_draws two_blocks (all_wall_5, O) 0
  = OutOfMemory /\
  GenerateMapCells_or_exit 5 5 sample_wall_draw sample_draws nothing (all_wall_5, O) 0
  = OutOfMemory /\
  exists m n,
    GenerateMapCells_or_exit 5 5 sample_wall_draw sample_draws plenty (all_wall_5, O) 0
    = Returned m n.
Proof.
  split; [vm_compute; reflexivity |]. split; [vm_compute; reflexivity |].
  eexists _, _. vm_compute. reflexivity.
Qed.
